(** * Cosina Voigtlander scraper: the field normalizers, the site navigator,
      the fetch cache and the row ordering of [main.py], embedded in Rocq.

    Python [str] values are sequences of Unicode code points, so a string is
    a [list N] here.  Library behaviour the program relies on ([str.replace],
    [str.split], [re.match], [re.search], [re.findall], [float], [list.sort],
    [dict], [set]) is written out as executable definitions; what lies outside
    the process (the MD5 digest, the HTTP server, the HTML parser) is a
    parameter of the section that uses it. *)

From Stdlib Require Import List String Ascii NArith ZArith QArith Lia Bool.
From Stdlib Require Import Sorting.Sorted Sorting.Permutation.
From stdpp Require Import gmap strings list.

Local Open Scope N_scope.

(** ** Strings *)

Definition char := N.
Definition pystr := list char.

(** Code points of a UTF-8 encoded literal (well-formed input only: this is
    how the string constants of the source are written down below). *)
Fixpoint utf8_decode (bs : list N) : pystr :=
  match bs with
  | [] => []
  | b :: r =>
      if b <? 128 then b :: utf8_decode r
      else if b <? 224 then
        match r with
        | b1 :: r' => ((b mod 32) * 64 + b1 mod 64) :: utf8_decode r'
        | _ => []
        end
      else if b <? 240 then
        match r with
        | b1 :: b2 :: r' =>
            ((b mod 16) * 4096 + (b1 mod 64) * 64 + b2 mod 64) :: utf8_decode r'
        | _ => []
        end
      else
        match r with
        | b1 :: b2 :: b3 :: r' =>
            ((b mod 8) * 262144 + (b1 mod 64) * 4096 + (b2 mod 64) * 64 + b3 mod 64)
              :: utf8_decode r'
        | _ => []
        end
  end.

Definition u (s : string) : pystr :=
  utf8_decode (map (fun a => N_of_ascii a) (list_ascii_of_string s)).

(** The double quote, which the output markup contains. *)
Definition dquote : pystr := [34].

(** [s.startswith(p)] *)
Fixpoint startswith (p s : pystr) : bool :=
  match p, s with
  | [], _ => true
  | _ :: _, [] => false
  | a :: p', b :: s' => (a =? b) && startswith p' s'
  end.

(** [s.partition(sep)] for a separator that occurs: the text before the
    first occurrence and the text after it; [None] when [sep] does not occur. *)
Fixpoint partition (sep s : pystr) : option (pystr * pystr) :=
  if startswith sep s then Some ([], drop (length sep) s)
  else match s with
       | [] => None
       | c :: s' =>
           match partition sep s' with
           | Some (a, b) => Some (c :: a, b)
           | None => None
           end
       end.

(** [sep in s] *)
Definition contains (sep s : pystr) : bool :=
  match partition sep s with Some _ => true | None => false end.

(** [s.replace(old, new)] for a non-empty [old]: every occurrence, leftmost
    first, occurrences not overlapping. *)
Fixpoint replace_fuel (fuel : nat) (old new s : pystr) : pystr :=
  match fuel with
  | O => s
  | S f =>
      match partition old s with
      | None => s
      | Some (a, b) => a ++ new ++ replace_fuel f old new b
      end
  end.

Definition replace (old new s : pystr) : pystr :=
  replace_fuel (length s) old new s.

(** [s.split(sep)] for a non-empty [sep]. *)
Fixpoint split_fuel (fuel : nat) (sep s : pystr) : list pystr :=
  match fuel with
  | O => [s]
  | S f =>
      match partition sep s with
      | None => [s]
      | Some (a, b) => a :: split_fuel f sep b
      end
  end.

Definition split (sep s : pystr) : list pystr :=
  split_fuel (length s) sep s.

(** [s[:-1]] *)
Definition drop_last (s : pystr) : pystr := removelast s.

(** [s.rstrip(c)] for a one-character argument. *)
Fixpoint rstrip (c : char) (s : pystr) : pystr :=
  match s with
  | [] => []
  | a :: s' =>
      match rstrip c s' with
      | [] => if a =? c then [] else [a]
      | r => a :: r
      end
  end.

(** [sep.join(parts)] *)
Fixpoint join (sep : pystr) (parts : list pystr) : pystr :=
  match parts with
  | [] => []
  | [p] => p
  | p :: ps => p ++ sep ++ join sep ps
  end.

(** ** Exceptions *)

Inductive exn : Set :=
  | ValueError | IndexError | KeyError | AttributeError
  | HTTPError | ConnectionError.

Inductive result (A : Type) : Type :=
  | Ok (a : A)
  | Raise (e : exn).
Arguments Ok {A} a.
Arguments Raise {A} e.

(** [l[i]] on a list. *)
Definition index {A} (l : list A) (i : nat) : result A :=
  match nth_error l i with
  | Some x => Ok x
  | None => Raise IndexError
  end.

(** ** Unicode data used by [re] and [float]

    [\d] and [float] go through the interpreter's Unicode database: a
    character is a decimal digit when its general category is Nd.  Nd
    characters come in runs of ten, listed here by their zero (Unicode 14.0,
    the database of CPython 3.11). *)

Definition decimal_zeros : list N :=
  [0x30; 0x660; 0x6F0; 0x7C0; 0x966; 0x9E6; 0xA66; 0xAE6; 0xB66; 0xBE6; 0xC66;
   0xCE6; 0xD66; 0xDE6; 0xE50; 0xED0; 0xF20; 0x1040; 0x1090; 0x17E0; 0x1810;
   0x1946; 0x19D0; 0x1A80; 0x1A90; 0x1B50; 0x1BB0; 0x1C40; 0x1C50; 0xA620;
   0xA8D0; 0xA900; 0xA9D0; 0xA9F0; 0xAA50; 0xABF0; 0xFF10; 0x104A0; 0x10D30;
   0x11066; 0x110F0; 0x11136; 0x111D0; 0x112F0; 0x11450; 0x114D0; 0x11650;
   0x116C0; 0x11730; 0x118E0; 0x11950; 0x11C50; 0x11D50; 0x11DA0; 0x16A60;
   0x16AC0; 0x16B50; 0x1D7CE; 0x1D7D8; 0x1D7E2; 0x1D7EC; 0x1D7F6; 0x1E140;
   0x1E2F0; 0x1E950; 0x1FBF0].

(** [Py_UNICODE_TODECIMAL] *)
Definition to_decimal (c : char) : option N :=
  match List.find (fun z => (z <=? c) && (c <? z + 10)) decimal_zeros with
  | Some z => Some (c - z)
  | None => None
  end.

(** [Py_UNICODE_ISDECIMAL], which is what [\d] tests on a [str] pattern. *)
Definition is_decimal (c : char) : bool :=
  match to_decimal c with Some _ => true | None => false end.

(** [Py_UNICODE_ISSPACE] *)
Definition unicode_space (c : char) : bool :=
  ((0x9 <=? c) && (c <=? 0xD)) || ((0x1C <=? c) && (c <=? 0x20))
  || (c =? 0x85) || (c =? 0xA0) || (c =? 0x1680)
  || ((0x2000 <=? c) && (c <=? 0x200A))
  || (c =? 0x2028) || (c =? 0x2029) || (c =? 0x202F) || (c =? 0x205F)
  || (c =? 0x3000).

(** ** Regular expressions

    The patterns of the program are sequences of single-character classes,
    each taken once, optionally ([?]) or one or more times ([+]), some of them
    in a capturing group.  [re] matches by backtracking, every quantifier
    greedy. *)

Inductive cls : Set :=
  | Lit (c : char)          (* a literal character *)
  | Digit                   (* \d *)
  | Either (a b : cls).     (* a bracketed set of two members *)

Fixpoint accepts (a : cls) (c : char) : bool :=
  match a with
  | Lit x => c =? x
  | Digit => is_decimal c
  | Either x y => accepts x c || accepts y c
  end.

Inductive quantifier : Set := Once | Opt | Plus.

Record piece : Set := Piece { atom : cls; quant : quantifier; captured : bool }.

Definition regex := list piece.

(** [x+] followed by the continuation [k]: take as many characters as
    possible, give one back at a time while [k] fails. *)
Fixpoint greedy_plus {R} (ok : char -> bool) (k : pystr -> pystr -> option R)
    (taken s : pystr) : option R :=
  match s with
  | [] => None
  | c :: s' =>
      if ok c then
        match greedy_plus ok k (taken ++ [c]) s' with
        | Some r => Some r
        | None => k (taken ++ [c]) s'
        end
      else None
  end.

(** The groups of a match, with the text a piece has taken put in front when
    the piece is a capturing group. *)
Definition with_group (cap : bool) (taken : pystr) (gs : list pystr) : list pystr :=
  if cap then taken :: gs else gs.

(** A match of the pattern at the start of [s]: the captured groups in
    order, and the text left after the match. *)
Fixpoint match_here (p : regex) (s : pystr) : option (list pystr * pystr) :=
  match p with
  | [] => Some ([], s)
  | Piece a q cap :: p' =>
      let k (taken rest : pystr) :=
        match match_here p' rest with
        | Some (gs, r) => Some (with_group cap taken gs, r)
        | None => None
        end in
      match q with
      | Once =>
          match s with
          | c :: s' => if accepts a c then k [c] s' else None
          | [] => None
          end
      | Opt =>
          match s with
          | c :: s' =>
              if accepts a c then
                match k [c] s' with
                | Some r => Some r
                | None => k [] s
                end
              else k [] s
          | [] => k [] s
          end
      | Plus => greedy_plus (accepts a) k [] s
      end
  end.

(** [re.match(p, s)]: the groups of a match at position 0. *)
Definition re_match (p : regex) (s : pystr) : option (list pystr) :=
  match match_here p s with
  | Some (gs, _) => Some gs
  | None => None
  end.

(** [re.search(p, s)]: the groups of the leftmost match. *)
Fixpoint re_search (p : regex) (s : pystr) : option (list pystr) :=
  match match_here p s with
  | Some (gs, _) => Some gs
  | None =>
      match s with
      | [] => None
      | _ :: s' => re_search p s'
      end
  end.

(** [re.findall(p, s)] for a pattern without groups that cannot match the
    empty string: the matched texts, left to right, the search resuming where
    the previous match ended. *)
Fixpoint findall_fuel (fuel : nat) (p : regex) (s : pystr) : list pystr :=
  match fuel with
  | O => []
  | S f =>
      match s with
      | [] => []
      | _ :: s' =>
          match match_here p s with
          | Some (_, rest) =>
              take (length s - length rest) s :: findall_fuel f p rest
          | None => findall_fuel f p s'
          end
      end
  end.

Definition re_findall (p : regex) (s : pystr) : list pystr :=
  findall_fuel (length s) p s.

(** [(\d+)群(\d+)枚] *)
Definition lens_const_re : regex :=
  [Piece Digit Plus true; Piece (Lit 0x7fa4) Once false;
   Piece Digit Plus true; Piece (Lit 0x679a) Once false].

(** [[\d\.]+] *)
Definition numeric : cls := Either Digit (Lit 46).
Definition numeric_re : regex := [Piece numeric Plus false].

(** [1 ?: ?([\d\.]+)] *)
Definition f_number_re : regex :=
  [Piece (Lit 49) Once false; Piece (Lit 32) Opt false; Piece (Lit 58) Once false;
   Piece (Lit 32) Opt false; Piece numeric Plus true].

(** ** The normalizers without arithmetic *)

Definition format_lens_const (japanese_const : pystr) : result pystr :=
  match re_match lens_const_re japanese_const with
  | Some [groups; elements] => Ok (elements ++ u "e/" ++ groups ++ u "g")
  | Some _ => Raise ValueError      (* unpacking other than two groups *)
  | None => Ok japanese_const
  end.

Definition unit_target (unit : pystr) : pystr :=
  if decide (unit = u "m") then u "m|ft" else unit.

Definition format_cvt (value unit : pystr) : result pystr :=
  let numeric_values := re_findall numeric_re value in
  if contains (u "×") value then
    Ok (u "{{cvt|" ++ join (u "|×|") numeric_values ++ u "|" ++ unit_target unit ++ u "}}")
  else
    match numeric_values with
    | _ :: _ =>
        match index numeric_values 0 with
        | Ok first => Ok (u "{{cvt|" ++ first ++ u "|" ++ unit_target unit ++ u "}}")
        | Raise e => Raise e
        end
    | [] => Ok value
    end.

Definition format_f_number (value : pystr) : result pystr :=
  match re_search f_number_re value with
  | Some gs =>
      match index gs 0 with            (* match.group(1) *)
      | Ok g => Ok (u "{{f/|" ++ g ++ u "}}")
      | Raise e => Raise e
      end
  | None => Ok value
  end.

(** ** [float(str)]

    CPython turns the text into ASCII first (Unicode spaces become a space,
    Unicode decimal digits their ASCII digit, anything else outside ASCII a
    question mark that ends the text), checks and removes underscores, strips
    ASCII white space, and then reads a decimal numeral, [inf], [infinity] or
    [nan]; the whole text has to be used up.  The numeral is rounded to the
    nearest binary64 value, ties to even.  A finite double is represented by
    its rational value, in lowest terms; the sign of a zero or of a NaN is not
    kept, no comparison sees it.  (Numerals of more than 10^9 digits, which CPython
    rejects, are outside the model.) *)

Inductive pyfloat : Set :=
  | Finite (q : Q)
  | Inf (negative : bool)
  | NaN.

Definition ascii_space (c : char) : bool := ((9 <=? c) && (c <=? 13)) || (c =? 32).
Definition ascii_digit (c : char) : bool := (48 <=? c) && (c <=? 57).

(** [_PyUnicode_TransformDecimalAndSpaceToASCII] *)
Fixpoint transform_decimal_and_space (s : pystr) : pystr :=
  match s with
  | [] => []
  | c :: s' =>
      if c <? 127 then c :: transform_decimal_and_space s'
      else if unicode_space c then 32 :: transform_decimal_and_space s'
      else match to_decimal c with
           | Some d => (48 + d) :: transform_decimal_and_space s'
           | None => [63]
           end
  end.

Definition to_ascii (s : pystr) : pystr :=
  if forallb (fun c => c <? 128) s then s else transform_decimal_and_space s.

(** [_Py_string_to_number_with_underscores]: an underscore stands between
    two digits or the text is refused; [prev] is the character before. *)
Fixpoint strip_underscores (prev : char) (s : pystr) : option pystr :=
  match s with
  | [] => if prev =? 95 then None else Some []
  | c :: s' =>
      if c =? 95 then
        if ascii_digit prev then strip_underscores c s' else None
      else if (prev =? 95) && negb (ascii_digit c) then None
      else match strip_underscores c s' with
           | Some r => Some (c :: r)
           | None => None
           end
  end.

Fixpoint lstrip_space (s : pystr) : pystr :=
  match s with
  | c :: s' => if ascii_space c then lstrip_space s' else s
  | [] => []
  end.

Fixpoint rstrip_space (s : pystr) : pystr :=
  match s with
  | [] => []
  | a :: s' =>
      match rstrip_space s' with
      | [] => if ascii_space a then [] else [a]
      | r => a :: r
      end
  end.

(** The longest prefix of ASCII digits, and what follows it. *)
Fixpoint span_digits (s : pystr) : pystr * pystr :=
  match s with
  | c :: s' =>
      if ascii_digit c then let '(d, r) := span_digits s' in (c :: d, r)
      else ([], s)
  | [] => ([], [])
  end.

Definition digits_value (ds : pystr) : N :=
  fold_left (fun acc c => 10 * acc + (c - 48)) ds 0.

Definition take_sign (s : pystr) : bool * pystr :=
  match s with
  | 45 :: r => (true, r)
  | 43 :: r => (false, r)
  | _ => (false, s)
  end.

(** The exponent part, when it is well formed; otherwise nothing is read. *)
Definition take_exponent (s : pystr) : Z * pystr :=
  match s with
  | c :: r =>
      if (c =? 101) || (c =? 69) then
        let '(neg, r1) := take_sign r in
        let '(ds, r2) := span_digits r1 in
        match ds with
        | [] => (0%Z, s)
        | _ => ((if neg then - Z.of_N (digits_value ds) else Z.of_N (digits_value ds))%Z, r2)
        end
      else (0%Z, s)
  | [] => (0%Z, s)
  end.

(** A decimal numeral: sign, digits as a natural number, power of ten. *)
Definition parse_decimal (s : pystr) : option (bool * N * Z) :=
  let '(neg, s1) := take_sign s in
  let '(ip, s2) := span_digits s1 in
  let '(fp, s3) := match s2 with
                   | 46 :: r => span_digits r
                   | _ => ([], s2)
                   end in
  match ip ++ fp with
  | [] => None
  | ds =>
      let '(e, s4) := take_exponent s3 in
      match s4 with
      | [] => Some (neg, digits_value ds, (e - Z.of_nat (length fp))%Z)
      | _ => None
      end
  end.

Definition ascii_lower (c : char) : char :=
  if (65 <=? c) && (c <=? 90) then c + 32 else c.

(** [_Py_parse_inf_or_nan] *)
Definition parse_inf_or_nan (s : pystr) : option pyfloat :=
  let '(neg, r) := take_sign s in
  let l := map ascii_lower r in
  if decide (l = u "inf") then Some (Inf neg)
  else if decide (l = u "infinity") then Some (Inf neg)
  else if decide (l = u "nan") then Some NaN
  else None.

(** The binary64 value nearest to [n/d] for positive [n], [d]: 53 significant
    bits, least exponent -1074, ties to even, infinity from 2^1024 on. *)
Definition round_binary64 (n d : positive) : pyfloat :=
  let l := (Z.log2 (Z.pos n) - Z.log2 (Z.pos d))%Z in
  let e := (if (if 0 <=? l then Z.pos d * 2 ^ l <=? Z.pos n
                else Z.pos d <=? Z.pos n * 2 ^ (- l))
            then l else l - 1)%Z in
  let q := Z.max (e - 52) (-1074) in
  let num := (if 0 <=? q then Z.pos n else Z.pos n * 2 ^ (- q))%Z in
  let den := (if 0 <=? q then Z.pos d * 2 ^ q else Z.pos d)%Z in
  let m := (num / den)%Z in
  let r := (num mod den)%Z in
  let m' := (if 2 * r <? den then m
             else if den <? 2 * r then m + 1
             else if Z.even m then m else m + 1)%Z in
  if (0 <=? q)%Z then
    if (2 ^ 1024 <=? m' * 2 ^ q)%Z then Inf false
    else Finite (inject_Z (m' * 2 ^ q))
  else
    match (2 ^ (- q))%Z with
    | Z.pos p => Finite (Qred (Qmake m' p))
    | _ => NaN
    end.

Definition float_neg (x : pyfloat) : pyfloat :=
  match x with
  | Finite q => Finite (Qopp q)
  | Inf s => Inf (negb s)
  | NaN => NaN
  end.

Definition decimal_to_float (neg : bool) (m : N) (e : Z) : pyfloat :=
  match m with
  | N0 => Finite 0
  | Npos mp =>
      let x := match e with
               | Z0 => round_binary64 mp 1
               | Z.pos _ => round_binary64 (mp * Z.to_pos (10 ^ e)) 1
               | Z.neg _ => round_binary64 mp (Z.to_pos (10 ^ (- e)))
               end in
      if neg then float_neg x else x
  end.

(** [float(s)] on a [str]: the value, or [None] for [ValueError]. *)
Definition py_float (s : pystr) : option pyfloat :=
  match strip_underscores 0 (to_ascii s) with
  | None => None
  | Some t =>
      let t := rstrip_space (lstrip_space t) in
      match parse_decimal t with
      | Some (neg, m, e) => Some (decimal_to_float neg m e)
      | None => parse_inf_or_nan t
      end
  end.

(** [x < n] for a float [x] and an integer literal [n] (exact in Python). *)
Definition float_lt (x : pyfloat) (n : Z) : bool :=
  match x with
  | Finite q => match Qcompare q (inject_Z n) with Lt => true | _ => false end
  | Inf negative => negative
  | NaN => false
  end.

(** [x >= n] *)
Definition float_ge (x : pyfloat) (n : Z) : bool :=
  match x with
  | Finite q => match Qcompare q (inject_Z n) with Lt => false | _ => true end
  | Inf negative => negb negative
  | NaN => false
  end.

(** ** The focal-length normalizer *)

Definition dx : pystr := u "フルサイズ換算:".

(** The colour of the band the sort value falls in. *)
Definition band_color (ff_value : pyfloat) : pystr :=
  if float_lt ff_value 21 then u "fdd"
  else if float_lt ff_value 40 then u "fed"
  else if float_lt ff_value 65 then u "ffd"
  else u "dfd".

(** [data-sort-value="..."] *)
Definition sort_attribute (ff_value : pystr) : pystr :=
  u "data-sort-value=" ++ dquote ++ ff_value ++ dquote.

(** [! style = "background:#...;" ] followed by the rest of the preamble. *)
Definition cell_header (color preamble : pystr) : pystr :=
  u "! style = " ++ dquote ++ u "background:#" ++ color ++ u ";" ++ dquote ++ u " "
    ++ preamble.

(** [value] without its unit and without the "approximately" sign. *)
Definition strip_unit (value : pystr) : pystr :=
  replace (u "約") [] (replace (u "mm") [] value).

Definition format_focal (value : pystr) : result pystr :=
  let value := strip_unit value in
  let branch : result (pystr * pystr * pystr) :=
    if contains dx value then
      match index (split dx value) 1 with
      | Ok part =>
          let ff_value := drop_last part in
          Ok (ff_value, replace dx (u "full frame equivalent: ") value,
              sort_attribute ff_value)
      | Raise e => Raise e
      end
    else Ok (value, value, []) in
  match branch with
  | Raise e => Raise e
  | Ok (ff_value, value, preamble) =>
      match py_float ff_value with
      | None => Raise ValueError
      | Some ff_value =>
          Ok (cell_header (band_color ff_value) preamble ++ u "|" ++ value)
      end
  end.

(** ** Ordering the rows ([lenses.sort(key=...)] in [crawl_mount])

    A lens record is the [dict] built by [parse_lens_page]: field name to
    markup text. *)

Abbreviation lens := (gmap string pystr).

(** [x.get(k, default)] *)
Definition dict_get_default (x : lens) (k : string) (default : pystr) : pystr :=
  match x !! k with
  | Some v => v
  | None => default
  end.

(** The [key] function of the sort. *)
Definition focal_key (x : lens) : result pyfloat :=
  match index (re_findall numeric_re (dict_get_default x "focal_length" (u "0"))) 0 with
  | Raise e => Raise e
  | Ok token =>
      match py_float token with
      | Some f => Ok f
      | None => Raise ValueError
      end
  end.

(** [a < b] on floats. *)
Definition float_ltf (a b : pyfloat) : bool :=
  match a, b with
  | NaN, _ | _, NaN => false
  | Finite x, Finite y => match Qcompare x y with Lt => true | _ => false end
  | Finite _, Inf negative => negb negative
  | Inf negative, Finite _ => negative
  | Inf na, Inf nb => na && negb nb
  end.

(** The keys are computed first, for every element in turn; an exception
    in one of them leaves the sort undone. *)
Fixpoint decorate {A} (key : A -> result pyfloat) (l : list A) : result (list (pyfloat * A)) :=
  match l with
  | [] => Ok []
  | x :: l' =>
      match key x with
      | Raise e => Raise e
      | Ok k =>
          match decorate key l' with
          | Raise e => Raise e
          | Ok r => Ok ((k, x) :: r)
          end
      end
  end.

(** [list.sort] compares keys with [<] only and is stable.  On keys that
    [<] orders totally (the keys of this program are never NaN) there is one
    stable sorted arrangement, which insertion from the right builds: an
    element goes before the first one that is not smaller than it. *)
Fixpoint insert_stable {A} (x : pyfloat * A) (sorted : list (pyfloat * A)) : list (pyfloat * A) :=
  match sorted with
  | [] => [x]
  | y :: r => if float_ltf (fst y) (fst x) then y :: insert_stable x r else x :: y :: r
  end.

Definition stable_sort {A} (l : list (pyfloat * A)) : list (pyfloat * A) :=
  foldr insert_stable [] l.

Definition sort_by_key {A} (key : A -> result pyfloat) (l : list A) : result (list A) :=
  match decorate key l with
  | Raise e => Raise e
  | Ok d => Ok (map snd (stable_sort d))
  end.

Definition sort_lenses (lenses : list lens) : result (list lens) :=
  sort_by_key focal_key lenses.

(** ** The world outside: cache files, the network, the HTML parser *)

Definition BASE_URL : pystr := u "https://www.cosina.co.jp/voigtlander/".
Definition CACHE_DIR : pystr := u "cache".

(** [os.path.join(a, b)] on POSIX for a directory name without a final slash. *)
Definition path_join (a b : pystr) : pystr :=
  if startswith (u "/") b then b else a ++ u "/" ++ b.

(** Reading a file opened in text mode translates line ends. *)
Fixpoint read_text (s : pystr) : pystr :=
  match s with
  | [] => []
  | c :: r =>
      if c =? 13 then
        10 :: match r with
              | 10 :: r' => read_text r'
              | _ => read_text r
              end
      else c :: read_text r
  end.

Inductive http_outcome : Set :=
  | Unreachable                               (* [requests.get] raises *)
  | Response (status_code : N) (text : pystr).

(** [response.raise_for_status()] raises for 4xx and 5xx. *)
Definition status_is_error (status_code : N) : bool :=
  (400 <=? status_code) && (status_code <? 600).

(** The files of the cache directory and the requests sent so far. *)
Record world : Type := World { files : gmap pystr pystr; requests : list pystr }.

(** Computations that read and write the world and may raise. *)
Definition io (A : Type) : Type := world -> result A * world.

Definition ret {A} (a : A) : io A := fun w => (Ok a, w).
Definition throw {A} (e : exn) : io A := fun w => (Raise e, w).
Definition bind {A B} (m : io A) (f : A -> io B) : io B :=
  fun w => match m w with
           | (Ok a, w') => f a w'
           | (Raise e, w') => (Raise e, w')
           end.
Notation "x <- m ;; k" := (bind m (fun x => k))
  (at level 100, m at next level, right associativity).

(** An element matched by [li.voi-type__item a.voi-type__item-link]: its
    [href] attribute and the text of its [.voi-type__item-name] child, each
    possibly missing. *)
Record mount_item : Type := MountItem { href : option pystr; item_name : option pystr }.

(** A [dict] keeps its keys in the order of their first insertion. *)
Fixpoint dict_set (d : list (pystr * pystr)) (k v : pystr) : list (pystr * pystr) :=
  match d with
  | [] => [(k, v)]
  | (k', v') :: d' =>
      if decide (k' = k) then (k, v) :: d' else (k', v') :: dict_set d' k v
  end.

Fixpoint dict_lookup (d : list (pystr * pystr)) (k : pystr) : option pystr :=
  match d with
  | [] => None
  | (k', v) :: d' => if decide (k' = k) then Some v else dict_lookup d' k
  end.

Section Site.

(** [hashlib.md5(url.encode("utf-8")).hexdigest()] *)
Variable md5_hexdigest : pystr -> pystr.
(** What the server answers to a GET of a URL. *)
Variable http_get : pystr -> http_outcome.
(** The mount items of a page, in document order. *)
Variable select_mount_items : pystr -> list mount_item.
(** The [href] of every [a] element of a page that has one, in document
    order. *)
Variable anchor_hrefs : pystr -> list pystr.

Definition cache_path (url : pystr) : pystr :=
  path_join CACHE_DIR (md5_hexdigest url ++ u ".html").

(** The cache file is looked up first; a body fetched from the server is
    written to it as it is (POSIX line ends) when the status is no error. *)
Definition fetch_with_cache (url : pystr) : io pystr :=
  fun w =>
    match files w !! cache_path url with
    | Some body => (Ok (read_text body), w)
    | None =>
        let w := World (files w) (requests w ++ [url]) in
        match http_get url with
        | Unreachable => (Raise ConnectionError, w)
        | Response status_code content =>
            if status_is_error status_code then (Raise HTTPError, w)
            else (Ok content, World (<[cache_path url := content]> (files w)) (requests w))
        end
    end.

(** The loop body of [get_mount_pages]. *)
Definition add_mount (mounts : result (list (pystr * pystr))) (item : mount_item)
    : result (list (pystr * pystr)) :=
  match mounts with
  | Raise e => Raise e
  | Ok mounts =>
      match href item with
      | None => Raise KeyError
      | Some url =>
          match item_name item with
          | None => Raise AttributeError
          | Some mount_name =>
              if decide (mount_name = u "ACCESSORIES") then Ok mounts
              else Ok (dict_set mounts mount_name url)
          end
      end
  end.

Definition mounts_of_items (items : list mount_item) : result (list (pystr * pystr)) :=
  fold_left add_mount items (Ok []).

Definition get_mount_pages : io (list (pystr * pystr)) :=
  content <- fetch_with_cache BASE_URL ;;
  match mounts_of_items (select_mount_items content) with
  | Ok mounts => ret mounts
  | Raise e => throw e
  end.

(** [soup.select('a[href*="voigtlander"]')], as the list of the [href]s. *)
Definition select_lens_anchors (content : pystr) : list pystr :=
  filter (fun h => contains (u "voigtlander") h = true) (anchor_hrefs content).

(** The test of the loop body of [get_lens_links]. *)
Definition is_lens_link (mount_url link : pystr) : bool :=
  startswith mount_url link
  && negb (bool_decide (rstrip 47 link = rstrip 47 mount_url)).

Definition lens_links_of (mount_url : pystr) (anchors : list pystr) : gset pystr :=
  fold_left (fun lens_links link =>
               if is_lens_link mount_url link then lens_links ∪ {[ link ]}
               else lens_links)
            anchors ∅.

Definition get_lens_links (mount_url : pystr) : io (gset pystr) :=
  content <- fetch_with_cache mount_url ;;
  ret (lens_links_of mount_url (select_lens_anchors content)).

End Site.

(** ** Notions used in the statements *)

(** The maximal runs of characters satisfying [ok], left to right; [cur] is
    the run being read. *)
Fixpoint runs (ok : char -> bool) (cur s : pystr) : list pystr :=
  match s with
  | [] => match cur with [] => [] | _ => [cur] end
  | c :: s' =>
      if ok c then runs ok (cur ++ [c]) s'
      else match cur with
           | [] => runs ok [] s'
           | _ => cur :: runs ok [] s'
           end
  end.

(** The numeric substrings of a text: its maximal runs of decimal digits and
    full stops. *)
Definition numeric_substrings (s : pystr) : list pystr := runs (accepts numeric) [] s.

(** [rest] does not go on with a character satisfying [ok]. *)
Definition stops (ok : char -> bool) (rest : pystr) : Prop :=
  match rest with
  | [] => True
  | c :: _ => ok c = false
  end.

(** A space or nothing. *)
Definition opt_space (sp : pystr) : Prop := sp = [] \/ sp = u " ".

(** [a <= b] on floats. *)
Definition float_lef (a b : pyfloat) : bool :=
  match a, b with
  | NaN, _ | _, NaN => false
  | Finite x, Finite y => match Qcompare x y with Gt => false | _ => true end
  | Finite _, Inf negative => negb negative
  | Inf negative, Finite _ => negative
  | Inf na, Inf nb => na || negb nb
  end.

(** On decorated elements: the order of the keys, and a key that is a number. *)
Definition by_key {A} (x y : pyfloat * A) : Prop := float_lef (fst x) (fst y) = true.
Definition keyed {A} (x : pyfloat * A) : Prop := fst x <> NaN.

(** The letter n, in either case. *)
Definition is_n (c : char) : bool := (c =? 110) || (c =? 78).

(** The focal-length field, when present, has a first numeric substring
    that [float] reads. *)
Definition parsable_focal (x : lens) : Prop :=
  forall v, x !! "focal_length"%string = Some v ->
    exists token rest f, numeric_substrings v = token :: rest /\ py_float token = Some f.

(** The sort key of [a] is at most that of [b]. *)
Definition key_le (a b : lens) : Prop :=
  exists ka kb, focal_key a = Ok ka /\ focal_key b = Ok kb /\ float_lef ka kb = true.

(** Neither key is smaller than the other. *)
Definition float_same (a b : pyfloat) : bool :=
  negb (float_ltf a b) && negb (float_ltf b a).

(** The sort key of the record is [k], up to [==]. *)
Definition has_key (k : pyfloat) (x : lens) : bool :=
  match focal_key x with
  | Ok kx => float_same k kx
  | Raise _ => false
  end.

(** The text [format_focal] hands to [float]. *)
Definition focal_sort_text (value : pystr) : pystr :=
  let v := strip_unit value in
  if contains dx v then drop_last (nth 1 (split dx v) []) else v.

(** The text [format_focal] displays after the header. *)
Definition focal_display_text (value : pystr) : pystr :=
  let v := strip_unit value in
  if contains dx v then replace dx (u "full frame equivalent: ") v else v.

(** A text that begins with [<N>群<M>枚], [N] and [M] non-empty runs of
    decimal digits. *)
Definition lens_const_shape (s : pystr) : Prop :=
  exists n m rest,
    n <> [] /\ m <> [] /\ forallb is_decimal n = true /\ forallb is_decimal m = true
    /\ s = n ++ u "群" ++ m ++ u "枚" ++ rest.

(** A text in which [1], an optional space, a colon, an optional space and
    at least one digit or full stop occur in a row. *)
Definition f_number_shape (s : pystr) : Prop :=
  exists pre sp1 sp2 g post,
    opt_space sp1 /\ opt_space sp2 /\ g <> [] /\ forallb (accepts numeric) g = true
    /\ s = pre ++ u "1" ++ sp1 ++ u ":" ++ sp2 ++ g ++ post.

(** A homepage entry with both its link and its name: (url, display name). *)
Definition item_of (entry : pystr * pystr) : mount_item :=
  MountItem (Some (fst entry)) (Some (snd entry)).

(** The loop of [get_mount_pages] over entries that have a link and a name. *)
Definition record_mount (mounts : list (pystr * pystr)) (entry : pystr * pystr)
    : list (pystr * pystr) :=
  if decide (snd entry = u "ACCESSORIES") then mounts
  else dict_set mounts (snd entry) (fst entry).

(** ** A sample site and sample records, for checking statements on a run *)

(** A digest that returns its argument, a server that knows two pages, and
    a parser that finds fixed entries in them. *)
Definition sample_md5 (url : pystr) : pystr := url.

Definition sample_http (url : pystr) : http_outcome :=
  if decide (url = BASE_URL) then Response 200 (u "home")
  else if decide (url = u "https://www.cosina.co.jp/voigtlander/vm/") then Response 200 (u "vm")
  else Response 404 (u "not found").

Definition sample_entries : list (pystr * pystr) :=
  [(u "https://www.cosina.co.jp/voigtlander/vm/", u "VM-Mount");
   (u "https://www.cosina.co.jp/voigtlander/acc/", u "ACCESSORIES");
   (u "https://www.cosina.co.jp/voigtlander/vm-new/", u "VM-Mount")].

Definition sample_mount_items (content : pystr) : list mount_item :=
  map item_of sample_entries.

Definition sample_anchors (content : pystr) : list pystr :=
  [u "https://www.cosina.co.jp/voigtlander/vm/";
   u "https://www.cosina.co.jp/voigtlander/vm";
   u "https://www.cosina.co.jp/voigtlander/vm/nokton-50/";
   u "https://www.cosina.co.jp/voigtlander/vm/nokton-50/";
   u "https://www.cosina.co.jp/voigtlander/e/apo-lanthar-35/";
   u "https://example.org/"].

Definition empty_world : world := World ∅ [].

Definition sample_lens_50 : lens :=
  {[ "focal_length"%string := cell_header (u "ffd") [] ++ u "|50";
     "name"%string := u "Nokton 50mm F1.2 Aspherical" ]}.
Definition sample_lens_21 : lens :=
  {[ "focal_length"%string := cell_header (u "fed") [] ++ u "|21" ]}.
Definition sample_lens_unnamed : lens :=
  {[ "reference"%string := u "https://www.cosina.co.jp/voigtlander/vm/x/" ]}.

(** ** Lens pages, tables and the whole run

    The rest of [main.py].  What the functions take from outside the process
    is collected in one record: the digest, the server, and the queries the
    program makes on a parsed page.  [str.title] goes with them, its case
    tables being the interpreter's. *)

(** [s.strip()]: white space off both ends. *)
Fixpoint lstrip_by (sp : char -> bool) (s : pystr) : pystr :=
  match s with
  | c :: s' => if sp c then lstrip_by sp s' else s
  | [] => []
  end.

Fixpoint rstrip_by (sp : char -> bool) (s : pystr) : pystr :=
  match s with
  | [] => []
  | a :: s' =>
      match rstrip_by sp s' with
      | [] => if sp a then [] else [a]
      | r => a :: r
      end
  end.

Definition py_strip (s : pystr) : pystr := rstrip_by unicode_space (lstrip_by unicode_space s).

(** An element matched by
    [.lens-specification__detail__data .lens-specification__detail__data-unit]:
    the text of its [...unitDt] and of its [...unitDd] child, each possibly
    missing. *)
Record spec_unit : Type := SpecUnit { unit_dt : option pystr; unit_dd : option pystr }.

Record site : Type := Site {
  site_md5 : pystr -> pystr;                    (* hashlib.md5(...).hexdigest() *)
  site_http : pystr -> http_outcome;            (* requests.get *)
  site_mount_items : pystr -> list mount_item;  (* the mount items of a page *)
  site_anchor_hrefs : pystr -> list pystr;      (* the hrefs of its anchors *)
  site_spec_units : pystr -> list spec_unit;    (* its specification rows *)
  site_category : pystr -> option pystr;        (* text of .lens-mv__group__category *)
  site_model : pystr -> option pystr;           (* text of .lens-mv__group__model *)
  str_title : pystr -> pystr                    (* str.title *)
}.

Definition fetch (S : site) : pystr -> io pystr := fetch_with_cache (site_md5 S) (site_http S).

(** The accepted spellings of the filter-size label. *)
Definition filter_labels : list pystr :=
  [u "フィルター"; u "フィルター径"; u "フィルター"; u "フィルターサイズ"].

(** [specs[k] = r], where computing [r] may have raised. *)
Definition set_field (specs : lens) (k : string) (r : result pystr) : result lens :=
  match r with
  | Ok v => Ok (<[k := v]> specs)
  | Raise e => Raise e
  end.

(** The loop body of [parse_lens_page]. *)
Definition add_spec (specs : result lens) (item : spec_unit) : result lens :=
  match specs with
  | Raise e => Raise e
  | Ok specs =>
      match unit_dt item with
      | None => Raise AttributeError
      | Some dt =>
          let header := py_strip dt in
          match unit_dd item with
          | None => Raise AttributeError
          | Some dd =>
              let value := py_strip dd in
              if decide (header = u "焦点距離") then
                set_field specs "focal_length" (format_focal value)
              else if decide (header = u "口径比") then
                set_field specs "f_number" (format_f_number value)
              else if decide (header = u "最短撮影距離") then
                set_field specs "min_focus" (format_cvt value (u "m"))
              else if decide (header = u "レンズ構成") then
                set_field specs "lens_const" (format_lens_const value)
              else if decide (header = u "絞り羽根枚数") then
                match index (split (u "枚") value) 0 with
                | Ok blades => Ok (<["aperture_blades"%string := py_strip blades]> specs)
                | Raise e => Raise e
                end
              else if decide (header = u "最大径×全長") then
                set_field specs "dimensions" (format_cvt value (u "mm"))
              else if decide (header = u "重量") then
                set_field specs "weight" (format_cvt value (u "g"))
              else if bool_decide (header ∈ filter_labels) then
                let value := if contains (u "不可") value then u "N/A" else value in
                Ok (<["filter_size"%string := value]> specs)
              else Ok specs
          end
      end
  end.

Definition parse_lens_page (S : site) (lens_url : pystr) : io lens :=
  content <- fetch S lens_url ;;
  match fold_left add_spec (site_spec_units S content)
          (Ok {[ "reference"%string := lens_url ]}) with
  | Raise e => throw e
  | Ok specs =>
      match site_category S content with
      | None => throw AttributeError
      | Some category =>
          let lens_name := str_title S (py_strip category) in
          match site_model S content with
          | None => throw AttributeError
          | Some model =>
              let lens_suffix := join (u " ") (drop 2 (split (u " ") (py_strip model))) in
              ret (<["name"%string := join (u " ") [lens_name; lens_suffix]]> specs)
          end
      end
  end.

(** The first loop of [crawl_mount], over the links in the order the set
    yields them. *)
Fixpoint parse_all (S : site) (lens_links : list pystr) : io (list lens) :=
  match lens_links with
  | [] => ret []
  | lens_link :: rest =>
      lens_specs <- parse_lens_page S lens_link ;;
      lenses <- parse_all S rest ;;
      ret (lens_specs :: lenses)
  end.

Definition newline : pystr := [10].

(** The caption and the column headings of a table. *)
Definition table_head (mount_url mount_name : pystr) : pystr :=
  u "{| class=" ++ dquote ++ u "wikitable sortable" ++ dquote ++ u " style=" ++ dquote
    ++ u "font-size:100%;text-align:center;" ++ dquote ++ newline
    ++ u "|+ Cosina Voigtländer lenses for [[" ++ mount_name
    ++ u "]]<ref>{{Cite web |url=" ++ mount_url ++ u " |title=" ++ mount_name
    ++ u " Lenses |access-date=2024-03-12|website=Cosina Voigtländer}}</ref>" ++ newline
    ++ u "! [[Focal length]] (mm) !! [[F-number]] !! Min. focus !! Name !! Lens const. !! [[Diaphragm (optics)|Aperture blades]] !! Dimensions (Diam.×Length) !! Weight !! [[Photographic filter#Filter sizes and mountings|Filter size]] !! class="
    ++ dquote ++ u "unsortable" ++ dquote ++ u " | Ref." ++ newline.

(** One row; a missing field is an empty cell, a missing reference or name
    is written [None] in the citation. *)
Definition table_row (x : lens) : pystr :=
  u "|-" ++ newline
    ++ u "| " ++ dict_get_default x "focal_length" [] ++ newline
    ++ u "| " ++ dict_get_default x "f_number" [] ++ newline
    ++ u "| " ++ dict_get_default x "min_focus" [] ++ newline
    ++ u "| " ++ replace (u "Aspherical") (u "[[aspheric lens|Asph.]]")
                   (dict_get_default x "name" []) ++ newline
    ++ u "| " ++ dict_get_default x "lens_const" [] ++ newline
    ++ u "| " ++ dict_get_default x "aperture_blades" [] ++ newline
    ++ u "| " ++ dict_get_default x "dimensions" [] ++ newline
    ++ u "| " ++ dict_get_default x "weight" [] ++ newline
    ++ u "| " ++ dict_get_default x "filter_size" [] ++ newline
    ++ u "| <ref>{{cite web|url=" ++ dict_get_default x "reference" (u "None")
    ++ u "|title=" ++ dict_get_default x "name" (u "None")
    ++ u "|website=Cosina Voigtländer|access-date=2024-03-12}}</ref>" ++ newline.

Definition render_table (mount_url mount_name : pystr) (lenses : list lens) : pystr :=
  table_head mount_url mount_name ++ concat (map table_row lenses) ++ u "|}".

(** [crawl_mount]; the result is the text it prints.  [order] is the order
    in which the set of links is iterated. *)
Definition crawl_mount (S : site) (order : gset pystr -> list pystr)
    (mount_url mount_name : pystr) : io pystr :=
  lens_links <- get_lens_links (site_md5 S) (site_http S) (site_anchor_hrefs S) mount_url ;;
  lenses <- parse_all S (order lens_links) ;;
  match sort_lenses lenses with
  | Raise e => throw e
  | Ok lenses => ret (render_table mount_url mount_name lenses)
  end.

(** The loop of [main]: the tables printed so far, how the loop ended, and
    the world it left. *)
Fixpoint crawl_all (S : site) (order : gset pystr -> list pystr)
    (mounts : list (pystr * pystr)) (printed : list pystr) (w : world)
    : list pystr * result unit * world :=
  match mounts with
  | [] => (printed, Ok tt, w)
  | (mount_name, mount_url) :: rest =>
      match crawl_mount S order mount_url mount_name w with
      | (Ok table, w') => crawl_all S order rest (printed ++ [table]) w'
      | (Raise e, w') => (printed, Raise e, w')
      end
  end.

Definition main (S : site) (order : gset pystr -> list pystr) (w : world)
    : list pystr * result unit * world :=
  match get_mount_pages (site_md5 S) (site_http S) (site_mount_items S) w with
  | (Ok mounts, w') => crawl_all S order mounts [] w'
  | (Raise e, w') => ([], Raise e, w')
  end.

(** ** Notions used in the further statements *)

(** From [w] to [w']: every file is still there with the same text, and the
    requests sent before are the first of those sent now. *)
Definition grows (w w' : world) : Prop :=
  files w ⊆ files w' /\ requests w `prefix_of` requests w'.

(** A computation that only lets the world grow. *)
Definition monotone {A} (m : io A) : Prop := forall w, grows w (snd (m w)).

(** The elements of a list in the order of their first occurrence. *)
Fixpoint first_seen (l : list pystr) : list pystr :=
  match l with
  | [] => []
  | x :: l' => x :: List.filter (fun y => negb (bool_decide (y = x))) (first_seen l')
  end.

(** The names a listing contributes to the mount dictionary. *)
Definition listed_names (entries : list (pystr * pystr)) : list pystr :=
  List.filter (fun name => negb (bool_decide (name = u "ACCESSORIES"))) (map snd entries).

(** A mount item with both its link and its name. *)
Definition complete_item (item : mount_item) : bool :=
  match href item, item_name item with
  | Some _, Some _ => true
  | _, _ => false
  end.

(** The text is made of the character [c] only. *)
Definition only_char (c : char) (s : pystr) : bool := forallb (fun x => x =? c) s.

(** No character of the text is a digit, a full stop or a multiplication
    sign. *)
Definition plain_unit (unit : pystr) : bool :=
  forallb (fun c => negb (accepts numeric c) && negb (c =? 0xD7)) unit.

(** The markup [format_cvt] builds from the numeric tokens [nums]. *)
Definition cvt_template (nums : list pystr) (unit : pystr) : pystr :=
  u "{{cvt|" ++ join (u "|×|") nums ++ u "|" ++ unit_target unit ++ u "}}".

(** No character of the text satisfies [ok]. *)
Definition none_of (ok : char -> bool) (s : pystr) : bool := forallb (fun c => negb (ok c)) s.

(** What [parse_lens_page] leaves in a field of the record of [lens_url]. *)
Definition normal_field (lens_url : pystr) (k : string) (v : pystr) : Prop :=
  (k = "reference"%string /\ v = lens_url)
  \/ k = "name"%string
  \/ (k = "focal_length"%string /\ exists value, format_focal value = Ok v)
  \/ (k = "f_number"%string /\ format_f_number v = Ok v)
  \/ (k = "min_focus"%string /\ format_cvt v (u "m") = Ok v)
  \/ (k = "lens_const"%string /\ format_lens_const v = Ok v)
  \/ (k = "aperture_blades"%string /\ contains (u "枚") v = false)
  \/ (k = "dimensions"%string /\ format_cvt v (u "mm") = Ok v)
  \/ (k = "weight"%string /\ format_cvt v (u "g") = Ok v)
  \/ (k = "filter_size"%string /\ (v = u "N/A" \/ contains (u "不可") v = false)).

(** The labels [parse_lens_page] acts on. *)
Definition known_labels : list pystr :=
  [u "焦点距離"; u "口径比"; u "最短撮影距離"; u "レンズ構成"; u "絞り羽根枚数";
   u "最大径×全長"; u "重量"] ++ filter_labels.

(** A specification row with both texts and a label the program does not
    act on. *)
Definition ignored_unit (item : spec_unit) : bool :=
  match unit_dt item, unit_dd item with
  | Some dt, Some _ => negb (bool_decide (py_strip dt ∈ known_labels))
  | _, _ => false
  end.

(** No two records of the list have sort keys that compare equal. *)
Fixpoint distinct_keys (l : list lens) : bool :=
  match l with
  | [] => true
  | x :: r =>
      forallb (fun y => match focal_key x, focal_key y with
                        | Ok a, Ok b => negb (float_same a b)
                        | _, _ => true
                        end) r
      && distinct_keys r
  end.

(** The body of an answer reads back from a file as it was written: it has
    no carriage return. *)
Definition reads_back (answer : http_outcome) : bool :=
  match answer with
  | Response _ text => bool_decide (read_text text = text)
  | Unreachable => true
  end.

(** Every page requested so far reads back as it was sent. *)
Definition clean_log (S : site) (w : world) : bool :=
  forallb (fun url => reads_back (site_http S url)) (requests w).

(** A computation that, once it has succeeded, gives the same result again
    in any world that has kept the cache files, and leaves that world as it
    is. *)
Definition replays (S : site) {A} (m : io A) : Prop :=
  forall w a w1, m w = (Ok a, w1) -> clean_log S w1 = true ->
    forall w2, files w1 ⊆ files w2 -> m w2 = (Ok a, w2).

(** A result that is no exception. *)
Definition is_ok {A} (r : result A) : bool :=
  match r with
  | Ok _ => true
  | Raise _ => false
  end.

(** From [w] to [w'] the requests [new] were sent: each once, each for a
    URL that had no cache file in [w]; when [ok] holds, each of them has a
    cache file in [w']. *)
Definition sent (S : site) (w : world) (new : list pystr) (ok : bool) (w' : world) : Prop :=
  requests w' = requests w ++ new
  /\ NoDup new
  /\ (forall url, url ∈ new -> files w !! cache_path (site_md5 S) url = None)
  /\ (ok = true -> forall url, url ∈ new -> is_Some (files w' !! cache_path (site_md5 S) url)).

(** A computation that asks the server only for what the cache lacks, and
    for nothing twice. *)
Definition frugal (S : site) {A} (m : io A) : Prop :=
  forall w, exists new, sent S w new (is_ok (fst (m w))) (snd (m w)).

(** ** A sample site on which a whole run succeeds

    Every page answers with its own URL as its body, so that the parser
    functions below can tell the pages apart. *)
Definition shop_http (url : pystr) : http_outcome := Response 200 url.

Definition shop_mount_items (content : pystr) : list mount_item :=
  if decide (content = BASE_URL) then
    map item_of [(u "https://www.cosina.co.jp/voigtlander/vm/", u "VM-Mount");
                 (u "https://www.cosina.co.jp/voigtlander/acc/", u "ACCESSORIES");
                 (u "https://www.cosina.co.jp/voigtlander/e/", u "E-Mount")]
  else [].

Definition shop_anchors (content : pystr) : list pystr :=
  if decide (content = u "https://www.cosina.co.jp/voigtlander/vm/") then
    [u "https://www.cosina.co.jp/voigtlander/vm/";
     u "https://www.cosina.co.jp/voigtlander/vm/nokton-50/";
     u "https://www.cosina.co.jp/voigtlander/vm/color-skopar-21/";
     u "https://www.cosina.co.jp/voigtlander/e/apo-lanthar-35/"]
  else if decide (content = u "https://www.cosina.co.jp/voigtlander/e/") then
    [u "https://www.cosina.co.jp/voigtlander/e/apo-lanthar-35/";
     u "https://www.cosina.co.jp/voigtlander/e"]
  else [].

Definition shop_spec_units (content : pystr) : list spec_unit :=
  if decide (content = u "https://www.cosina.co.jp/voigtlander/vm/nokton-50/") then
    [SpecUnit (Some (u " 焦点距離 ")) (Some (u "50mm"));
     SpecUnit (Some (u "口径比")) (Some (u "1:1.2"));
     SpecUnit (Some (u "最短撮影距離")) (Some (u "0.7m"));
     SpecUnit (Some (u "レンズ構成")) (Some (u "6群8枚"));
     SpecUnit (Some (u "絞り羽根枚数")) (Some (u "12枚"));
     SpecUnit (Some (u "最大径×全長")) (Some (u "φ63.3×49.0mm"));
     SpecUnit (Some (u "重量")) (Some (u "347g"));
     SpecUnit (Some (u "フィルターサイズ")) (Some (u "φ52mm"));
     SpecUnit (Some (u "マウント")) (Some (u "VM"))]
  else if decide (content = u "https://www.cosina.co.jp/voigtlander/vm/color-skopar-21/") then
    [SpecUnit (Some (u "焦点距離")) (Some (u "21mm"));
     SpecUnit (Some (u "口径比")) (Some (u "1 : 3.5"));
     SpecUnit (Some (u "フィルター")) (Some (u "装着不可"))]
  else if decide (content = u "https://www.cosina.co.jp/voigtlander/vm/zoom/") then
    [SpecUnit (Some (u "焦点距離")) (Some (u "12-24mm"))]
  else
    [SpecUnit (Some (u "焦点距離")) (Some (u "35mm"));
     SpecUnit (Some (u "口径比")) (Some (u "1:2"))].

Definition shop_category (content : pystr) : option pystr := Some (u " Nokton ").
Definition shop_model (content : pystr) : option pystr := Some (u "NOKTON Vintage 50mm F1.2").

(** A stand-in for [str.title] on texts that are in title case already. *)
Definition shop_title (s : pystr) : pystr := s.

Definition sample_shop : site :=
  Site sample_md5 shop_http shop_mount_items shop_anchors shop_spec_units
       shop_category shop_model shop_title.

(** ** The link test in the words of the spec

    The spec speaks of paths: a link is kept when its path is a descendant
    of the path of the mount URL and differs from it once trailing slashes
    are dropped.  A URL is read as a scheme and host, a path, and a query or
    fragment. *)

(** The text before the first character satisfying [stop], and the text
    from that character on. *)
Fixpoint span_until (stop : char -> bool) (s : pystr) : pystr * pystr :=
  match s with
  | [] => ([], [])
  | c :: r =>
      if stop c then ([], s)
      else let (a, b) := span_until stop r in (c :: a, b)
  end.

(** Scheme and host of a URL, and what follows them. *)
Definition url_origin_rest (url : pystr) : pystr * pystr :=
  match partition (u "://") url with
  | Some (scheme, rest) =>
      let (host, tail) := span_until (fun c => (c =? 47) || (c =? 63) || (c =? 35)) rest in
      (scheme ++ u "://" ++ host, tail)
  | None => ([], url)
  end.

Definition spec_origin (url : pystr) : pystr := fst (url_origin_rest url).

(** The path of a URL: what follows the host, up to [?] or [#]. *)
Definition spec_path (url : pystr) : pystr :=
  fst (span_until (fun c => (c =? 63) || (c =? 35)) (snd (url_origin_rest url))).

(** The trailing-slash-normalized path. *)
Definition spec_normalized_path (url : pystr) : pystr := rstrip 47 (spec_path url).

(** The segments of a path. *)
Definition path_segments (path : pystr) : list pystr :=
  List.filter (fun segment => negb (bool_decide (segment = []))) (split (u "/") path).

Fixpoint segments_prefix (a b : list pystr) : bool :=
  match a, b with
  | [], _ => true
  | _ :: _, [] => false
  | x :: a', y :: b' => bool_decide (x = y) && segments_prefix a' b'
  end.

(** [link] is a path-prefix descendant of [mount_url]: on the same host, and
    the segments of the mount path are the first segments of its path. *)
Definition spec_path_descendant (mount_url link : pystr) : bool :=
  bool_decide (spec_origin link = spec_origin mount_url)
  && segments_prefix (path_segments (spec_path mount_url)) (path_segments (spec_path link)).

(** The condition under which the claim keeps a link. *)
Definition spec_keeps_link (mount_url link : pystr) : bool :=
  spec_path_descendant mount_url link
  && negb (bool_decide (spec_normalized_path link = spec_normalized_path mount_url)).

(** * Python string operations *)

Lemma startswith_app p s : startswith p (p ++ s) = true.
Proof.
  induction p as [|a p IH]; simpl; [reflexivity|].
  rewrite N.eqb_refl. exact IH.
Qed.

Lemma startswith_inv p s : startswith p s = true -> exists r, s = p ++ r.
Proof.
  revert s. induction p as [|a p IH]; intros s H.
  - exists s. reflexivity.
  - destruct s as [|b s]; simpl in H; [discriminate|].
    apply andb_true_iff in H as [Hab Hp].
    apply N.eqb_eq in Hab. subst b.
    destruct (IH _ Hp) as [r ->]. exists r. reflexivity.
Qed.

Lemma startswith_short p a b :
  startswith p (a ++ b) = true -> (length p <= length a)%nat -> startswith p a = true.
Proof.
  revert a. induction p as [|x p IH]; intros a H Hlen; [reflexivity|].
  destruct a as [|y a]; simpl in Hlen; [lia|].
  simpl in *. apply andb_true_iff in H as [Hxy Hp].
  rewrite Hxy. simpl. apply IH; [exact Hp | lia].
Qed.

Lemma startswith_nil_r p : p <> [] -> startswith p [] = false.
Proof. destruct p; [congruence | reflexivity]. Qed.

Lemma partition_sound sep s a b :
  partition sep s = Some (a, b) -> s = a ++ sep ++ b.
Proof.
  revert a b. induction s as [|c s IH]; intros a b H.
  - simpl in H. destruct (startswith sep []) eqn:E; [|discriminate].
    destruct sep; [|discriminate]. simpl in H. injection H as <- <-. reflexivity.
  - simpl in H. destruct (startswith sep (c :: s)) eqn:E.
    + injection H as <- <-. apply startswith_inv in E as [r E].
      rewrite E at 2. rewrite drop_app_length. exact E.
    + destruct (partition sep s) as [[a' b']|]; [|discriminate].
      injection H as <- <-. simpl. f_equal. apply IH. reflexivity.
Qed.

Lemma partition_shorter sep s a b :
  sep <> [] -> partition sep s = Some (a, b) -> (length b < length s)%nat.
Proof.
  intros Hs H. apply partition_sound in H. subst s.
  rewrite !length_app. destruct sep; [congruence|]. simpl. lia.
Qed.

Lemma contains_cons sep c s :
  contains sep (c :: s) = startswith sep (c :: s) || contains sep s.
Proof.
  unfold contains. simpl. destruct (startswith sep (c :: s)); [reflexivity|].
  simpl. destruct (partition sep s) as [[? ?]|]; reflexivity.
Qed.

Lemma contains_false_partition sep s : contains sep s = false -> partition sep s = None.
Proof. unfold contains. destruct (partition sep s); [discriminate | reflexivity]. Qed.

Lemma contains_true_partition sep s :
  contains sep s = true -> exists a b, partition sep s = Some (a, b).
Proof.
  unfold contains. destruct (partition sep s) as [[a b]|]; [|discriminate].
  intros _. exists a, b. reflexivity.
Qed.

Lemma drop_last_snoc (s : pystr) c : drop_last (s ++ [c]) = s.
Proof. unfold drop_last. apply removelast_last. Qed.

Lemma nonempty_snoc (s : pystr) : s <> [] -> exists d l, s = d ++ [l].
Proof.
  intros H. exists (removelast s), (List.last s 0).
  apply app_removelast_last. exact H.
Qed.

(** The first occurrence: nothing of [sep] starts inside [pre]. *)
Lemma partition_first sep pre post :
  contains sep (pre ++ drop_last sep) = false ->
  partition sep (pre ++ sep ++ post) = Some (pre, post).
Proof.
  induction pre as [|c pre IH]; intros H.
  - simpl app. destruct (sep ++ post) as [|x t] eqn:E.
    + destruct sep; [|discriminate]. simpl in E. subst post. reflexivity.
    + simpl. rewrite <- E. rewrite startswith_app, drop_app_length. reflexivity.
  - simpl app in *. rewrite contains_cons in H.
    apply orb_false_iff in H as [Hs Hc].
    simpl. destruct (startswith sep (c :: pre ++ sep ++ post)) eqn:E.
    + exfalso. destruct (nonempty_snoc sep) as [d [l Hsplit]].
      { intros ->. discriminate. }
      rewrite Hsplit in E at 2. rewrite Hsplit in Hs at 2.
      rewrite drop_last_snoc in Hs.
      rewrite <- app_assoc in E.
      change (c :: pre ++ d ++ [l] ++ post) with ((c :: pre) ++ d ++ [l] ++ post) in E.
      rewrite app_assoc in E.
      apply startswith_short in E.
      * simpl in E. congruence.
      * rewrite Hsplit at 1. rewrite !length_app. simpl. lia.
    + rewrite (IH Hc). reflexivity.
Qed.

Lemma replace_fuel_irrelevant old new n : forall m s,
  old <> [] -> (length s <= n)%nat -> (length s <= m)%nat ->
  replace_fuel n old new s = replace_fuel m old new s.
Proof.
  induction n as [|n IH]; intros m s Hold Hn Hm.
  - destruct s; [|simpl in Hn; lia].
    destruct m; simpl; [reflexivity|].
    rewrite startswith_nil_r by exact Hold. reflexivity.
  - destruct m as [|m].
    + destruct s; [|simpl in Hm; lia]. simpl.
      rewrite startswith_nil_r by exact Hold. reflexivity.
    + simpl. destruct (partition old s) as [[a b]|] eqn:E; [|reflexivity].
      pose proof (partition_shorter _ _ _ _ Hold E).
      do 2 f_equal. apply IH; [exact Hold | lia | lia].
Qed.

Lemma replace_eq old new s :
  old <> [] ->
  replace old new s =
  match partition old s with
  | None => s
  | Some (a, b) => a ++ new ++ replace old new b
  end.
Proof.
  intros Hold. unfold replace. destruct s as [|c s].
  - simpl. rewrite startswith_nil_r by exact Hold. reflexivity.
  - change (length (c :: s)) with (S (length s)).
    cbn [replace_fuel]. destruct (partition old (c :: s)) as [[a b]|] eqn:E; [|reflexivity].
    pose proof (partition_shorter _ _ _ _ Hold E) as Hlt. simpl in Hlt.
    do 2 f_equal. apply replace_fuel_irrelevant; [exact Hold | lia | lia].
Qed.

Lemma replace_absent old new s : old <> [] -> contains old s = false -> replace old new s = s.
Proof.
  intros Hold H. rewrite replace_eq by exact Hold.
  rewrite (contains_false_partition _ _ H). reflexivity.
Qed.

Lemma split_fuel_irrelevant sep n : forall m s,
  sep <> [] -> (length s <= n)%nat -> (length s <= m)%nat ->
  split_fuel n sep s = split_fuel m sep s.
Proof.
  induction n as [|n IH]; intros m s Hsep Hn Hm.
  - destruct s; [|simpl in Hn; lia].
    destruct m; simpl; [reflexivity|].
    rewrite startswith_nil_r by exact Hsep. reflexivity.
  - destruct m as [|m].
    + destruct s; [|simpl in Hm; lia]. simpl.
      rewrite startswith_nil_r by exact Hsep. reflexivity.
    + simpl. destruct (partition sep s) as [[a b]|] eqn:E; [|reflexivity].
      pose proof (partition_shorter _ _ _ _ Hsep E).
      f_equal. apply IH; [exact Hsep | lia | lia].
Qed.

Lemma split_eq sep s :
  sep <> [] ->
  split sep s =
  match partition sep s with
  | None => [s]
  | Some (a, b) => a :: split sep b
  end.
Proof.
  intros Hsep. unfold split. destruct s as [|c s].
  - simpl. rewrite startswith_nil_r by exact Hsep. reflexivity.
  - change (length (c :: s)) with (S (length s)).
    cbn [split_fuel]. destruct (partition sep (c :: s)) as [[a b]|] eqn:E; [|reflexivity].
    pose proof (partition_shorter _ _ _ _ Hsep E) as Hlt. simpl in Hlt.
    f_equal. apply split_fuel_irrelevant; [exact Hsep | lia | lia].
Qed.

(** * Regular expressions *)

Lemma greedy_plus_inv {R} ok (k : pystr -> pystr -> option R) s : forall taken r,
  greedy_plus ok k taken s = Some r ->
  exists run rest, run <> [] /\ forallb ok run = true /\ s = run ++ rest
                   /\ k (taken ++ run) rest = Some r.
Proof.
  induction s as [|c s IH]; intros taken r H; simpl in H; [discriminate|].
  destruct (ok c) eqn:Hc; [|discriminate].
  destruct (greedy_plus ok k (taken ++ [c]) s) as [r'|] eqn:E.
  - injection H as ->. destruct (IH _ _ E) as (run & rest & Hne & Hall & -> & Hk).
    exists (c :: run), rest. repeat split.
    + discriminate.
    + simpl. rewrite Hc. exact Hall.
    + rewrite <- app_assoc in Hk. exact Hk.
  - exists [c], s. repeat split; [discriminate | simpl; rewrite Hc; reflexivity | exact H].
Qed.

Lemma greedy_plus_longest {R} ok (k : pystr -> pystr -> option R) run : forall taken rest r,
  run <> [] -> forallb ok run = true -> stops ok rest ->
  k (taken ++ run) rest = Some r ->
  greedy_plus ok k taken (run ++ rest) = Some r.
Proof.
  induction run as [|c run IH]; intros taken rest r Hne Hall Hstop Hk; [congruence|].
  simpl in Hall. apply andb_true_iff in Hall as [Hc Hall].
  simpl. rewrite Hc. destruct run as [|c' run].
  - simpl. assert (greedy_plus ok k (taken ++ [c]) rest = None) as ->.
    { destruct rest as [|d rest]; [reflexivity|]. simpl in *. rewrite Hstop. reflexivity. }
    exact Hk.
  - rewrite (IH (taken ++ [c]) rest r); [reflexivity | discriminate | exact Hall | exact Hstop |].
    rewrite <- app_assoc. exact Hk.
Qed.

Lemma greedy_plus_none {R} ok (k : pystr -> pystr -> option R) taken s :
  stops ok s -> greedy_plus ok k taken s = None.
Proof. destruct s as [|c s]; [reflexivity|]. simpl. intros ->. reflexivity. Qed.

(** Every text splits into its longest prefix of [ok] characters and a rest. *)
Lemma longest_run ok (s : pystr) :
  exists run rest, s = run ++ rest /\ forallb ok run = true /\ stops ok rest.
Proof.
  induction s as [|c s (run & rest & -> & Hall & Hstop)].
  - exists [], []. repeat split.
  - destruct (ok c) eqn:Hc.
    + exists (c :: run), rest. repeat split; [simpl; rewrite Hc; exact Hall | exact Hstop].
    + exists [], (c :: run ++ rest). repeat split. exact Hc.
Qed.

Lemma re_search_inv p s gs :
  re_search p s = Some gs ->
  exists pre suf r, s = pre ++ suf /\ match_here p suf = Some (gs, r).
Proof.
  induction s as [|c s IH]; simpl; intros H.
  - destruct (match_here p []) as [[g r]|] eqn:E; [|discriminate].
    injection H as ->. exists [], [], r. split; [reflexivity | exact E].
  - destruct (match_here p (c :: s)) as [[g r]|] eqn:E.
    + injection H as ->. exists [], (c :: s), r. split; [reflexivity | exact E].
    + destruct (IH H) as (pre & suf & r & -> & Hm).
      exists (c :: pre), suf, r. split; [reflexivity | exact Hm].
Qed.

(** Inversion of a match, piece by piece. *)

Lemma continuation_inv (cap : bool) p' taken rest (x : list pystr * pystr) :
  match match_here p' rest with
  | Some (gs, r) => Some (with_group cap taken gs, r)
  | None => None
  end = Some x ->
  exists gs', match_here p' rest = Some (gs', snd x) /\ fst x = with_group cap taken gs'.
Proof.
  destruct (match_here p' rest) as [[gs' r']|]; [|discriminate].
  intros H. injection H as <-. exists gs'. split; reflexivity.
Qed.

Lemma match_once_inv a cap p' s gs r :
  match_here (Piece a Once cap :: p') s = Some (gs, r) ->
  exists c s' gs', s = c :: s' /\ accepts a c = true
                   /\ match_here p' s' = Some (gs', r) /\ gs = with_group cap [c] gs'.
Proof.
  cbn [match_here]. destruct s as [|c s]; [discriminate|].
  destruct (accepts a c) eqn:Hc; [|discriminate].
  intros H. apply continuation_inv in H as (gs' & H1 & H2).
  exists c, s, gs'. repeat split; assumption.
Qed.

Lemma match_opt_inv a cap p' s gs r :
  match_here (Piece a Opt cap :: p') s = Some (gs, r) ->
  exists taken rest gs', s = taken ++ rest
                   /\ (taken = [] \/ exists c, taken = [c] /\ accepts a c = true)
                   /\ match_here p' rest = Some (gs', r) /\ gs = with_group cap taken gs'.
Proof.
  cbn [match_here]. intros H.
  assert (Hskip : forall x,
    match match_here p' s with
    | Some (gs, r) => Some (with_group cap [] gs, r)
    | None => None
    end = Some x ->
    exists taken rest gs', s = taken ++ rest
                   /\ (taken = [] \/ exists c, taken = [c] /\ accepts a c = true)
                   /\ match_here p' rest = Some (gs', snd x) /\ fst x = with_group cap taken gs').
  { intros x Hx. apply continuation_inv in Hx as (gs' & H1 & H2).
    exists [], s, gs'. repeat split; try assumption. left. reflexivity. }
  destruct s as [|c s]; [exact (Hskip _ H)|].
  destruct (accepts a c) eqn:Hc; [|exact (Hskip _ H)].
  match type of H with
  | match ?m with _ => _ end = _ => destruct m as [x|] eqn:E; [|exact (Hskip _ H)]
  end.
  injection H as Hx. subst x. apply continuation_inv in E as (gs' & H1 & H2).
  exists [c], s, gs'. repeat split; try assumption. right. exists c. split; [reflexivity | exact Hc].
Qed.

Lemma match_plus_inv a cap p' s gs r :
  match_here (Piece a Plus cap :: p') s = Some (gs, r) ->
  exists run rest gs', run <> [] /\ forallb (accepts a) run = true /\ s = run ++ rest
                   /\ match_here p' rest = Some (gs', r) /\ gs = with_group cap run gs'.
Proof.
  cbn [match_here]. intros H.
  apply greedy_plus_inv in H as (run & rest & Hne & Hall & -> & H).
  apply continuation_inv in H as (gs' & H1 & H2).
  exists run, rest, gs'. repeat split; assumption.
Qed.

Lemma match_nil_inv s gs r : match_here [] s = Some (gs, r) -> gs = [] /\ r = s.
Proof. simpl. intros H. injection H as <- <-. split; reflexivity. Qed.

Lemma accepts_lit c x : accepts (Lit x) c = true -> c = x.
Proof. simpl. apply N.eqb_eq. Qed.

(** ** [(\d+)群(\d+)枚] *)

Lemma lens_const_match_inv s gs r :
  match_here lens_const_re s = Some (gs, r) ->
  exists n m, gs = [n; m] /\ n <> [] /\ m <> []
              /\ forallb is_decimal n = true /\ forallb is_decimal m = true
              /\ s = n ++ u "群" ++ m ++ u "枚" ++ r.
Proof.
  unfold lens_const_re. intros H.
  apply match_plus_inv in H as (n & s1 & g1 & Hn & Hdn & -> & H & ->).
  apply match_once_inv in H as (c1 & s2 & g2 & -> & Hc1 & H & ->).
  apply match_plus_inv in H as (m & s3 & g3 & Hm & Hdm & -> & H & ->).
  apply match_once_inv in H as (c2 & s4 & g4 & -> & Hc2 & H & ->).
  apply match_nil_inv in H as [-> ->].
  apply accepts_lit in Hc1, Hc2. subst c1 c2.
  exists n, m. repeat split; assumption.
Qed.

Lemma lens_const_match n m rest :
  n <> [] -> m <> [] -> forallb is_decimal n = true -> forallb is_decimal m = true ->
  match_here lens_const_re (n ++ u "群" ++ m ++ u "枚" ++ rest) = Some ([n; m], rest).
Proof.
  intros Hn Hm Hdn Hdm. unfold lens_const_re. cbn [match_here].
  apply greedy_plus_longest; [exact Hn | exact Hdn | reflexivity |].
  change (u "群" ++ m ++ u "枚" ++ rest) with (32676 :: m ++ 26522 :: rest).
  cbn [accepts]. rewrite N.eqb_refl.
  rewrite (greedy_plus_longest _ _ m [] (26522 :: rest) ([m], rest));
    [reflexivity | exact Hm | exact Hdm | reflexivity |].
  cbn. reflexivity.
Qed.

(** ** [1 ?: ?([\d\.]+)] *)

Lemma f_number_match_inv s gs r :
  match_here f_number_re s = Some (gs, r) ->
  exists sp1 sp2 g, gs = [g] /\ opt_space sp1 /\ opt_space sp2 /\ g <> []
                    /\ forallb (accepts numeric) g = true
                    /\ s = u "1" ++ sp1 ++ u ":" ++ sp2 ++ g ++ r.
Proof.
  unfold f_number_re. intros H.
  apply match_once_inv in H as (c1 & s1 & g1 & -> & Hc1 & H & ->).
  apply match_opt_inv in H as (sp1 & s2 & g2 & -> & Hsp1 & H & ->).
  apply match_once_inv in H as (c2 & s3 & g3 & -> & Hc2 & H & ->).
  apply match_opt_inv in H as (sp2 & s4 & g4 & -> & Hsp2 & H & ->).
  apply match_plus_inv in H as (g & s5 & g5 & Hg & Hdg & -> & H & ->).
  apply match_nil_inv in H as [-> ->].
  apply accepts_lit in Hc1, Hc2. subst c1 c2.
  exists sp1, sp2, g. repeat split; try assumption.
  - destruct Hsp1 as [->|(c & -> & Hc)]; [left; reflexivity|].
    apply accepts_lit in Hc. subst c. right. reflexivity.
  - destruct Hsp2 as [->|(c & -> & Hc)]; [left; reflexivity|].
    apply accepts_lit in Hc. subst c. right. reflexivity.
Qed.

(** Building a match, piece by piece. *)

Lemma match_once_intro a cap p' c s' gs' r :
  accepts a c = true -> match_here p' s' = Some (gs', r) ->
  match_here (Piece a Once cap :: p') (c :: s') = Some (with_group cap [c] gs', r).
Proof. intros Hc H. cbn [match_here]. rewrite Hc, H. reflexivity. Qed.

Lemma match_opt_take a cap p' c s' gs' r :
  accepts a c = true -> match_here p' s' = Some (gs', r) ->
  match_here (Piece a Opt cap :: p') (c :: s') = Some (with_group cap [c] gs', r).
Proof. intros Hc H. cbn [match_here]. rewrite Hc, H. reflexivity. Qed.

Lemma match_opt_skip a cap p' s gs' r :
  stops (accepts a) s -> match_here p' s = Some (gs', r) ->
  match_here (Piece a Opt cap :: p') s = Some (with_group cap [] gs', r).
Proof.
  intros Hs H. cbn [match_here]. destruct s as [|c s]; [rewrite H; reflexivity|].
  simpl in Hs. rewrite Hs, H. reflexivity.
Qed.

Lemma match_plus_intro a cap p' run rest gs' r :
  run <> [] -> forallb (accepts a) run = true -> stops (accepts a) rest ->
  match_here p' rest = Some (gs', r) ->
  match_here (Piece a Plus cap :: p') (run ++ rest) = Some (with_group cap run gs', r).
Proof.
  intros Hne Hall Hs H. cbn [match_here].
  apply greedy_plus_longest; [exact Hne | exact Hall | exact Hs |].
  rewrite H. reflexivity.
Qed.

Lemma re_search_found p pre suf gs r :
  match_here p suf = Some (gs, r) -> exists gs', re_search p (pre ++ suf) = Some gs'.
Proof.
  intros H. induction pre as [|c pre [gs' IH]].
  - exists gs. destruct suf; simpl in *; rewrite H; reflexivity.
  - simpl. destruct (match_here p (c :: pre ++ suf)) as [[g r']|]; eauto.
Qed.

Lemma f_number_match sp1 sp2 g post :
  opt_space sp1 -> opt_space sp2 -> g <> [] -> forallb (accepts numeric) g = true ->
  exists g' r, match_here f_number_re (u "1" ++ sp1 ++ u ":" ++ sp2 ++ g ++ post)
               = Some ([g'], r).
Proof.
  intros H1 H2 Hg Hall.
  destruct (longest_run (accepts numeric) (g ++ post)) as (run & rest & E & Hrun & Hstop).
  assert (Hne : run <> []).
  { intros ->. destruct g as [|c g]; [congruence|]. simpl in E. subst rest.
    simpl in Hall, Hstop. rewrite Hstop in Hall. discriminate. }
  assert (Hsp : stops (accepts (Lit 32)) (run ++ rest)).
  { destruct run as [|c run]; [congruence|]. simpl in *.
    destruct (N.eqb_spec c 32) as [->|]; [discriminate | reflexivity]. }
  exists run, rest. rewrite E. unfold f_number_re.
  pose proof (match_plus_intro numeric true [] run rest [] rest Hne Hrun Hstop eq_refl) as M.
  assert (M2 : match_here [Piece (Lit 32) Opt false; Piece numeric Plus true]
                 (sp2 ++ run ++ rest) = Some ([run], rest)).
  { destruct H2 as [->| ->].
    - apply (match_opt_skip (Lit 32) false); [exact Hsp | exact M].
    - apply (match_opt_take (Lit 32) false); [reflexivity | exact M]. }
  pose proof (match_once_intro (Lit 58) false _ 58 _ _ _ (N.eqb_refl 58) M2) as M3.
  assert (M4 : match_here [Piece (Lit 32) Opt false; Piece (Lit 58) Once false;
                           Piece (Lit 32) Opt false; Piece numeric Plus true]
                 (sp1 ++ u ":" ++ sp2 ++ run ++ rest) = Some ([run], rest)).
  { destruct H1 as [->| ->].
    - apply (match_opt_skip (Lit 32) false); [reflexivity | exact M3].
    - apply (match_opt_take (Lit 32) false); [reflexivity | exact M3]. }
  apply (match_once_intro (Lit 49) false); [reflexivity | exact M4].
Qed.

(** ** [[\d\.]+] *)

Lemma numeric_match_run run rest :
  run <> [] -> forallb (accepts numeric) run = true -> stops (accepts numeric) rest ->
  match_here numeric_re (run ++ rest) = Some ([], rest).
Proof.
  intros Hne Hall Hstop. unfold numeric_re. cbn [match_here].
  apply greedy_plus_longest; [exact Hne | exact Hall | exact Hstop | reflexivity].
Qed.

Lemma numeric_match_none s :
  stops (accepts numeric) s -> match_here numeric_re s = None.
Proof. intros H. unfold numeric_re. cbn [match_here]. apply greedy_plus_none. exact H. Qed.

Lemma runs_app ok run : forall cur rest,
  forallb ok run = true -> runs ok cur (run ++ rest) = runs ok (cur ++ run) rest.
Proof.
  induction run as [|c run IH]; intros cur rest H; simpl.
  - rewrite app_nil_r. reflexivity.
  - simpl in H. apply andb_true_iff in H as [Hc H]. rewrite Hc.
    rewrite IH by exact H. rewrite <- app_assoc. reflexivity.
Qed.

Lemma runs_stop ok cur rest :
  cur <> [] -> stops ok rest -> runs ok cur rest = cur :: runs ok [] rest.
Proof.
  intros Hne Hstop. destruct rest as [|c rest]; simpl.
  - destruct cur; [congruence | reflexivity].
  - simpl in Hstop. rewrite Hstop. destruct cur; [congruence | reflexivity].
Qed.

Lemma findall_fuel_numeric fuel : forall s,
  (length s <= fuel)%nat -> findall_fuel fuel numeric_re s = numeric_substrings s.
Proof.
  unfold numeric_substrings.
  induction fuel as [|fuel IH]; intros s Hlen.
  - destruct s; [reflexivity | simpl in Hlen; lia].
  - destruct s as [|c s]; [reflexivity|].
    cbn [findall_fuel].
    destruct (longest_run (accepts numeric) (c :: s)) as (run & rest & E & Hall & Hstop).
    destruct run as [|c' run].
    + simpl in E. subst rest. rewrite numeric_match_none by exact Hstop.
      change (accepts numeric c = false) in Hstop. cbn [runs]. rewrite Hstop.
      apply IH. simpl in Hlen. lia.
    + rewrite E. rewrite numeric_match_run by (try discriminate; assumption).
      rewrite length_app, Nat.add_sub.
      rewrite take_app_length.
      rewrite runs_app by exact Hall. rewrite runs_stop by (try discriminate; assumption).
      f_equal. apply IH.
      apply (f_equal (@length _)) in E. rewrite length_app in E. simpl in *. lia.
Qed.

Lemma findall_numeric s : re_findall numeric_re s = numeric_substrings s.
Proof. apply findall_fuel_numeric. reflexivity. Qed.

(** * [float] *)

Lemma round_binary64_not_nan n d : round_binary64 n d <> NaN.
Proof.
  unfold round_binary64. cbv zeta.
  match goal with |- context [Z.max ?a ?b] => generalize (Z.max a b) end.
  intros q. destruct (0 <=? q)%Z eqn:Hq.
  - match goal with |- (if ?b then _ else _) <> _ => destruct b end; discriminate.
  - apply Z.leb_gt in Hq.
    pose proof (Z.pow_pos_nonneg 2 (- q) ltac:(lia) ltac:(lia)) as Hpos.
    destruct (2 ^ (- q))%Z; [lia | discriminate | lia].
Qed.

Lemma decimal_to_float_not_nan neg m e : decimal_to_float neg m e <> NaN.
Proof.
  unfold decimal_to_float. destruct m as [|mp]; [discriminate|].
  assert (H : forall x, x <> NaN -> (if neg then float_neg x else x) <> NaN).
  { intros x Hx. destruct neg; [|exact Hx]. destruct x; simpl; congruence. }
  apply H. destruct e; apply round_binary64_not_nan.
Qed.

Lemma to_decimal_lt c d : to_decimal c = Some d -> d < 10.
Proof.
  unfold to_decimal.
  destruct (List.find _ decimal_zeros) as [z|] eqn:E; [|discriminate].
  intros H. injection H as <-. apply List.find_some in E as [_ E].
  apply andb_true_iff in E as [E1 E2]. apply N.leb_le in E1. apply N.ltb_lt in E2. lia.
Qed.

Lemma transform_no_n s :
  forallb (fun c => negb (is_n c)) s = true ->
  forallb (fun c => negb (is_n c)) (transform_decimal_and_space s) = true.
Proof.
  induction s as [|c s IH]; [reflexivity|].
  simpl. intros H. apply andb_true_iff in H as [Hc H].
  destruct (c <? 127).
  - simpl. rewrite Hc. apply IH. exact H.
  - destruct (unicode_space c).
    + simpl. apply IH. exact H.
    + destruct (to_decimal c) as [d|] eqn:E; [|reflexivity].
      simpl. rewrite (IH H), andb_true_r.
      apply to_decimal_lt in E. unfold is_n.
      destruct (N.eqb_spec (48 + d) 110); [lia|].
      destruct (N.eqb_spec (48 + d) 78); [lia|]. reflexivity.
Qed.

Lemma to_ascii_no_n s :
  forallb (fun c => negb (is_n c)) s = true ->
  forallb (fun c => negb (is_n c)) (to_ascii s) = true.
Proof.
  intros H. unfold to_ascii. destruct (forallb (fun c => c <? 128) s); [exact H|].
  apply transform_no_n. exact H.
Qed.

Lemma strip_underscores_no_n (P : char -> bool) s : forall prev t,
  strip_underscores prev s = Some t -> forallb P s = true -> forallb P t = true.
Proof.
  induction s as [|c s IH]; intros prev t H Hall; simpl in H.
  - destruct (prev =? 95); [discriminate|]. injection H as <-. reflexivity.
  - simpl in Hall. apply andb_true_iff in Hall as [Hc Hall].
    destruct (c =? 95).
    + destruct (ascii_digit prev); [|discriminate]. eapply IH; eassumption.
    + destruct ((prev =? 95) && negb (ascii_digit c)); [discriminate|].
      destruct (strip_underscores c s) as [r|] eqn:E; [|discriminate].
      injection H as <-. simpl. rewrite Hc. eapply IH; eassumption.
Qed.

Lemma lstrip_space_all (P : char -> bool) s :
  forallb P s = true -> forallb P (lstrip_space s) = true.
Proof.
  induction s as [|c s IH]; [reflexivity|].
  intros H. simpl. destruct (ascii_space c); [|exact H].
  apply IH. simpl in H. apply andb_true_iff in H as [_ H]. exact H.
Qed.

Lemma rstrip_space_all (P : char -> bool) s :
  forallb P s = true -> forallb P (rstrip_space s) = true.
Proof.
  induction s as [|c s IH]; [reflexivity|].
  intros H. simpl in H. apply andb_true_iff in H as [Hc H]. specialize (IH H).
  simpl. destruct (rstrip_space s) as [|a r].
  - destruct (ascii_space c); [reflexivity|]. simpl. rewrite Hc. reflexivity.
  - simpl in *. rewrite Hc. exact IH.
Qed.

Lemma take_sign_all (P : char -> bool) s :
  forallb P s = true -> forallb P (snd (take_sign s)) = true.
Proof.
  intros H. unfold take_sign.
  destruct s as [|c s]; [reflexivity|].
  assert (Hs : forallb P s = true).
  { simpl in H. apply andb_true_iff in H as [_ H]. exact H. }
  destruct c as [|p]; [exact H|].
  do 6 (destruct p as [p|p|]; try exact H); try exact Hs.
Qed.

Lemma parse_inf_or_nan_no_n s :
  forallb (fun c => negb (is_n c)) s = true -> parse_inf_or_nan s = None.
Proof.
  intros H. apply (take_sign_all _) in H. unfold parse_inf_or_nan.
  destruct (take_sign s) as [neg r]. simpl in H.
  assert (Hn : ~ In 110 (map ascii_lower r)).
  { rewrite in_map_iff. intros (z & E & Hz).
    rewrite forallb_forall in H. specialize (H z Hz).
    unfold ascii_lower in E. unfold is_n in H.
    destruct (N.eqb_spec z 110); [discriminate|].
    destruct (N.eqb_spec z 78); [discriminate|].
    destruct ((65 <=? z) && (z <=? 90)); lia. }
  repeat case_decide; try reflexivity; exfalso; apply Hn;
    match goal with E : map ascii_lower r = _ |- _ => rewrite E end;
    vm_compute; tauto.
Qed.

(** A text without the letter n is never read as a NaN. *)
Lemma py_float_not_nan s f :
  forallb (fun c => negb (is_n c)) s = true -> py_float s = Some f -> f <> NaN.
Proof.
  intros H. unfold py_float.
  destruct (strip_underscores 0 (to_ascii s)) as [t|] eqn:E; [|discriminate].
  apply to_ascii_no_n in H.
  pose proof (strip_underscores_no_n _ _ _ _ E H) as Ht.
  apply lstrip_space_all, rstrip_space_all in Ht.
  destruct (parse_decimal _) as [[[neg m] e]|].
  - intros Hf. injection Hf as <-. apply decimal_to_float_not_nan.
  - rewrite parse_inf_or_nan_no_n by exact Ht. discriminate.
Qed.

Lemma numeric_no_n s :
  forallb (accepts numeric) s = true -> forallb (fun c => negb (is_n c)) s = true.
Proof.
  intros H. rewrite forallb_forall in *. intros c Hc. specialize (H c Hc).
  unfold is_n. destruct (N.eqb_spec c 110) as [->|]; [discriminate|].
  destruct (N.eqb_spec c 78) as [->|]; [discriminate|]. reflexivity.
Qed.

(** ** The bands *)

Lemma float_lt_finite q n : float_lt (Finite q) n = true <-> (q < inject_Z n)%Q.
Proof.
  simpl. rewrite Qlt_alt. destruct (q ?= inject_Z n)%Q; split; congruence.
Qed.

Lemma float_lt_finite_false q n : float_lt (Finite q) n = false <-> (inject_Z n <= q)%Q.
Proof.
  rewrite <- not_true_iff_false, float_lt_finite. split.
  - apply Qnot_lt_le.
  - apply Qle_not_lt.
Qed.

Lemma float_ge_finite q n : float_ge (Finite q) n = true <-> (inject_Z n <= q)%Q.
Proof.
  rewrite <- float_lt_finite_false. simpl.
  destruct (q ?= inject_Z n)%Q; split; congruence.
Qed.

Lemma float_ge_lt x n : float_ge x n = true -> float_lt x n = false.
Proof.
  destruct x as [q|s|]; simpl; try discriminate.
  - destruct (q ?= inject_Z n)%Q; congruence.
  - destruct s; simpl; congruence.
Qed.

Lemma float_lt_mono x n m : (n <= m)%Z -> float_lt x n = true -> float_lt x m = true.
Proof.
  intros Hnm. destruct x as [q|s|]; try (simpl; congruence).
  rewrite !float_lt_finite. intros H.
  eapply Qlt_le_trans; [exact H|]. rewrite <- Zle_Qle. exact Hnm.
Qed.

(** * The sort *)

Lemma float_ltf_lef a b : float_ltf a b = true -> float_lef a b = true.
Proof.
  destruct a as [x|[]|], b as [y|[]|]; simpl; try congruence.
  destruct (x ?= y)%Q; congruence.
Qed.

Lemma float_lef_total a b :
  a <> NaN -> b <> NaN -> float_ltf b a = false -> float_lef a b = true.
Proof.
  destruct a as [x|[]|], b as [y|[]|]; simpl; try congruence.
  intros _ _. rewrite <- (Qcompare_antisym x y).
  destruct (x ?= y)%Q; simpl; congruence.
Qed.

Lemma float_lef_trans a b c :
  float_lef a b = true -> float_lef b c = true -> float_lef a c = true.
Proof.
  destruct a as [x|[]|], b as [y|[]|], c as [z|[]|]; simpl; try congruence.
  intros H1 H2.
  assert (Hxy : (x <= y)%Q) by (rewrite Qle_alt; destruct (x ?= y)%Q; congruence).
  assert (Hyz : (y <= z)%Q) by (rewrite Qle_alt; destruct (y ?= z)%Q; congruence).
  pose proof (Qle_trans _ _ _ Hxy Hyz) as Hxz. rewrite Qle_alt in Hxz.
  destruct (x ?= z)%Q; congruence.
Qed.

Section Sort.
Context {A : Type}.
Implicit Types (x : pyfloat * A) (l : list (pyfloat * A)).

Lemma insert_stable_perm x l : Permutation (insert_stable x l) (x :: l).
Proof.
  induction l as [|y l IH]; simpl; [reflexivity|].
  destruct (float_ltf (fst y) (fst x)); [|reflexivity].
  rewrite IH. apply perm_swap.
Qed.

Lemma stable_sort_cons x l : stable_sort (x :: l) = insert_stable x (stable_sort l).
Proof. reflexivity. Qed.

Lemma stable_sort_perm l : Permutation (stable_sort l) l.
Proof.
  induction l as [|x l IH]; [reflexivity|].
  rewrite stable_sort_cons, insert_stable_perm, IH. reflexivity.
Qed.

Lemma insert_stable_sorted x l :
  keyed x -> Forall keyed l ->
  StronglySorted by_key l -> StronglySorted by_key (insert_stable x l).
Proof.
  intros Hx Hl Hs. induction Hs as [|y l Hs IH Hy]; simpl.
  - repeat constructor.
  - apply Forall_cons in Hl as [Hky Hl].
    destruct (float_ltf (fst y) (fst x)) eqn:E.
    + constructor; [apply IH; exact Hl|].
      rewrite insert_stable_perm. constructor; [|exact Hy].
      apply float_ltf_lef. exact E.
    + assert (Hxy : by_key x y) by (apply float_lef_total; assumption).
      constructor; [constructor; assumption|].
      constructor; [exact Hxy|].
      eapply Forall_impl; [exact Hy|]. intros z Hz.
      unfold by_key in *. eapply float_lef_trans; eassumption.
Qed.

Lemma stable_sort_sorted l : Forall keyed l -> StronglySorted by_key (stable_sort l).
Proof.
  induction l as [|x l IH]; intros H; [constructor|].
  apply Forall_cons in H as [Hx Hl]. rewrite stable_sort_cons.
  apply insert_stable_sorted; [exact Hx | | apply IH; exact Hl].
  rewrite stable_sort_perm. exact Hl.
Qed.

Lemma decorate_ok (key : A -> result pyfloat) (items : list A) :
  Forall (fun a => exists k, key a = Ok k) items ->
  exists d, decorate key items = Ok d /\ map snd d = items
            /\ Forall (fun x => key (snd x) = Ok (fst x)) d.
Proof.
  induction 1 as [|a items [k Hk] _ (d & Hd & Hm & Hf)]; simpl.
  - exists []. repeat split. constructor.
  - rewrite Hk, Hd. exists ((k, a) :: d). repeat split.
    + simpl. rewrite Hm. reflexivity.
    + constructor; assumption.
Qed.
End Sort.

Lemma runs_all ok s : forall cur,
  forallb ok cur = true -> Forall (fun r => forallb ok r = true) (runs ok cur s).
Proof.
  induction s as [|c s IH]; intros cur Hcur; simpl.
  - destruct cur; repeat constructor. exact Hcur.
  - destruct (ok c) eqn:Hc.
    + apply IH. rewrite forallb_app. simpl. rewrite Hcur, Hc. reflexivity.
    + destruct cur; [apply IH; reflexivity|].
      constructor; [exact Hcur | apply IH; reflexivity].
Qed.

Lemma focal_key_missing (x : lens) :
  x !! "focal_length"%string = None -> focal_key x = Ok (Finite 0).
Proof.
  intros H. unfold focal_key, dict_get_default. rewrite H. vm_compute. reflexivity.
Qed.

Lemma focal_key_first_token (x : lens) v token rest f :
  x !! "focal_length"%string = Some v ->
  numeric_substrings v = token :: rest -> py_float token = Some f ->
  focal_key x = Ok f.
Proof.
  intros H Ht Hf. unfold focal_key, dict_get_default. rewrite H.
  rewrite findall_numeric, Ht. simpl. rewrite Hf. reflexivity.
Qed.

Lemma focal_key_not_nan (x : lens) k : focal_key x = Ok k -> k <> NaN.
Proof.
  unfold focal_key. rewrite findall_numeric.
  destruct (numeric_substrings _) as [|token rest] eqn:E; [discriminate|].
  simpl. destruct (py_float token) as [f|] eqn:Hf; [|discriminate].
  intros H. injection H as <-.
  eapply py_float_not_nan; [|exact Hf]. apply numeric_no_n.
  pose proof (runs_all (accepts numeric) (dict_get_default x "focal_length" (u "0")) [] eq_refl) as Hall.
  unfold numeric_substrings in E. rewrite E in Hall.
  apply Forall_cons in Hall as [Hall _]. exact Hall.
Qed.

Lemma parsable_focal_key (x : lens) : parsable_focal x -> exists k, focal_key x = Ok k.
Proof.
  intros H. destruct (x !! "focal_length"%string) as [v|] eqn:E.
  - destruct (H v E) as (token & rest & f & Ht & Hf).
    exists f. eapply focal_key_first_token; eassumption.
  - exists (Finite 0). apply focal_key_missing. exact E.
Qed.

Lemma sort_lenses_sorted (lenses : list lens) :
  Forall parsable_focal lenses ->
  exists sorted, sort_lenses lenses = Ok sorted
                 /\ Permutation lenses sorted /\ StronglySorted key_le sorted.
Proof.
  intros H. unfold sort_lenses, sort_by_key.
  destruct (decorate_ok focal_key lenses) as (d & Hd & Hm & Hf).
  { eapply Forall_impl; [exact H|]. intros x. apply parsable_focal_key. }
  rewrite Hd. exists (map snd (stable_sort d)). split; [reflexivity|]. split.
  - rewrite <- Hm. apply Permutation_map. symmetry. apply stable_sort_perm.
  - assert (Hk : Forall (fun x : pyfloat * lens => fst x <> NaN) d).
    { eapply Forall_impl; [exact Hf|]. intros [k x] Hx. simpl in *.
      eapply focal_key_not_nan. exact Hx. }
    pose proof (stable_sort_sorted d Hk) as Hs.
    assert (Hf' : Forall (fun x : pyfloat * lens => focal_key (snd x) = Ok (fst x)) (stable_sort d)).
    { rewrite stable_sort_perm. exact Hf. }
    induction Hs as [|y l Hs IH Hy]; simpl; [constructor|].
    apply Forall_cons in Hf' as [Hy' Hl']. constructor; [apply IH; exact Hl'|].
    rewrite Forall_map. rewrite Forall_forall in Hy, Hl'. apply Forall_forall.
    intros z Hz. exists (fst y), (fst z). repeat split; [exact Hy' | apply Hl'; exact Hz | apply Hy; exact Hz].
Qed.

(** ** Equal keys *)

Lemma float_same_ltf k a b :
  k <> NaN -> float_same k a = true -> float_same k b = true -> float_ltf a b = false.
Proof.
  unfold float_same.
  destruct k as [x|[]|], a as [y|[]|], b as [z|[]|]; simpl; try congruence.
  intros _. rewrite <- (Qcompare_antisym x y), <- (Qcompare_antisym x z).
  destruct (x ?= y)%Q eqn:E1; simpl; try discriminate.
  destruct (x ?= z)%Q eqn:E2; simpl; try discriminate.
  intros _ _. apply Qeq_alt in E1, E2.
  assert (E : (y == z)%Q) by (rewrite <- E1; exact E2).
  apply Qeq_alt in E. rewrite E. reflexivity.
Qed.

Section SortStable.
Context {A : Type}.

Lemma insert_stable_filter (k : pyfloat) (x : pyfloat * A) (l : list (pyfloat * A)) :
  k <> NaN ->
  List.filter (fun y => float_same k (fst y)) (insert_stable x l)
  = List.filter (fun y => float_same k (fst y)) (x :: l).
Proof.
  intros Hk. induction l as [|y l IH]; [reflexivity|].
  cbn [insert_stable]. destruct (float_ltf (fst y) (fst x)) eqn:E; [|reflexivity].
  cbn [List.filter] in *. rewrite IH.
  destruct (float_same k (fst y)) eqn:Hy, (float_same k (fst x)) eqn:Hx; try reflexivity.
  rewrite (float_same_ltf k _ _ Hk Hy Hx) in E. discriminate.
Qed.

Lemma stable_sort_filter (k : pyfloat) (l : list (pyfloat * A)) :
  k <> NaN ->
  List.filter (fun y => float_same k (fst y)) (stable_sort l)
  = List.filter (fun y => float_same k (fst y)) l.
Proof.
  intros Hk. induction l as [|x l IH]; [reflexivity|].
  rewrite stable_sort_cons, insert_stable_filter by exact Hk.
  cbn [List.filter]. rewrite IH. reflexivity.
Qed.
End SortStable.

Lemma filter_decorated (k : pyfloat) (d : list (pyfloat * lens)) :
  Forall (fun x => focal_key (snd x) = Ok (fst x)) d ->
  List.filter (has_key k) (map snd d)
  = map snd (List.filter (fun y => float_same k (fst y)) d).
Proof.
  induction 1 as [|[kx x] d Hx _ IH]; [reflexivity|].
  simpl in *. unfold has_key at 1. rewrite Hx, IH.
  destruct (float_same k kx); reflexivity.
Qed.

(** Records with the same key keep the order they had. *)
Lemma sort_lenses_stable (lenses sorted : list lens) (k : pyfloat) :
  sort_lenses lenses = Ok sorted -> k <> NaN ->
  List.filter (has_key k) sorted = List.filter (has_key k) lenses.
Proof.
  unfold sort_lenses, sort_by_key. intros H Hk.
  destruct (decorate focal_key lenses) as [d|] eqn:Hd; [|discriminate].
  injection H as <-.
  assert (Hdec : map snd d = lenses /\ Forall (fun x => focal_key (snd x) = Ok (fst x)) d).
  { clear Hk. revert d Hd. induction lenses as [|x lenses IH]; intros d Hd; simpl in Hd.
    - injection Hd as <-. split; [reflexivity | constructor].
    - destruct (focal_key x) as [kx|] eqn:Hx; [|discriminate].
      destruct (decorate focal_key lenses) as [r|]; [|discriminate].
      injection Hd as <-. destruct (IH r eq_refl) as [Hm Hf].
      split; [simpl; rewrite Hm; reflexivity | constructor; assumption]. }
  destruct Hdec as [Hm Hf].
  rewrite filter_decorated.
  - rewrite stable_sort_filter by exact Hk. rewrite <- filter_decorated by exact Hf.
    rewrite Hm. reflexivity.
  - rewrite stable_sort_perm. exact Hf.
Qed.

(** * The focal-length normalizer *)

Lemma dx_nonempty : dx <> [].
Proof. discriminate. Qed.

(** The characters of the marker are all different, so an occurrence cannot
    begin in the text before another occurrence and end inside it. *)
Lemma dx_no_straddle pre :
  contains dx pre = false -> contains dx (pre ++ drop_last dx) = false.
Proof.
  induction pre as [|c pre IH]; [intros _; vm_compute; reflexivity|].
  rewrite contains_cons. intros H. apply orb_false_iff in H as [Hs Hc].
  change ((c :: pre) ++ drop_last dx) with (c :: pre ++ drop_last dx).
  rewrite contains_cons, (IH Hc), orb_false_r.
  destruct (startswith dx (c :: pre ++ drop_last dx)) eqn:E; [|reflexivity].
  exfalso.
  destruct pre as [|a1 [|a2 [|a3 [|a4 [|a5 [|a6 [|a7 pre]]]]]]];
    try (vm_compute in E;
         repeat match type of E with
                | (if ?b then _ else _) = true => destruct b; try discriminate E
                end; fail).
  change (c :: (a1 :: a2 :: a3 :: a4 :: a5 :: a6 :: a7 :: pre) ++ drop_last dx)
    with ((c :: a1 :: a2 :: a3 :: a4 :: a5 :: a6 :: a7 :: pre) ++ drop_last dx) in E.
  apply startswith_short in E; [congruence|]. simpl. lia.
Qed.

Lemma contains_first sep pre post :
  contains sep (pre ++ drop_last sep) = false -> contains sep (pre ++ sep ++ post) = true.
Proof. intros H. unfold contains. rewrite (partition_first _ _ _ H). reflexivity. Qed.

Lemma split_first sep pre post :
  sep <> [] -> contains sep (pre ++ drop_last sep) = false ->
  split sep (pre ++ sep ++ post) = pre :: split sep post.
Proof.
  intros Hsep H. rewrite split_eq by exact Hsep.
  rewrite (partition_first _ _ _ H). reflexivity.
Qed.

Lemma split_absent sep s : sep <> [] -> contains sep s = false -> split sep s = [s].
Proof.
  intros Hsep H. rewrite split_eq by exact Hsep.
  rewrite (contains_false_partition _ _ H). reflexivity.
Qed.

Lemma replace_first old new pre post :
  old <> [] -> contains old (pre ++ drop_last old) = false ->
  replace old new (pre ++ old ++ post) = pre ++ new ++ replace old new post.
Proof.
  intros Hold H. rewrite replace_eq by exact Hold.
  rewrite (partition_first _ _ _ H). reflexivity.
Qed.

(** With the marker in the text, [split] gives at least two parts. *)
Lemma split_marked sep s :
  sep <> [] -> contains sep s = true -> exists a b rest, split sep s = a :: b :: rest.
Proof.
  intros Hsep H. apply contains_true_partition in H as (a & b & H).
  rewrite split_eq, H by exact Hsep.
  rewrite (split_eq sep b) by exact Hsep.
  destruct (partition sep b) as [[a' b']|]; eauto.
Qed.

Lemma format_focal_outcome value :
  format_focal value =
  match py_float (focal_sort_text value) with
  | Some x =>
      Ok (cell_header (band_color x)
            (if contains dx (strip_unit value)
             then sort_attribute (focal_sort_text value) else [])
          ++ u "|" ++ focal_display_text value)
  | None => Raise ValueError
  end.
Proof.
  unfold format_focal, focal_sort_text, focal_display_text. cbv zeta.
  destruct (contains dx (strip_unit value)) eqn:E; [|reflexivity].
  destruct (split_marked dx _ dx_nonempty E) as (a & b & rest & ->).
  reflexivity.
Qed.

(** * Trailing slashes *)

Lemma rstrip_snoc c s : rstrip c (s ++ [c]) = rstrip c s.
Proof.
  induction s as [|a s IH]; simpl.
  - rewrite N.eqb_refl. reflexivity.
  - rewrite IH. reflexivity.
Qed.

Lemma rstrip_idempotent c s : rstrip c (rstrip c s) = rstrip c s.
Proof.
  induction s as [|a s IH]; [reflexivity|].
  simpl. destruct (rstrip c s) as [|b r] eqn:E.
  - destruct (a =? c) eqn:Ha; [reflexivity|]. simpl. rewrite Ha. reflexivity.
  - change (rstrip c (a :: b :: r)) with
      (match rstrip c (b :: r) with [] => if a =? c then [] else [a] | x => a :: x end).
    rewrite IH. reflexivity.
Qed.

(** * Link discovery *)

Lemma lens_links_of_spec mount_url anchors : forall (acc : gset pystr) link,
  link ∈ fold_left (fun lens_links l =>
                      if is_lens_link mount_url l then lens_links ∪ {[ l ]} else lens_links)
                   anchors acc
  <-> link ∈ acc \/ (link ∈ anchors /\ is_lens_link mount_url link = true).
Proof.
  induction anchors as [|a anchors IH]; intros acc link; simpl.
  - rewrite elem_of_nil. tauto.
  - rewrite IH, elem_of_cons. destruct (is_lens_link mount_url a) eqn:E.
    + rewrite elem_of_union, elem_of_singleton. split.
      * intros [[H| ->]|[H1 H2]]; auto.
      * intros [H|[[->|H1] H2]]; auto.
    + split.
      * intros [H|[H1 H2]]; auto.
      * intros [H|[[->|H1] H2]]; auto. congruence.
Qed.

Lemma is_lens_link_spec mount_url link :
  is_lens_link mount_url link = true
  <-> startswith mount_url link = true /\ rstrip 47 link <> rstrip 47 mount_url.
Proof.
  unfold is_lens_link. rewrite andb_true_iff, negb_true_iff, bool_decide_eq_false.
  reflexivity.
Qed.

(** * The mount dictionary *)

Lemma dict_lookup_set_eq d k v : dict_lookup (dict_set d k v) k = Some v.
Proof.
  induction d as [|[k' v'] d IH]; simpl.
  - rewrite decide_True by reflexivity. reflexivity.
  - destruct (decide (k' = k)) as [->|Hne]; simpl.
    + rewrite decide_True by reflexivity. reflexivity.
    + rewrite decide_False by exact Hne. exact IH.
Qed.

Lemma dict_lookup_set_ne d k v k0 : k <> k0 -> dict_lookup (dict_set d k v) k0 = dict_lookup d k0.
Proof.
  intros Hne. induction d as [|[k' v'] d IH]; simpl.
  - rewrite decide_False by exact Hne. reflexivity.
  - destruct (decide (k' = k)) as [->|Hk]; simpl.
    + rewrite !decide_False by exact Hne. reflexivity.
    + destruct (decide (k' = k0)); [reflexivity | exact IH].
Qed.

Lemma dict_set_keys d k v :
  map fst (dict_set d k v) = if decide (k ∈ map fst d) then map fst d else map fst d ++ [k].
Proof.
  induction d as [|[k' v'] d IH].
  - cbn [dict_set map fst app]. destruct (decide (k ∈ [])) as [H|H]; [|reflexivity].
    apply elem_of_nil in H. contradiction.
  - cbn [dict_set map fst]. destruct (decide (k' = k)) as [->|Hk]; cbn [map fst].
    + destruct (decide (k ∈ k :: map fst d)) as [H|H]; [reflexivity|].
      exfalso. apply H. apply list_elem_of_here.
    + rewrite IH.
      destruct (decide (k ∈ map fst d)) as [H|H], (decide (k ∈ k' :: map fst d)) as [H'|H'];
        try reflexivity; exfalso.
      * apply H'. apply list_elem_of_further. exact H.
      * apply elem_of_cons in H' as [->|H']; [congruence | contradiction].
Qed.

Lemma dict_set_nodup d k v : NoDup (map fst d) -> NoDup (map fst (dict_set d k v)).
Proof.
  intros H. rewrite dict_set_keys. destruct (decide (k ∈ map fst d)) as [Hin|Hin]; [exact H|].
  apply NoDup_app. repeat split; [exact H | | apply NoDup_singleton].
  intros x Hx Hx'. apply list_elem_of_singleton in Hx'. subst x. exact (Hin Hx).
Qed.

Lemma fold_add_mount entries : forall mounts,
  fold_left add_mount (map item_of entries) (Ok mounts)
  = Ok (fold_left record_mount entries mounts).
Proof.
  induction entries as [|[url name] entries IH]; intros mounts; [reflexivity|].
  simpl. unfold record_mount at 2. simpl.
  destruct (decide (name = u "ACCESSORIES")); apply IH.
Qed.

Lemma record_mounts_nodup entries : forall mounts,
  NoDup (map fst mounts) -> NoDup (map fst (fold_left record_mount entries mounts)).
Proof.
  induction entries as [|e entries IH]; intros mounts H; [exact H|].
  simpl. apply IH. unfold record_mount.
  destruct (decide (snd e = u "ACCESSORIES")); [exact H | apply dict_set_nodup; exact H].
Qed.

Lemma record_mounts_other entries name : forall mounts,
  name ∉ map snd entries ->
  dict_lookup (fold_left record_mount entries mounts) name = dict_lookup mounts name.
Proof.
  induction entries as [|e entries IH]; intros mounts H; [reflexivity|].
  simpl in *. apply not_elem_of_cons in H as [Hne H].
  rewrite (IH _ H). unfold record_mount.
  destruct (decide (snd e = u "ACCESSORIES")); [reflexivity|].
  apply dict_lookup_set_ne. congruence.
Qed.

Lemma record_mounts_last pre url name post mounts :
  name <> u "ACCESSORIES" -> name ∉ map snd post ->
  dict_lookup (fold_left record_mount (pre ++ (url, name) :: post) mounts) name = Some url.
Proof.
  intros Hacc Hpost. rewrite fold_left_app. simpl.
  rewrite (record_mounts_other _ _ _ Hpost). unfold record_mount at 1. simpl.
  rewrite decide_False by exact Hacc. apply dict_lookup_set_eq.
Qed.

Lemma record_mounts_accessories entries : forall mounts,
  dict_lookup mounts (u "ACCESSORIES") = None ->
  dict_lookup (fold_left record_mount entries mounts) (u "ACCESSORIES") = None.
Proof.
  induction entries as [|e entries IH]; intros mounts H; [exact H|].
  simpl. apply IH. unfold record_mount.
  destruct (decide (snd e = u "ACCESSORIES")) as [|Hne]; [exact H|].
  rewrite dict_lookup_set_ne by exact Hne. exact H.
Qed.

(** * The normalizers *)

Lemma format_lens_const_cases s :
  (exists n m rest, n <> [] /\ m <> [] /\ forallb is_decimal n = true
                    /\ forallb is_decimal m = true
                    /\ s = n ++ u "群" ++ m ++ u "枚" ++ rest
                    /\ format_lens_const s = Ok (m ++ u "e/" ++ n ++ u "g"))
  \/ (re_match lens_const_re s = None /\ format_lens_const s = Ok s).
Proof.
  unfold format_lens_const, re_match.
  destruct (match_here lens_const_re s) as [[gs r]|] eqn:E.
  - left. apply lens_const_match_inv in E as (n & m & -> & Hn & Hm & Hdn & Hdm & ->).
    exists n, m, r. repeat split; assumption.
  - right. split; reflexivity.
Qed.

Lemma format_lens_const_other s : ~ lens_const_shape s -> format_lens_const s = Ok s.
Proof.
  intros H. destruct (format_lens_const_cases s) as [(n & m & rest & ? & ? & ? & ? & ? & _)|[_ ?]];
    [|assumption].
  exfalso. apply H. exists n, m, rest. repeat split; assumption.
Qed.

Lemma format_f_number_cases s :
  (exists g, g <> [] /\ forallb (accepts numeric) g = true /\ f_number_shape s
             /\ format_f_number s = Ok (u "{{f/|" ++ g ++ u "}}"))
  \/ (re_search f_number_re s = None /\ format_f_number s = Ok s).
Proof.
  unfold format_f_number.
  destruct (re_search f_number_re s) as [gs|] eqn:E.
  - left. apply re_search_inv in E as (pre & suf & r & -> & E).
    apply f_number_match_inv in E as (sp1 & sp2 & g & -> & H1 & H2 & Hg & Hdg & ->).
    exists g. repeat split; try assumption.
    exists pre, sp1, sp2, g, r. repeat split; assumption.
  - right. split; reflexivity.
Qed.

Lemma format_f_number_other s : ~ f_number_shape s -> format_f_number s = Ok s.
Proof.
  intros H. destruct (format_f_number_cases s) as [(g & _ & _ & Hs & _)|[_ ?]]; [|assumption].
  contradiction.
Qed.

Lemma format_cvt_eq value unit :
  format_cvt value unit =
  if contains (u "×") value then
    Ok (u "{{cvt|" ++ join (u "|×|") (numeric_substrings value) ++ u "|"
        ++ unit_target unit ++ u "}}")
  else match numeric_substrings value with
       | first :: _ => Ok (u "{{cvt|" ++ first ++ u "|" ++ unit_target unit ++ u "}}")
       | [] => Ok value
       end.
Proof.
  unfold format_cvt. cbv zeta. rewrite findall_numeric.
  destruct (contains (u "×") value); [reflexivity|].
  destruct (numeric_substrings value); reflexivity.
Qed.

Lemma contains_iff sep s : contains sep s = true <-> exists a b, s = a ++ sep ++ b.
Proof.
  split.
  - intros H. apply contains_true_partition in H as (a & b & H).
    exists a, b. apply partition_sound. exact H.
  - intros (a & b & ->). induction a as [|c a IH].
    + simpl. unfold contains.
      destruct (sep ++ b) as [|x t] eqn:E.
      * destruct sep; [reflexivity | discriminate].
      * simpl. rewrite <- E, startswith_app. reflexivity.
    + change ((c :: a) ++ sep ++ b) with (c :: a ++ sep ++ b).
      rewrite contains_cons, IH. apply orb_true_r.
Qed.

Lemma format_f_number_present s :
  f_number_shape s ->
  exists g, g <> [] /\ forallb (accepts numeric) g = true
            /\ format_f_number s = Ok (u "{{f/|" ++ g ++ u "}}").
Proof.
  intros (pre & sp1 & sp2 & g & post & H1 & H2 & Hg & Hall & ->).
  destruct (f_number_match sp1 sp2 g post H1 H2 Hg Hall) as (g' & r & M).
  destruct (re_search_found _ pre _ _ _ M) as [gs Hs].
  destruct (format_f_number_cases (pre ++ u "1" ++ sp1 ++ u ":" ++ sp2 ++ g ++ post))
    as [(g0 & ? & ? & _ & ?)|[Hnone _]]; [eauto|congruence].
Qed.

(** * Checks of the definitions on concrete inputs *)

Example u_dx : u "フルサイズ換算:" = [0x30d5; 0x30eb; 0x30b5; 0x30a4; 0x30ba; 0x63db; 0x7b97; 0x3a].
Proof. reflexivity. Qed.

Example replace_ex : replace (u "mm") [] (u "35mm (50mm)") = u "35 (50)".
Proof. reflexivity. Qed.

Example split_ex : split (u "ab") (u "xabyabab") = [u "x"; u "y"; []; []].
Proof. reflexivity. Qed.

Example rstrip_ex : rstrip 47 (u "a/b//") = u "a/b".
Proof. reflexivity. Qed.

Example lens_const_ex : format_lens_const (u "8群10枚") = Ok (u "10e/8g").
Proof. vm_compute. reflexivity. Qed.

Example cvt_ex1 : format_cvt (u "φ63.5×42mm") (u "mm") = Ok (u "{{cvt|63.5|×|42|mm}}").
Proof. vm_compute. reflexivity. Qed.

Example f_ex : format_f_number (u "1 : 2.5") = Ok (u "{{f/|2.5}}").
Proof. vm_compute. reflexivity. Qed.

Example focal_ex1 :
  format_focal (u "50mm") = Ok (u "! style = " ++ dquote ++ u "background:#ffd;" ++ dquote ++ u " |50").
Proof. vm_compute. reflexivity. Qed.

Example focal_ex2 :
  format_focal (u "35mm（フルサイズ換算:約52.5mm）")
  = Ok (u "! style = " ++ dquote ++ u "background:#ffd;" ++ dquote
        ++ u " data-sort-value=" ++ dquote ++ u "52.5" ++ dquote
        ++ u "|35（full frame equivalent: 52.5）").
Proof. vm_compute. reflexivity. Qed.

Example focal_ex3 : format_focal (u "12-24mm") = Raise ValueError.
Proof. vm_compute. reflexivity. Qed.

Example lens_const_ex2 : format_lens_const (u "約8群10枚") = Ok (u "約8群10枚").
Proof. vm_compute. reflexivity. Qed.

Example cvt_ex2 : format_cvt (u "0.5m") (u "m") = Ok (u "{{cvt|0.5|m|ft}}").
Proof. vm_compute. reflexivity. Qed.

Example cvt_ex3 : format_cvt (u "×") (u "mm") = Ok (u "{{cvt||mm}}").
Proof. vm_compute. reflexivity. Qed.

Example f_ex2 : format_f_number (u "F1:.") = Ok (u "{{f/|.}}").
Proof. vm_compute. reflexivity. Qed.

Example float_ex1 : py_float (u " 1_0.5e1 ") = Some (Finite 105).
Proof. vm_compute. reflexivity. Qed.

Example float_ex2 : py_float (u "20.99999999999999999999") = Some (Finite 21).
Proof. vm_compute. reflexivity. Qed.

Example float_ex3 : py_float (u "５０") = Some (Finite 50).
Proof. vm_compute. reflexivity. Qed.

Example float_ex4 : py_float (u "1e") = None.
Proof. vm_compute. reflexivity. Qed.

Example focal_ex4 :
  format_focal (u "nan") = Ok (cell_header (u "dfd") [] ++ u "|nan").
Proof. vm_compute. reflexivity. Qed.

Example focal_key_ex1 :
  focal_key {[ "focal_length"%string := cell_header (u "dfd") [] ++ u "|nan" ]}
  = Raise IndexError.
Proof. vm_compute. reflexivity. Qed.

Example focal_key_ex2 :
  focal_key {[ "focal_length"%string := u "f. 50" ]} = Raise ValueError.
Proof. vm_compute. reflexivity. Qed.

(** * The claims *)

(** C1, as the code has it.  The lens-construction, f-number and
    measurement normalizers return a string for every input and never raise;
    each returns its input unchanged when its pattern is absent (for the
    measurement normalizer: no multiplication sign and no numeric
    substring).  The focal-length normalizer has no such fallback: it raises
    [ValueError] when the text it hands to [float] is not a numeral, and
    returns a string otherwise. *)
Theorem normalizers_fallback :
  (forall s, exists out, format_lens_const s = Ok out)
  /\ (forall s, ~ lens_const_shape s -> format_lens_const s = Ok s)
  /\ (forall s, exists out, format_f_number s = Ok out)
  /\ (forall s, ~ f_number_shape s -> format_f_number s = Ok s)
  /\ (forall value unit, exists out, format_cvt value unit = Ok out)
  /\ (forall value unit,
        contains (u "×") value = false -> numeric_substrings value = [] ->
        format_cvt value unit = Ok value)
  /\ (forall value,
        (py_float (focal_sort_text value) = None -> format_focal value = Raise ValueError)
        /\ (forall x, py_float (focal_sort_text value) = Some x ->
            exists out, format_focal value = Ok out)).
Proof.
  repeat split.
  - intros s. destruct (format_lens_const_cases s) as [(n & m & rest & H)|[_ H]]; [|eauto].
    decompose [and] H. eauto.
  - apply format_lens_const_other.
  - intros s. destruct (format_f_number_cases s) as [(g & _ & _ & _ & H)|[_ H]]; eauto.
  - apply format_f_number_other.
  - intros value unit. rewrite format_cvt_eq.
    destruct (contains (u "×") value); [eauto|].
    destruct (numeric_substrings value); eauto.
  - intros value unit Hx Hn. rewrite format_cvt_eq, Hx, Hn. reflexivity.
  - intros H. rewrite format_focal_outcome, H. reflexivity.
  - intros x H. rewrite format_focal_outcome, H. eauto.
Qed.

(** The fallback of [format_cvt] and both outcomes of [format_focal], on inputs. *)
Lemma normalizers_fallback_witness :
  format_cvt (u "abc") (u "mm") = Ok (u "abc")
  /\ format_focal (u "f/2") = Raise ValueError
  /\ exists out, format_focal (u "50mm") = Ok out.
Proof.
  destruct normalizers_fallback as (_ & _ & _ & _ & _ & Hcvt & Hfocal).
  split; [|split].
  - apply Hcvt; vm_compute; reflexivity.
  - apply (Hfocal (u "f/2")). vm_compute. reflexivity.
  - apply (proj2 (Hfocal (u "50mm")) (Finite 50)). vm_compute. reflexivity.
Defined.

(** C1 as stated fails: a zoom range is not a numeral, and [format_focal]
    raises instead of passing the text through. *)
Lemma format_focal_zoom_raises :
  format_focal (u "12-24mm") = Raise ValueError
  /\ format_focal (u "12-24mm") <> Ok (u "12-24mm").
Proof. split; [vm_compute; reflexivity | discriminate]. Qed.

(** C2, as the code has it.  When the value, without [mm] and [約], is some
    text, the marker, a numeral and exactly one more character (a closing
    bracket), the marker occurring once, the sort attribute is that numeral,
    the marker is displayed as "full frame equivalent: " and the band is that
    of the numeral.  Without the marker the band is that of the displayed
    text. *)
Theorem format_focal_sort_value :
  (forall value pre num c x,
      strip_unit value = pre ++ dx ++ num ++ [c] ->
      contains dx pre = false -> contains dx (num ++ [c]) = false ->
      py_float num = Some x ->
      format_focal value
      = Ok (cell_header (band_color x) (sort_attribute num)
            ++ u "|" ++ pre ++ u "full frame equivalent: " ++ num ++ [c]))
  /\ (forall value x,
      contains dx (strip_unit value) = false ->
      py_float (strip_unit value) = Some x ->
      format_focal value = Ok (cell_header (band_color x) [] ++ u "|" ++ strip_unit value)).
Proof.
  split.
  - intros value pre num c x Hv Hpre Hpost Hx. apply dx_no_straddle in Hpre.
    rewrite format_focal_outcome. unfold focal_sort_text, focal_display_text. cbv zeta.
    rewrite Hv, (contains_first _ _ _ Hpre).
    rewrite (split_first _ _ _ dx_nonempty Hpre), (split_absent _ _ dx_nonempty Hpost).
    rewrite (replace_first _ _ _ _ dx_nonempty Hpre), (replace_absent _ _ _ dx_nonempty Hpost).
    cbn [nth]. rewrite drop_last_snoc, Hx. reflexivity.
  - intros value x H Hx. rewrite format_focal_outcome.
    unfold focal_sort_text, focal_display_text. cbv zeta. rewrite H, Hx. reflexivity.
Qed.

(** A value with the marker and a closing bracket, and one without marker. *)
Lemma format_focal_sort_value_witness :
  format_focal (u "35mm（フルサイズ換算:約52.5mm）")
  = Ok (cell_header (u "ffd") (sort_attribute (u "52.5"))
        ++ u "|35（full frame equivalent: 52.5）")
  /\ format_focal (u "約21mm") = Ok (cell_header (u "fed") [] ++ u "|21").
Proof.
  destruct format_focal_sort_value as [Hmarked Hplain]. split.
  - apply (Hmarked (u "35mm（フルサイズ換算:約52.5mm）") (u "35（") (u "52.5") 0xff09
             (Finite (105 # 2))); vm_compute; reflexivity.
  - apply (Hplain (u "約21mm") (Finite 21)); vm_compute; reflexivity.
Defined.

(** C2 as stated fails when nothing follows the second number: its last
    digit is cut off, and the band is that of what is left. *)
Lemma format_focal_marker_at_end :
  strip_unit (u "15mm フルサイズ換算:21mm") = u "15 " ++ dx ++ u "21"
  /\ format_focal (u "15mm フルサイズ換算:21mm")
     = Ok (cell_header (u "fdd") (sort_attribute (u "2"))
           ++ u "|15 full frame equivalent: 21")
  /\ format_focal (u "15mm フルサイズ換算:21mm")
     <> Ok (cell_header (u "fed") (sort_attribute (u "21"))
            ++ u "|15 full frame equivalent: 21").
Proof.
  split; [vm_compute; reflexivity|]. split; [vm_compute; reflexivity|].
  vm_compute. discriminate.
Qed.

(** C3.  With a multiplication sign in the value the result is one cvt
    template of all its numeric substrings joined by [|×|]; otherwise, with
    a numeric substring, a cvt template of the first one; otherwise the value
    unchanged.  The unit [m] is written [m|ft], any other unit as it is. *)
Theorem format_cvt_spec (value unit : pystr) :
  (contains (u "×") value = true ->
     format_cvt value unit
     = Ok (u "{{cvt|" ++ join (u "|×|") (numeric_substrings value) ++ u "|"
           ++ unit_target unit ++ u "}}"))
  /\ (contains (u "×") value = false ->
      forall first others, numeric_substrings value = first :: others ->
      format_cvt value unit = Ok (u "{{cvt|" ++ first ++ u "|" ++ unit_target unit ++ u "}}"))
  /\ (contains (u "×") value = false -> numeric_substrings value = [] ->
      format_cvt value unit = Ok value)
  /\ unit_target (u "m") = u "m|ft"
  /\ (unit <> u "m" -> unit_target unit = unit).
Proof.
  rewrite format_cvt_eq. repeat split.
  - intros ->. reflexivity.
  - intros -> first others ->. reflexivity.
  - intros -> ->. reflexivity.
  - intros H. unfold unit_target. rewrite decide_False by exact H. reflexivity.
Qed.

(** The three cases and the unit table, on inputs. *)
Lemma format_cvt_spec_witness :
  format_cvt (u "φ63.5×42mm") (u "mm") = Ok (u "{{cvt|63.5|×|42|mm}}")
  /\ format_cvt (u "0.5m") (u "m") = Ok (u "{{cvt|0.5|m|ft}}")
  /\ format_cvt (u "-") (u "g") = Ok (u "-")
  /\ unit_target (u "g") = u "g".
Proof.
  split; [|split; [|split]].
  - apply (proj1 (format_cvt_spec (u "φ63.5×42mm") (u "mm"))). vm_compute. reflexivity.
  - apply (proj1 (proj2 (format_cvt_spec (u "0.5m") (u "m"))) eq_refl (u "0.5") []).
    vm_compute. reflexivity.
  - apply (proj1 (proj2 (proj2 (format_cvt_spec (u "-") (u "g"))))); vm_compute; reflexivity.
  - apply (proj2 (proj2 (proj2 (proj2 (format_cvt_spec (u "-") (u "g")))))). discriminate.
Defined.

(** C4.  The band of a sort value v, the number [float] has read: below 21
    [fdd], from 21 and below 40 [fed], from 40 and below 65 [ffd], from 65 on
    [dfd]; and the six boundary values of the specification, through
    [format_focal]. *)
Theorem band_boundaries :
  (forall q : Q,
      ((q < 21)%Q -> band_color (Finite q) = u "fdd")
      /\ ((21 <= q)%Q -> (q < 40)%Q -> band_color (Finite q) = u "fed")
      /\ ((40 <= q)%Q -> (q < 65)%Q -> band_color (Finite q) = u "ffd")
      /\ ((65 <= q)%Q -> band_color (Finite q) = u "dfd"))
  /\ band_color (Inf true) = u "fdd"
  /\ band_color (Inf false) = u "dfd"
  /\ format_focal (u "20.9") = Ok (cell_header (u "fdd") [] ++ u "|20.9")
  /\ format_focal (u "21.0") = Ok (cell_header (u "fed") [] ++ u "|21.0")
  /\ format_focal (u "39.9") = Ok (cell_header (u "fed") [] ++ u "|39.9")
  /\ format_focal (u "40.0") = Ok (cell_header (u "ffd") [] ++ u "|40.0")
  /\ format_focal (u "64.9") = Ok (cell_header (u "ffd") [] ++ u "|64.9")
  /\ format_focal (u "65.0") = Ok (cell_header (u "dfd") [] ++ u "|65.0").
Proof.
  split; [|repeat split; vm_compute; reflexivity].
  intros q. unfold band_color.
  assert (H2140 : (inject_Z 21 <= inject_Z 40)%Q) by (rewrite <- Zle_Qle; lia).
  assert (H4065 : (inject_Z 40 <= inject_Z 65)%Q) by (rewrite <- Zle_Qle; lia).
  repeat split.
  - intros H. apply float_lt_finite in H. rewrite H. reflexivity.
  - intros H1 H2. apply float_lt_finite_false in H1. apply float_lt_finite in H2.
    rewrite H1, H2. reflexivity.
  - intros H1 H2. apply float_lt_finite in H2.
    assert (H0 : (inject_Z 21 <= q)%Q) by (eapply Qle_trans; eassumption).
    apply float_lt_finite_false in H0, H1. rewrite H0, H1, H2. reflexivity.
  - intros H.
    assert (H1 : (inject_Z 40 <= q)%Q) by (eapply Qle_trans; eassumption).
    assert (H0 : (inject_Z 21 <= q)%Q) by (eapply Qle_trans; eassumption).
    apply float_lt_finite_false in H0, H1, H. rewrite H0, H1, H. reflexivity.
Qed.

(** One value in each band. *)
Lemma band_boundaries_witness :
  band_color (Finite (209 # 10)) = u "fdd" /\ band_color (Finite 21) = u "fed"
  /\ band_color (Finite (649 # 10)) = u "ffd" /\ band_color (Finite 65) = u "dfd".
Proof.
  destruct band_boundaries as (H & _).
  split; [|split; [|split]].
  - apply (H (209 # 10)). reflexivity.
  - apply (H 21%Q); [discriminate | reflexivity].
  - apply (H (649 # 10)); [discriminate | reflexivity].
  - apply (H 65%Q). discriminate.
Defined.

(** C5.  A text beginning with [<N>群<M>枚], [N] and [M] runs of decimal
    digits, becomes [<M>e/<N>g]; the pattern is looked for at the start of the
    text ([re.match]) and what follows it is dropped.  Any other text is
    returned unchanged. *)
Theorem format_lens_const_spec :
  (forall n m rest,
      n <> [] -> m <> [] -> forallb is_decimal n = true -> forallb is_decimal m = true ->
      format_lens_const (n ++ u "群" ++ m ++ u "枚" ++ rest) = Ok (m ++ u "e/" ++ n ++ u "g"))
  /\ (forall s, ~ lens_const_shape s -> format_lens_const s = Ok s).
Proof.
  split.
  - intros n m rest Hn Hm Hdn Hdm. unfold format_lens_const, re_match.
    rewrite lens_const_match by assumption. reflexivity.
  - intros s Hshape. unfold format_lens_const, re_match.
    destruct (match_here lens_const_re s) as [[gs r]|] eqn:E; [|reflexivity].
    exfalso. apply Hshape.
    apply lens_const_match_inv in E as (n & m & _ & Hn & Hm & Hdn & Hdm & ->).
    exists n, m, r. repeat split; assumption.
Qed.

(** A construction text, and a text of another shape. *)
Lemma format_lens_const_spec_witness :
  format_lens_const (u "8群10枚") = Ok (u "10e/8g")
  /\ format_lens_const (u "-") = Ok (u "-").
Proof.
  destruct format_lens_const_spec as [Hmatch Hother]. split.
  - apply (Hmatch (u "8") (u "10") []); (discriminate || reflexivity).
  - apply Hother. intros (n & m & rest & Hn & _ & Hd & _ & E).
    destruct n as [|c n]; [congruence|].
    injection E as <- _. discriminate Hd.
Defined.

(** C6.  ["1:2.5"] and ["1 : 2.5"] both become the f/ template of 2.5.  A
    text in which "1", an optional space, a colon, an optional space and a
    digit or full stop do not occur in a row is returned unchanged; any other
    text becomes an f/ template of digits and full stops. *)
Theorem format_f_number_spec :
  format_f_number (u "1:2.5") = Ok (u "{{f/|2.5}}")
  /\ format_f_number (u "1 : 2.5") = Ok (u "{{f/|2.5}}")
  /\ (forall s, ~ f_number_shape s -> format_f_number s = Ok s)
  /\ (forall s, f_number_shape s ->
        exists g, g <> [] /\ forallb (accepts numeric) g = true
                  /\ format_f_number s = Ok (u "{{f/|" ++ g ++ u "}}")).
Proof.
  split; [vm_compute; reflexivity|]. split; [vm_compute; reflexivity|].
  split; [apply format_f_number_other | apply format_f_number_present].
Qed.

(** A text without the pattern. *)
Lemma format_f_number_spec_witness : format_f_number (u "F2") = Ok (u "F2").
Proof.
  apply (proj1 (proj2 (proj2 format_f_number_spec))).
  intros (pre & sp1 & sp2 & g & post & _ & _ & _ & _ & E).
  destruct pre as [|a [|b [|c pre]]]; discriminate E.
Defined.

Section SiteFacts.

Variable md5_hexdigest : pystr -> pystr.
Variable http_get : pystr -> http_outcome.


Lemma fetch_miss (url : pystr) (w : world) :
  files w !! cache_path md5_hexdigest url = None ->
  fetch_with_cache md5_hexdigest http_get url w =
  match http_get url with
  | Unreachable => (Raise ConnectionError, World (files w) (requests w ++ [url]))
  | Response status_code content =>
      if status_is_error status_code
      then (Raise HTTPError, World (files w) (requests w ++ [url]))
      else (Ok content,
            World (<[cache_path md5_hexdigest url := content]> (files w)) (requests w ++ [url]))
  end.
Proof. intros H. unfold fetch_with_cache. rewrite H. reflexivity. Qed.


Variable anchor_hrefs : pystr -> list pystr.

(** C7, as the code has it: the test is on the URL strings, not on paths.
    Of the anchors whose [href] contains "voigtlander", a link is
    kept exactly when it starts with the mount URL and differs from it once
    trailing slashes are removed from both; so the mount URL itself, with a
    slash added or with its slashes removed, is never kept; and the result
    is a set, every URL in it once. *)
Theorem get_lens_links_spec (mount_url : pystr) (w w' : world) (content : pystr) :
  fetch_with_cache md5_hexdigest http_get mount_url w = (Ok content, w') ->
  exists links,
    get_lens_links md5_hexdigest http_get anchor_hrefs mount_url w = (Ok links, w')
    /\ (forall link,
          link ∈ anchor_hrefs content -> contains (u "voigtlander") link = true ->
          (link ∈ links
           <-> startswith mount_url link = true /\ rstrip 47 link <> rstrip 47 mount_url))
    /\ (forall link, link ∈ links ->
          link ∈ anchor_hrefs content /\ contains (u "voigtlander") link = true)
    /\ (mount_url ∉ links)
    /\ (mount_url ++ u "/" ∉ links)
    /\ (rstrip 47 mount_url ∉ links)
    /\ NoDup (elements links).
Proof.
  intros Hfetch.
  exists (lens_links_of mount_url (select_lens_anchors anchor_hrefs content)).
  assert (Hin : forall link,
    link ∈ lens_links_of mount_url (select_lens_anchors anchor_hrefs content)
    <-> (link ∈ anchor_hrefs content /\ contains (u "voigtlander") link = true)
        /\ startswith mount_url link = true /\ rstrip 47 link <> rstrip 47 mount_url).
  { intros link. unfold lens_links_of. rewrite lens_links_of_spec.
    unfold select_lens_anchors. rewrite list_elem_of_filter, is_lens_link_spec.
    rewrite elem_of_empty. tauto. }
  split; [|split; [|split; [|split; [|split; [|split]]]]].
  - unfold get_lens_links, bind, ret. rewrite Hfetch. reflexivity.
  - intros link H1 H2. rewrite Hin. tauto.
  - intros link H. apply Hin in H. tauto.
  - intros H. apply Hin in H. tauto.
  - intros H. apply Hin in H. destruct H as (_ & _ & H). apply H.
    apply (rstrip_snoc 47).
  - intros H. apply Hin in H. destruct H as (_ & _ & H). apply H.
    apply rstrip_idempotent.
  - apply NoDup_elements.
Qed.

Variable select_mount_items : pystr -> list mount_item.

(** C10.  When every entry of the mount listing has a link and a name,
    the names of the resulting dictionary are all different, a name other
    than "ACCESSORIES" is mapped to the URL of the last entry carrying it,
    and "ACCESSORIES" is not among the names. *)
Theorem get_mount_pages_last_wins (entries : list (pystr * pystr))
    (w w' : world) (content : pystr) :
  fetch_with_cache md5_hexdigest http_get BASE_URL w = (Ok content, w') ->
  select_mount_items content = map item_of entries ->
  exists mounts,
    get_mount_pages md5_hexdigest http_get select_mount_items w = (Ok mounts, w')
    /\ NoDup (map fst mounts)
    /\ (forall before url name after,
          entries = before ++ (url, name) :: after ->
          name <> u "ACCESSORIES" -> name ∉ map snd after ->
          dict_lookup mounts name = Some url)
    /\ dict_lookup mounts (u "ACCESSORIES") = None.
Proof using md5_hexdigest http_get select_mount_items.
  intros Hfetch Hitems. exists (fold_left record_mount entries []).
  split; [|split; [|split]].
  - unfold get_mount_pages, bind, ret, mounts_of_items.
    rewrite Hfetch, Hitems, fold_add_mount. reflexivity.
  - apply record_mounts_nodup. constructor.
  - intros before url name after -> Hacc Hlast. apply record_mounts_last; assumption.
  - apply record_mounts_accessories. reflexivity.
Qed.

End SiteFacts.

(** The links of the sample mount page. *)
Lemma get_lens_links_spec_witness :
  exists links,
    get_lens_links sample_md5 sample_http sample_anchors
      (u "https://www.cosina.co.jp/voigtlander/vm/") empty_world
    = (Ok links, World {[ u "cache/https://www.cosina.co.jp/voigtlander/vm/.html" := u "vm" ]}
                       [u "https://www.cosina.co.jp/voigtlander/vm/"])
    /\ u "https://www.cosina.co.jp/voigtlander/vm/nokton-50/" ∈ links
    /\ u "https://www.cosina.co.jp/voigtlander/vm/" ∉ links.
Proof.
  destruct (get_lens_links_spec sample_md5 sample_http sample_anchors
              (u "https://www.cosina.co.jp/voigtlander/vm/") empty_world
              (World {[ u "cache/https://www.cosina.co.jp/voigtlander/vm/.html" := u "vm" ]}
                     [u "https://www.cosina.co.jp/voigtlander/vm/"])
              (u "vm") eq_refl)
    as (links & Hrun & Hkept & _ & Hself & _).
  exists links. split; [exact Hrun|]. split; [|exact Hself].
  apply Hkept.
  - unfold sample_anchors. rewrite !elem_of_cons. auto.
  - vm_compute. reflexivity.
  - split; [vm_compute; reflexivity | vm_compute; discriminate].
Defined.

(** The spec-worded test on sample links. *)
Example spec_path_ex :
  spec_path (u "https://www.cosina.co.jp/voigtlander/vm/?page=2#top") = u "/voigtlander/vm/"
  /\ spec_origin (u "https://www.cosina.co.jp/voigtlander/vm/") = u "https://www.cosina.co.jp"
  /\ path_segments (u "/voigtlander/vm/") = [u "voigtlander"; u "vm"]
  /\ spec_keeps_link (u "https://www.cosina.co.jp/voigtlander/vm/")
       (u "https://www.cosina.co.jp/voigtlander/vm/nokton-50/") = true
  /\ spec_keeps_link (u "https://www.cosina.co.jp/voigtlander/vm/")
       (u "https://www.cosina.co.jp/voigtlander/vm") = false.
Proof. repeat split; vm_compute; reflexivity. Qed.

(** C7 as stated fails in both directions.  For the mount URL written
    without a final slash, a link into a sibling directory whose name begins
    with the mount's is kept, though its path is no descendant of the mount
    path; and a link to the mount page itself with a query is kept, though
    its normalized path is that of the mount URL. *)
Lemma get_lens_links_not_by_path :
  (exists links w',
     get_lens_links sample_md5 shop_http
       (fun _ => [u "https://www.cosina.co.jp/voigtlander/vm-new/heliar-40/"])
       (u "https://www.cosina.co.jp/voigtlander/vm") empty_world = (Ok links, w')
     /\ contains (u "voigtlander") (u "https://www.cosina.co.jp/voigtlander/vm-new/heliar-40/") = true
     /\ u "https://www.cosina.co.jp/voigtlander/vm-new/heliar-40/" ∈ links
     /\ spec_keeps_link (u "https://www.cosina.co.jp/voigtlander/vm")
          (u "https://www.cosina.co.jp/voigtlander/vm-new/heliar-40/") = false)
  /\ (exists links w',
        get_lens_links sample_md5 shop_http
          (fun _ => [u "https://www.cosina.co.jp/voigtlander/vm/?page=2"])
          (u "https://www.cosina.co.jp/voigtlander/vm/") empty_world = (Ok links, w')
        /\ contains (u "voigtlander") (u "https://www.cosina.co.jp/voigtlander/vm/?page=2") = true
        /\ u "https://www.cosina.co.jp/voigtlander/vm/?page=2" ∈ links
        /\ spec_keeps_link (u "https://www.cosina.co.jp/voigtlander/vm/")
             (u "https://www.cosina.co.jp/voigtlander/vm/?page=2") = false).
Proof.
  split.
  - eexists _, _. split; [|split; [|split]].
    + unfold get_lens_links, bind, ret. rewrite fetch_miss by reflexivity. reflexivity.
    + vm_compute. reflexivity.
    + unfold lens_links_of. apply lens_links_of_spec. right. split.
      * unfold select_lens_anchors. apply list_elem_of_filter.
        split; [vm_compute; reflexivity | apply list_elem_of_here].
      * vm_compute. reflexivity.
    + vm_compute. reflexivity.
  - eexists _, _. split; [|split; [|split]].
    + unfold get_lens_links, bind, ret. rewrite fetch_miss by reflexivity. reflexivity.
    + vm_compute. reflexivity.
    + unfold lens_links_of. apply lens_links_of_spec. right. split.
      * unfold select_lens_anchors. apply list_elem_of_filter.
        split; [vm_compute; reflexivity | apply list_elem_of_here].
      * vm_compute. reflexivity.
    + vm_compute. reflexivity.
Qed.


(** The sample homepage lists one name twice. *)
Lemma get_mount_pages_last_wins_witness :
  exists mounts,
    get_mount_pages sample_md5 sample_http sample_mount_items empty_world
    = (Ok mounts,
       World {[ u "cache/https://www.cosina.co.jp/voigtlander/.html" := u "home" ]} [BASE_URL])
    /\ dict_lookup mounts (u "VM-Mount") = Some (u "https://www.cosina.co.jp/voigtlander/vm-new/").
Proof.
  destruct (get_mount_pages_last_wins sample_md5 sample_http sample_mount_items
              sample_entries empty_world
              (World {[ u "cache/https://www.cosina.co.jp/voigtlander/.html" := u "home" ]}
                     [BASE_URL])
              (u "home") eq_refl eq_refl)
    as (mounts & Hrun & _ & Hlast & _).
  exists mounts. split; [exact Hrun|].
  apply (Hlast (firstn 2 sample_entries) _ _ []).
  - reflexivity.
  - vm_compute. discriminate.
  - apply not_elem_of_nil.
Defined.

(** C8, as the code has it.  A record without a focal-length field has sort key 0, without an
    error, as has a record whose focal length is "0"; the key of a record
    with the field is the value of the first numeric substring of the field;
    and when every such substring is a numeral the rows come out as a
    rearrangement of the records in ascending order of their keys, records
    with equal keys in the order they had. *)
Theorem sort_lenses_ascending :
  (forall x : lens, x !! "focal_length"%string = None -> focal_key x = Ok (Finite 0))
  /\ (forall x : lens, x !! "focal_length"%string = Some (u "0") -> focal_key x = Ok (Finite 0))
  /\ (forall (x : lens) v token others f,
        x !! "focal_length"%string = Some v ->
        numeric_substrings v = token :: others -> py_float token = Some f ->
        focal_key x = Ok f)
  /\ (forall lenses : list lens,
        Forall parsable_focal lenses ->
        exists sorted, sort_lenses lenses = Ok sorted
                       /\ Permutation lenses sorted /\ StronglySorted key_le sorted)
  /\ (forall (lenses sorted : list lens) (k : pyfloat),
        sort_lenses lenses = Ok sorted -> k <> NaN ->
        List.filter (has_key k) sorted = List.filter (has_key k) lenses).
Proof.
  split; [|split; [|split; [|split]]].
  - apply focal_key_missing.
  - intros x H. apply (focal_key_first_token x (u "0") (u "0") [] (Finite 0) H); reflexivity.
  - apply focal_key_first_token.
  - apply sort_lenses_sorted.
  - apply sort_lenses_stable.
Qed.

(** Three sample records, one of them without a focal length. *)
Lemma sort_lenses_ascending_witness :
  focal_key sample_lens_unnamed = Ok (Finite 0)
  /\ exists sorted,
       sort_lenses [sample_lens_50; sample_lens_unnamed; sample_lens_21] = Ok sorted
       /\ Permutation [sample_lens_50; sample_lens_unnamed; sample_lens_21] sorted
       /\ StronglySorted key_le sorted.
Proof.
  destruct sort_lenses_ascending as (Hmissing & _ & _ & Hsort & _). split.
  - apply Hmissing. vm_compute. reflexivity.
  - apply Hsort. repeat constructor; intros v Hv; vm_compute in Hv.
    + injection Hv as <-. exists (u "50"), [], (Finite 50). split; vm_compute; reflexivity.
    + discriminate Hv.
    + injection Hv as <-. exists (u "21"), [], (Finite 21). split; vm_compute; reflexivity.
Defined.

(** C8 as stated fails: not every collection is sorted.  The cell
    [format_focal] builds for [inf] holds no digit, and the sort of a
    collection with such a record raises. *)
Lemma sort_lenses_without_number_raises :
  format_focal (u "inf") = Ok (cell_header (u "dfd") [] ++ u "|inf")
  /\ sort_lenses [sample_lens_50;
                  {[ "focal_length"%string := cell_header (u "dfd") [] ++ u "|inf" ]}]
     = Raise IndexError
  /\ ~ exists sorted,
         sort_lenses [sample_lens_50;
                      {[ "focal_length"%string := cell_header (u "dfd") [] ++ u "|inf" ]}]
         = Ok sorted.
Proof.
  assert (H : sort_lenses [sample_lens_50;
                {[ "focal_length"%string := cell_header (u "dfd") [] ++ u "|inf" ]}]
              = Raise IndexError) by (vm_compute; reflexivity).
  split; [vm_compute; reflexivity|]. split; [exact H|].
  intros [sorted Hs]. rewrite H in Hs. discriminate Hs.
Qed.

Example sort_lenses_ex :
  sort_lenses [sample_lens_50; sample_lens_unnamed; sample_lens_21]
  = Ok [sample_lens_unnamed; sample_lens_21; sample_lens_50].
Proof. vm_compute. reflexivity. Qed.

(** * The cache and the request log only grow *)

Lemma grows_refl w : grows w w.
Proof. split; reflexivity. Qed.

Lemma grows_trans w1 w2 w3 : grows w1 w2 -> grows w2 w3 -> grows w1 w3.
Proof. intros [F1 R1] [F2 R2]. split; etrans; eassumption. Qed.

Lemma monotone_ret {A} (a : A) : monotone (ret a).
Proof. intros w. apply grows_refl. Qed.

Lemma monotone_throw {A} e : monotone (@throw A e).
Proof. intros w. apply grows_refl. Qed.

Lemma monotone_bind {A B} (m : io A) (f : A -> io B) :
  monotone m -> (forall a, monotone (f a)) -> monotone (bind m f).
Proof.
  intros Hm Hf w. unfold bind. specialize (Hm w).
  destruct (m w) as [[a|e] w1]; simpl in *; [|exact Hm].
  eapply grows_trans; [exact Hm | apply Hf].
Qed.

Lemma fetch_with_cache_steps md5 http url w :
  let w' := snd (fetch_with_cache md5 http url w) in
  (w' = w /\ is_Some (files w !! cache_path md5 url))
  \/ (files w !! cache_path md5 url = None /\ requests w' = requests w ++ [url]
      /\ (files w' = files w
          \/ exists content, files w' = <[cache_path md5 url := content]> (files w))).
Proof.
  unfold fetch_with_cache. destruct (files w !! cache_path md5 url) as [body|] eqn:E.
  - left. split; [reflexivity | eauto].
  - right. split; [reflexivity|].
    destruct (http url) as [|status_code content]; [split; [reflexivity | left; reflexivity]|].
    destruct (status_is_error status_code); simpl; split; eauto.
Qed.

Lemma monotone_fetch md5 http url : monotone (fetch_with_cache md5 http url).
Proof.
  intros w. destruct (fetch_with_cache_steps md5 http url w) as [[-> _]|(Hnone & Hr & Hf)].
  - apply grows_refl.
  - split.
    + destruct Hf as [->|[content ->]]; [reflexivity|].
      apply insert_subseteq. exact Hnone.
    + rewrite Hr. apply prefix_app_r. reflexivity.
Qed.

Lemma monotone_match_result {A B} (r : result A) (f : A -> io B) :
  (forall a, monotone (f a)) ->
  monotone (match r with Ok a => f a | Raise e => throw e end).
Proof. intros Hf. destruct r; [apply Hf | apply monotone_throw]. Qed.

Lemma monotone_get_mount_pages md5 http items : monotone (get_mount_pages md5 http items).
Proof.
  apply monotone_bind; [apply monotone_fetch|]. intros content.
  apply monotone_match_result. intros a. apply monotone_ret.
Qed.

Lemma monotone_get_lens_links md5 http anchors mount_url :
  monotone (get_lens_links md5 http anchors mount_url).
Proof.
  apply monotone_bind; [apply monotone_fetch|]. intros content. apply monotone_ret.
Qed.

Lemma monotone_parse_lens_page S lens_url : monotone (parse_lens_page S lens_url).
Proof.
  apply monotone_bind; [apply monotone_fetch|]. intros content.
  apply monotone_match_result. intros specs.
  destruct (site_category S content); [|apply monotone_throw].
  destruct (site_model S content); [apply monotone_ret | apply monotone_throw].
Qed.

Lemma monotone_parse_all S lens_links : monotone (parse_all S lens_links).
Proof.
  induction lens_links as [|l rest IH]; [apply monotone_ret|].
  apply monotone_bind; [apply monotone_parse_lens_page|]. intros x.
  apply monotone_bind; [exact IH|]. intros xs. apply monotone_ret.
Qed.

Lemma monotone_crawl_mount S order mount_url mount_name :
  monotone (crawl_mount S order mount_url mount_name).
Proof.
  apply monotone_bind; [apply monotone_get_lens_links|]. intros links.
  apply monotone_bind; [apply monotone_parse_all|]. intros lenses.
  apply monotone_match_result. intros sorted. apply monotone_ret.
Qed.

Lemma crawl_all_grows S order mounts : forall printed w,
  grows w (snd (crawl_all S order mounts printed w)).
Proof.
  induction mounts as [|[name url] rest IH]; intros printed w; [apply grows_refl|].
  simpl. pose proof (monotone_crawl_mount S order url name w) as H.
  destruct (crawl_mount S order url name w) as [[table|e] w1]; simpl in *; [|exact H].
  eapply grows_trans; [exact H | apply IH].
Qed.

(** * The tables of a run *)

Lemma crawl_mount_table S order mount_url mount_name w table w' :
  crawl_mount S order mount_url mount_name w = (Ok table, w') ->
  table_head mount_url mount_name `prefix_of` table.
Proof.
  unfold crawl_mount, bind, ret, throw. intros H.
  destruct (get_lens_links _ _ _ _ w) as [[links|e] w1]; [|discriminate].
  destruct (parse_all S (order links) w1) as [[lenses|e] w2]; [|discriminate].
  destruct (sort_lenses lenses) as [sorted|e]; [|discriminate].
  injection H as <- _. unfold render_table. apply prefix_app_r. reflexivity.
Qed.

Lemma crawl_all_printed S order mounts : forall printed w out r w',
  crawl_all S order mounts printed w = (out, r, w') ->
  exists tables,
    out = printed ++ tables
    /\ (length tables <= length mounts)%nat
    /\ (r = Ok tt <-> length tables = length mounts)
    /\ (forall i t, tables !! i = Some t ->
          exists name url, mounts !! i = Some (name, url) /\ table_head url name `prefix_of` t).
Proof.
  induction mounts as [|[name url] rest IH]; intros printed w out r w' H; simpl in H.
  - injection H as <- <- _. exists []. rewrite app_nil_r.
    split; [reflexivity|]. split; [reflexivity|]. split; [tauto|].
    intros i t Hi. rewrite lookup_nil in Hi. discriminate.
  - destruct (crawl_mount S order url name w) as [[table|e] w1] eqn:E.
    + apply IH in H as (tables & -> & Hlen & Hok & Hhead).
      exists (table :: tables). rewrite <- app_assoc. simpl.
      split; [reflexivity|]. split; [lia|]. split.
      * rewrite Hok. split; lia.
      * intros [|i] t Hi; simpl in Hi.
        -- injection Hi as <-. exists name, url. split; [reflexivity|].
           eapply crawl_mount_table. exact E.
        -- apply Hhead. exact Hi.
    + injection H as <- <- _. exists []. rewrite app_nil_r. simpl.
      split; [reflexivity|]. split; [lia|]. split; [split; discriminate|].
      intros i t Hi. rewrite lookup_nil in Hi. discriminate.
Qed.

(** * More on the mount dictionary *)

Lemma fold_add_mount_raise items e : fold_left add_mount items (Raise e) = Raise e.
Proof. induction items as [|i items IH]; [reflexivity | exact IH]. Qed.

Lemma complete_items_entries items :
  forallb complete_item items = true <-> exists entries, items = map item_of entries.
Proof.
  split.
  - induction items as [|[[url|] [name|]] items IH]; simpl; try discriminate.
    + intros _. exists []. reflexivity.
    + intros H. destruct (IH H) as [entries ->]. exists ((url, name) :: entries). reflexivity.
  - intros [entries ->]. induction entries as [|[url name] entries IH]; [reflexivity | exact IH].
Qed.

Lemma mounts_of_items_incomplete entries item rest :
  complete_item item = false ->
  mounts_of_items (map item_of entries ++ item :: rest)
  = Raise (match href item with None => KeyError | Some _ => AttributeError end).
Proof.
  intros H. unfold mounts_of_items. rewrite fold_left_app, fold_add_mount. simpl.
  destruct item as [[url|] [name|]]; simpl in *; try discriminate; apply fold_add_mount_raise.
Qed.

Lemma mounts_of_items_ok items :
  (exists mounts, mounts_of_items items = Ok mounts) <-> forallb complete_item items = true.
Proof.
  split.
  - intros [mounts H]. destruct (forallb complete_item items) eqn:E; [reflexivity|].
    exfalso. revert mounts H.
    assert (Hsplit : exists entries item rest,
               items = map item_of entries ++ item :: rest /\ complete_item item = false).
    { induction items as [|i items IH]; [discriminate|].
      simpl in E. destruct (complete_item i) eqn:Hi.
      - destruct (IH E) as (entries & item & rest & -> & Hitem).
        destruct i as [[url|] [name|]]; try discriminate.
        exists ((url, name) :: entries), item, rest. split; [reflexivity | exact Hitem].
      - exists [], i, items. split; [reflexivity | exact Hi]. }
    destruct Hsplit as (entries & item & rest & -> & Hitem).
    intros mounts. rewrite mounts_of_items_incomplete by exact Hitem. discriminate.
  - intros H. apply complete_items_entries in H as [entries ->].
    unfold mounts_of_items. rewrite fold_add_mount. eauto.
Qed.

Lemma record_mounts_lookup_some entries : forall mounts name url,
  dict_lookup (fold_left record_mount entries mounts) name = Some url ->
  dict_lookup mounts name = Some url \/ (url, name) ∈ entries.
Proof.
  induction entries as [|[u0 n0] entries IH]; intros mounts name url H; [left; exact H|].
  simpl in H. apply IH in H as [H|H]; [|right; apply list_elem_of_further; exact H].
  unfold record_mount in H. simpl in H.
  destruct (decide (n0 = u "ACCESSORIES")); [left; exact H|].
  destruct (decide (n0 = name)) as [->|Hne].
  - rewrite dict_lookup_set_eq in H. injection H as ->. right. apply list_elem_of_here.
  - rewrite dict_lookup_set_ne in H by exact Hne. left. exact H.
Qed.

Lemma listed_names_cons url name entries :
  listed_names ((url, name) :: entries)
  = if decide (name = u "ACCESSORIES") then listed_names entries
    else name :: listed_names entries.
Proof.
  unfold listed_names. simpl. destruct (decide (name = u "ACCESSORIES")) as [E|E].
  - rewrite bool_decide_eq_true_2 by exact E. reflexivity.
  - rewrite bool_decide_eq_false_2 by exact E. reflexivity.
Qed.

Lemma record_mounts_lookup_none entries : forall mounts name,
  dict_lookup (fold_left record_mount entries mounts) name = None
  <-> dict_lookup mounts name = None /\ name ∉ listed_names entries.
Proof.
  induction entries as [|[u0 n0] entries IH]; intros mounts name.
  - simpl. split; [intros H; split; [exact H | apply not_elem_of_nil] | tauto].
  - simpl. rewrite IH, listed_names_cons. unfold record_mount. simpl.
    destruct (decide (n0 = u "ACCESSORIES")); [reflexivity|].
    rewrite not_elem_of_cons. destruct (decide (n0 = name)) as [->|Hne].
    + rewrite dict_lookup_set_eq. split; [intros [[=] _] | intros (_ & ? & _); congruence].
    + rewrite dict_lookup_set_ne by exact Hne. split; [intros [? ?] | intros (? & ? & ?)]; auto.
Qed.

Lemma filter_seen_key (keys : list pystr) n0 l :
  n0 ∈ keys ->
  List.filter (fun y => negb (bool_decide (y ∈ keys))) l
  = List.filter (fun y => negb (bool_decide (y ∈ keys)))
      (List.filter (fun y => negb (bool_decide (y = n0))) l).
Proof.
  intros Hin. induction l as [|y l IHl]; [reflexivity|].
  simpl. destruct (decide (y = n0)) as [->|Hy].
  - rewrite (bool_decide_eq_true_2 _ Hin), (bool_decide_eq_true_2 (n0 = n0)) by reflexivity.
    simpl. exact IHl.
  - rewrite (bool_decide_eq_false_2 (y = n0)) by exact Hy. simpl. rewrite IHl. reflexivity.
Qed.

Lemma filter_new_key (keys : list pystr) n0 l :
  List.filter (fun y => negb (bool_decide (y ∈ keys ++ [n0]))) l
  = List.filter (fun y => negb (bool_decide (y ∈ keys)))
      (List.filter (fun y => negb (bool_decide (y = n0))) l).
Proof.
  induction l as [|y l IHl]; [reflexivity|].
  simpl. destruct (decide (y = n0)) as [->|Hy].
  - rewrite (bool_decide_eq_true_2 (n0 = n0)) by reflexivity.
    rewrite (bool_decide_eq_true_2 (n0 ∈ keys ++ [n0]))
      by (apply elem_of_app; right; apply list_elem_of_here).
    simpl. exact IHl.
  - rewrite (bool_decide_eq_false_2 (y = n0)) by exact Hy. simpl. rewrite <- IHl.
    destruct (decide (y ∈ keys)) as [Hy'|Hy'].
    + rewrite (bool_decide_eq_true_2 _ Hy').
      rewrite (bool_decide_eq_true_2 (y ∈ keys ++ [n0])) by (apply elem_of_app; left; exact Hy').
      reflexivity.
    + rewrite (bool_decide_eq_false_2 _ Hy').
      rewrite (bool_decide_eq_false_2 (y ∈ keys ++ [n0]))
        by (rewrite elem_of_app, list_elem_of_singleton; tauto).
      reflexivity.
Qed.

(** The keys after the loop: those there before, then the new names in the
    order in which they are first seen. *)
Lemma record_mounts_keys entries : forall mounts,
  map fst (fold_left record_mount entries mounts)
  = map fst mounts
    ++ List.filter (fun y => negb (bool_decide (y ∈ map fst mounts)))
         (first_seen (listed_names entries)).
Proof.
  induction entries as [|[u0 n0] entries IH]; intros mounts.
  - simpl. rewrite app_nil_r. reflexivity.
  - simpl. rewrite IH, listed_names_cons. unfold record_mount. simpl.
    destruct (decide (n0 = u "ACCESSORIES")); [reflexivity|].
    rewrite dict_set_keys. cbn [first_seen List.filter].
    destruct (decide (n0 ∈ map fst mounts)) as [Hin|Hin].
    + rewrite (bool_decide_eq_true_2 _ Hin). simpl. f_equal.
      apply filter_seen_key. exact Hin.
    + rewrite (bool_decide_eq_false_2 _ Hin). simpl. rewrite <- app_assoc. simpl. do 2 f_equal.
      apply filter_new_key.
Qed.

Lemma filter_all_kept (l : list pystr) :
  List.filter (fun y => negb (bool_decide (y ∈ @nil pystr))) l = l.
Proof.
  induction l as [|y l IH]; [reflexivity|]. cbn [List.filter].
  destruct (bool_decide (y ∈ @nil pystr)) eqn:E.
  - apply bool_decide_eq_true in E. apply elem_of_nil in E. contradiction.
  - cbn [negb]. rewrite IH. reflexivity.
Qed.

(** * Links under a mount URL *)

Lemma rstrip_only c s : only_char c s = true -> rstrip c s = [].
Proof.
  induction s as [|a s IH]; [reflexivity|]. simpl.
  intros H. apply andb_true_iff in H as [Ha H]. rewrite (IH H), Ha. reflexivity.
Qed.

Lemma rstrip_not_only c s : only_char c s = false -> rstrip c s <> [].
Proof.
  induction s as [|a s IH]; [discriminate|]. simpl. intros H.
  destruct (rstrip c s) as [|b r] eqn:E; [|discriminate].
  destruct (a =? c) eqn:Ha; [|discriminate].
  simpl in H. destruct (only_char c s); [discriminate|]. exfalso. apply IH; reflexivity.
Qed.

Lemma rstrip_app_only c s t : only_char c t = true -> rstrip c (s ++ t) = rstrip c s.
Proof.
  intros H. induction s as [|a s IH]; simpl.
  - apply rstrip_only. exact H.
  - rewrite IH. reflexivity.
Qed.

Lemma rstrip_app_keep c s t : rstrip c t <> [] -> rstrip c (s ++ t) = s ++ rstrip c t.
Proof.
  intros H. induction s as [|a s IH]; [reflexivity|].
  simpl. rewrite IH. destruct (s ++ rstrip c t) as [|b r] eqn:E; [|reflexivity].
  apply app_eq_nil in E as [_ E]. contradiction.
Qed.

Lemma rstrip_length c s : (length (rstrip c s) <= length s)%nat.
Proof.
  induction s as [|a s IH]; [reflexivity|]. simpl.
  destruct (rstrip c s) as [|b r].
  - destruct (a =? c); simpl; lia.
  - simpl in *. lia.
Qed.

(** * Normalizing twice *)

(** Two runs of [ok] characters, each followed by a character that is not
    [ok], at the start of the same text, are the same run. *)
Lemma run_unique (ok : char -> bool) (a : pystr) : forall b x y r r',
  forallb ok a = true -> forallb ok b = true -> ok x = false -> ok y = false ->
  a ++ x :: r = b ++ y :: r' -> a = b /\ x = y.
Proof.
  induction a as [|c a IH]; intros [|d b] x y r r' Ha Hb Hx Hy E; simpl in *.
  - injection E as -> _. split; reflexivity.
  - injection E as -> _. apply andb_true_iff in Hb as [Hd _]. congruence.
  - injection E as -> _. apply andb_true_iff in Ha as [Hc _]. congruence.
  - injection E as -> E. apply andb_true_iff in Ha as [_ Ha]. apply andb_true_iff in Hb as [_ Hb].
    destruct (IH b x y r r' Ha Hb Hx Hy E) as [-> ->]. split; reflexivity.
Qed.

Lemma format_lens_const_idempotent s t :
  format_lens_const s = Ok t -> format_lens_const t = Ok t.
Proof.
  intros H. destruct (format_lens_const_cases s) as [(n & m & rest & Hn & Hm & Hdn & Hdm & -> & H')|[_ H']];
    rewrite H' in H; injection H as <-; [|exact H'].
  apply format_lens_const_other.
  intros (n' & m' & rest' & Hn' & _ & Hdn' & _ & E).
  change (m ++ u "e/" ++ n ++ u "g") with (m ++ 101 :: (47 :: n ++ u "g")) in E.
  change (n' ++ u "群" ++ m' ++ u "枚" ++ rest') with (n' ++ 32676 :: (m' ++ u "枚" ++ rest')) in E.
  apply (run_unique is_decimal) in E as [_ E]; try assumption; try reflexivity.
  discriminate E.
Qed.

Lemma numeric_not_colon g : forallb (accepts numeric) g = true -> 58 ∉ g.
Proof.
  intros H Hin. rewrite forallb_forall in H. apply list_elem_of_In in Hin.
  specialize (H _ Hin). discriminate H.
Qed.

Lemma f_template_no_colon g :
  forallb (accepts numeric) g = true -> 58 ∉ u "{{f/|" ++ g ++ u "}}".
Proof.
  intros Hdg Hin. apply elem_of_app in Hin as [Hin|Hin]; [|apply elem_of_app in Hin as [Hin|Hin]].
  - vm_compute in Hin. repeat (apply elem_of_cons in Hin as [Hin|Hin]; [discriminate Hin|]).
    apply elem_of_nil in Hin. exact Hin.
  - exact (numeric_not_colon g Hdg Hin).
  - vm_compute in Hin. repeat (apply elem_of_cons in Hin as [Hin|Hin]; [discriminate Hin|]).
    apply elem_of_nil in Hin. exact Hin.
Qed.

Lemma format_f_number_idempotent s t :
  format_f_number s = Ok t -> format_f_number t = Ok t.
Proof.
  intros H. destruct (format_f_number_cases s) as [(g & Hg & Hdg & _ & H')|[_ H']];
    rewrite H' in H; injection H as <-; [|exact H'].
  apply format_f_number_other.
  intros (pre & sp1 & sp2 & g' & post & _ & _ & _ & _ & E).
  apply (f_template_no_colon g Hdg).
  match type of E with _ = ?rhs => assert (Hin : 58 ∈ rhs) end.
  { rewrite !elem_of_app. right. right. right. left. apply list_elem_of_here. }
  rewrite <- E in Hin. exact Hin.
Qed.

(** * The aperture pattern, exactly *)

Lemma f_number_match_exact sp1 sp2 g rest :
  opt_space sp1 -> opt_space sp2 -> g <> [] -> forallb (accepts numeric) g = true ->
  stops (accepts numeric) rest ->
  match_here f_number_re (u "1" ++ sp1 ++ u ":" ++ sp2 ++ g ++ rest) = Some ([g], rest).
Proof.
  intros H1 H2 Hne Hrun Hstop.
  assert (Hsp : stops (accepts (Lit 32)) (g ++ rest)).
  { destruct g as [|c g]; [congruence|]. simpl in *.
    destruct (N.eqb_spec c 32) as [->|]; [discriminate | reflexivity]. }
  unfold f_number_re.
  pose proof (match_plus_intro numeric true [] g rest [] rest Hne Hrun Hstop eq_refl) as M.
  assert (M2 : match_here [Piece (Lit 32) Opt false; Piece numeric Plus true]
                 (sp2 ++ g ++ rest) = Some ([g], rest)).
  { destruct H2 as [->| ->].
    - apply (match_opt_skip (Lit 32) false); [exact Hsp | exact M].
    - apply (match_opt_take (Lit 32) false); [reflexivity | exact M]. }
  pose proof (match_once_intro (Lit 58) false _ 58 _ _ _ (N.eqb_refl 58) M2) as M3.
  assert (M4 : match_here [Piece (Lit 32) Opt false; Piece (Lit 58) Once false;
                           Piece (Lit 32) Opt false; Piece numeric Plus true]
                 (sp1 ++ u ":" ++ sp2 ++ g ++ rest) = Some ([g], rest)).
  { destruct H1 as [->| ->].
    - apply (match_opt_skip (Lit 32) false); [reflexivity | exact M3].
    - apply (match_opt_take (Lit 32) false); [reflexivity | exact M3]. }
  apply (match_once_intro (Lit 49) false); [reflexivity | exact M4].
Qed.

Lemma f_number_needs_one c s : c <> 49 -> match_here f_number_re (c :: s) = None.
Proof.
  intros Hc. unfold f_number_re. cbn [match_here accepts].
  destruct (N.eqb_spec c 49) as [->|_]; [congruence | reflexivity].
Qed.

Lemma re_search_here p s gs r : match_here p s = Some (gs, r) -> re_search p s = Some gs.
Proof. intros H. destruct s; simpl in *; rewrite H; reflexivity. Qed.

Lemma f_number_search_skip pre suf :
  none_of (fun c => c =? 49) pre = true ->
  re_search f_number_re (pre ++ suf) = re_search f_number_re suf.
Proof.
  induction pre as [|c pre IH]; [reflexivity|]. intros H.
  simpl in H. apply andb_true_iff in H as [Hc H].
  change ((c :: pre) ++ suf) with (c :: pre ++ suf). cbn [re_search].
  rewrite f_number_needs_one.
  - apply IH. exact H.
  - intros ->. discriminate Hc.
Qed.

(** * Runs in a text put together from runs *)

Lemma runs_skip ok pre s : none_of ok pre = true -> runs ok [] (pre ++ s) = runs ok [] s.
Proof.
  induction pre as [|c pre IH]; [reflexivity|]. intros H.
  simpl in H. apply andb_true_iff in H as [Hc H]. apply negb_true_iff in Hc.
  simpl. rewrite Hc. apply IH. exact H.
Qed.

Lemma runs_none ok s : none_of ok s = true -> runs ok [] s = [].
Proof. intros H. rewrite <- (app_nil_r s). rewrite runs_skip by exact H. reflexivity. Qed.

Lemma none_of_stops ok s : none_of ok s = true -> stops ok s.
Proof.
  destruct s as [|c s]; [exact (fun _ => I)|]. simpl. intros H.
  apply andb_true_iff in H as [H _]. apply negb_true_iff in H. exact H.
Qed.

Lemma stops_app ok s t : s <> [] -> stops ok s -> stops ok (s ++ t).
Proof. destruct s; [congruence | exact (fun _ H => H)]. Qed.

Lemma runs_first ok pre run post :
  none_of ok pre = true -> run <> [] -> forallb ok run = true -> stops ok post ->
  runs ok [] (pre ++ run ++ post) = run :: runs ok [] post.
Proof.
  intros Hpre Hne Hrun Hstop. rewrite runs_skip by exact Hpre.
  rewrite runs_app by exact Hrun. apply runs_stop; assumption.
Qed.

Lemma runs_join ok sep post nums :
  sep <> [] -> none_of ok sep = true -> none_of ok post = true ->
  Forall (fun n => n <> [] /\ forallb ok n = true) nums ->
  runs ok [] (join sep nums ++ post) = nums.
Proof.
  intros Hsep Hnsep Hpost H. induction H as [|n nums [Hne Hn] H IH].
  - simpl. apply runs_none. exact Hpost.
  - destruct nums as [|n2 nums].
    + simpl. rewrite <- (app_nil_l (n ++ post)).
      rewrite runs_first; [|reflexivity|exact Hne|exact Hn|apply none_of_stops; exact Hpost].
      rewrite runs_none by exact Hpost. reflexivity.
    + change (join sep (n :: n2 :: nums)) with (n ++ sep ++ join sep (n2 :: nums)).
      rewrite <- !app_assoc. rewrite <- (app_nil_l (n ++ _)).
      rewrite runs_first; [|reflexivity|exact Hne|exact Hn|].
      * rewrite runs_skip by exact Hnsep. rewrite IH. reflexivity.
      * apply stops_app; [exact Hsep | apply none_of_stops; exact Hnsep].
Qed.

Lemma runs_nonempty ok s : forall cur, Forall (fun r => r <> []) (runs ok cur s).
Proof.
  induction s as [|c s IH]; intros cur; simpl.
  - destruct cur; repeat constructor. discriminate.
  - destruct (ok c); [apply IH|].
    destruct cur; [apply IH|]. constructor; [discriminate | apply IH].
Qed.

Lemma numeric_substrings_tokens s :
  Forall (fun n => n <> [] /\ forallb (accepts numeric) n = true) (numeric_substrings s).
Proof.
  unfold numeric_substrings.
  pose proof (runs_nonempty (accepts numeric) s []) as H1.
  pose proof (runs_all (accepts numeric) s [] eq_refl) as H2.
  induction H1 as [|n l Hn H1 IH]; [constructor|].
  inversion H2; subst. constructor; [split; assumption | apply IH; assumption].
Qed.

(** * Converting twice *)

Lemma contains_char c s : contains [c] s = true <-> In c s.
Proof.
  rewrite contains_iff. split.
  - intros (a & b & ->). apply in_or_app. right. left. reflexivity.
  - intros H. apply in_split in H as (a & b & ->). exists a, b. reflexivity.
Qed.

Lemma contains_char_false c s : none_of (fun x => x =? c) s = true -> contains [c] s = false.
Proof.
  intros H. destruct (contains [c] s) eqn:E; [|reflexivity].
  apply contains_char in E. unfold none_of in H. rewrite forallb_forall in H.
  specialize (H _ E). rewrite N.eqb_refl in H. discriminate H.
Qed.

Lemma none_of_app ok s t : none_of ok (s ++ t) = none_of ok s && none_of ok t.
Proof. apply forallb_app. Qed.

Lemma plain_unit_numeric unit : plain_unit unit = true -> none_of (accepts numeric) unit = true.
Proof.
  unfold plain_unit, none_of. rewrite !forallb_forall. intros H c Hc.
  specialize (H c Hc). apply andb_true_iff in H as [H _]. exact H.
Qed.

Lemma plain_unit_times unit : plain_unit unit = true -> none_of (fun x => x =? 0xD7) unit = true.
Proof.
  unfold plain_unit, none_of. rewrite !forallb_forall. intros H c Hc.
  specialize (H c Hc). apply andb_true_iff in H as [_ H]. exact H.
Qed.

Lemma plain_unit_target unit : plain_unit unit = true -> plain_unit (unit_target unit) = true.
Proof.
  intros H. unfold unit_target. destruct (decide (unit = u "m")); [reflexivity | exact H].
Qed.

Lemma numeric_no_times n : forallb (accepts numeric) n = true -> none_of (fun x => x =? 0xD7) n = true.
Proof.
  unfold none_of. rewrite !forallb_forall. intros H c Hc. specialize (H c Hc).
  destruct (N.eqb_spec c 0xD7) as [->|]; [discriminate H | reflexivity].
Qed.

Lemma cvt_template_runs nums unit :
  plain_unit unit = true ->
  Forall (fun n => n <> [] /\ forallb (accepts numeric) n = true) nums ->
  numeric_substrings (cvt_template nums unit) = nums.
Proof.
  intros Hu H. unfold numeric_substrings, cvt_template.
  rewrite runs_skip by reflexivity.
  apply runs_join; [discriminate | reflexivity | | exact H].
  rewrite !none_of_app. rewrite (plain_unit_numeric _ (plain_unit_target _ Hu)). reflexivity.
Qed.

Lemma format_cvt_template nums unit :
  plain_unit unit = true ->
  Forall (fun n => n <> [] /\ forallb (accepts numeric) n = true) nums ->
  format_cvt (cvt_template nums unit) unit = Ok (cvt_template nums unit).
Proof.
  intros Hu H. rewrite format_cvt_eq. rewrite cvt_template_runs by assumption.
  destruct (contains (u "×") (cvt_template nums unit)) eqn:E; [reflexivity|].
  destruct nums as [|n [|n2 nums]]; [reflexivity | reflexivity |].
  exfalso. rewrite <- not_true_iff_false in E. apply E. apply contains_iff.
  exists (u "{{cvt|" ++ n ++ u "|"), (u "|" ++ join (u "|×|") (n2 :: nums) ++ u "|" ++ unit_target unit ++ u "}}").
  unfold cvt_template.
  change (join (u "|×|") (n :: n2 :: nums)) with (n ++ u "|×|" ++ join (u "|×|") (n2 :: nums)).
  rewrite <- !app_assoc. reflexivity.
Qed.

Lemma format_cvt_idempotent value unit t :
  plain_unit unit = true -> format_cvt value unit = Ok t -> format_cvt t unit = Ok t.
Proof.
  intros Hu H. pose proof H as H0. rewrite format_cvt_eq in H.
  pose proof (numeric_substrings_tokens value) as Htok.
  destruct (contains (u "×") value).
  - injection H as <-. apply (format_cvt_template _ _ Hu Htok).
  - destruct (numeric_substrings value) as [|first rest] eqn:E.
    + injection H as <-. exact H0.
    + injection H as <-. inversion Htok as [|? ? Hfirst _]; subst.
      apply (format_cvt_template [first] unit Hu). constructor; [exact Hfirst | constructor].
Qed.

(** * The band value and the sort key *)

Lemma Ok_inj {A} (a b : A) : Ok a = Ok b -> a = b.
Proof. intros H. congruence. Qed.

Lemma header_no_numeric f :
  none_of (accepts numeric)
    (u "! style = " ++ dquote ++ u "background:#" ++ band_color f ++ u ";" ++ dquote ++ u " ")
  = true.
Proof.
  unfold band_color.
  destruct (float_lt f 21); [reflexivity|].
  destruct (float_lt f 40); [reflexivity|].
  destruct (float_lt f 65); reflexivity.
Qed.

Lemma format_focal_first_number value out :
  focal_sort_text value <> [] ->
  forallb (accepts numeric) (focal_sort_text value) = true ->
  format_focal value = Ok out ->
  exists rest, numeric_substrings out = focal_sort_text value :: rest.
Proof.
  intros Hne Hnum H. rewrite format_focal_outcome in H.
  destruct (py_float (focal_sort_text value)) as [f|]; [|discriminate].
  apply Ok_inj in H. rewrite <- H. clear H. unfold numeric_substrings, cell_header.
  pose proof (header_no_numeric f) as Hh.
  destruct (contains dx (strip_unit value)) eqn:Hdx.
  - unfold sort_attribute. rewrite <- !app_assoc.
    eexists.
    transitivity (runs (accepts numeric) []
      ((u "! style = " ++ dquote ++ u "background:#" ++ band_color f ++ u ";" ++ dquote ++ u " "
        ++ u "data-sort-value=" ++ dquote)
       ++ focal_sort_text value ++ (dquote ++ u "|" ++ focal_display_text value))).
    { f_equal. rewrite <- !app_assoc. reflexivity. }
    apply runs_first; [|exact Hne|exact Hnum|reflexivity].
    rewrite !app_assoc. rewrite none_of_app. rewrite none_of_app.
    rewrite <- !app_assoc. rewrite Hh. reflexivity.
  - assert (Hd : focal_display_text value = focal_sort_text value).
    { unfold focal_display_text, focal_sort_text. cbv zeta. rewrite Hdx. reflexivity. }
    rewrite Hd. exists [].
    transitivity (runs (accepts numeric) []
      ((u "! style = " ++ dquote ++ u "background:#" ++ band_color f ++ u ";" ++ dquote ++ u " "
        ++ u "|") ++ focal_sort_text value ++ [])).
    { f_equal. rewrite !app_nil_r, <- !app_assoc. reflexivity. }
    apply runs_first; [|exact Hne|exact Hnum|exact I].
    rewrite !app_assoc. rewrite none_of_app.
    rewrite <- !app_assoc. rewrite Hh. reflexivity.
Qed.

Lemma focal_key_no_number value out (specs : lens) :
  contains dx (strip_unit value) = false ->
  none_of (accepts numeric) (focal_sort_text value) = true ->
  format_focal value = Ok out ->
  focal_key (<["focal_length"%string := out]> specs) = Raise IndexError.
Proof.
  intros Hdx Hnone H. rewrite format_focal_outcome in H.
  destruct (py_float (focal_sort_text value)) as [f|]; [|discriminate].
  apply Ok_inj in H. rewrite Hdx in H.
  assert (Hd : focal_display_text value = focal_sort_text value).
  { unfold focal_display_text, focal_sort_text. cbv zeta. rewrite Hdx. reflexivity. }
  rewrite Hd in H.
  unfold focal_key, dict_get_default. rewrite lookup_insert_eq, findall_numeric.
  assert (Hruns : numeric_substrings out = []).
  { rewrite <- H. unfold numeric_substrings. apply runs_none.
    rewrite none_of_app. unfold cell_header. rewrite app_nil_r.
    rewrite (header_no_numeric f). rewrite none_of_app, Hnone. reflexivity. }
  rewrite Hruns. reflexivity.
Qed.

(** * Lens pages *)

Lemma lstrip_by_in sp s x : In x (lstrip_by sp s) -> In x s.
Proof.
  induction s as [|c s IH]; simpl; [tauto|].
  destruct (sp c); [intros H; right; apply IH; exact H | exact (fun H => H)].
Qed.

Lemma rstrip_by_in sp s x : In x (rstrip_by sp s) -> In x s.
Proof.
  induction s as [|c s IH]; simpl; [tauto|].
  destruct (rstrip_by sp s) as [|b r].
  - destruct (sp c); simpl; tauto.
  - intros [H|H]; [left; exact H | right; apply IH; exact H].
Qed.

Lemma py_strip_in s x : In x (py_strip s) -> In x s.
Proof. intros H. apply lstrip_by_in with unicode_space. apply rstrip_by_in with unicode_space. exact H. Qed.

Lemma partition_char_fst c s a b : partition [c] s = Some (a, b) -> ~ In c a.
Proof.
  revert a b. induction s as [|x s IH]; intros a b H; simpl in H; [discriminate|].
  destruct (N.eqb_spec c x) as [->|Hne]; simpl in H.
  - injection H as <- _. exact (fun H => H).
  - destruct (partition [c] s) as [[a' b']|] eqn:E; [|discriminate].
    injection H as <- _. intros [Hx|Hin]; [congruence|]. exact (IH _ _ eq_refl Hin).
Qed.

Lemma split_nonempty sep s : exists a r, split sep s = a :: r.
Proof.
  unfold split. destruct (length s); simpl; [eauto|].
  destruct (partition sep s) as [[a b]|]; eauto.
Qed.

Lemma split_char_head c s a : index (split [c] s) 0 = Ok a -> ~ In c a.
Proof.
  rewrite split_eq by discriminate.
  destruct (partition [c] s) as [[a' b]|] eqn:E; simpl; intros H; apply Ok_inj in H; subst.
  - exact (partition_char_fst _ _ _ _ E).
  - intros Hin. apply contains_char in Hin. unfold contains in Hin. rewrite E in Hin. discriminate.
Qed.

Lemma blades_no_mark value blades :
  index (split (u "枚") value) 0 = Ok blades -> contains (u "枚") (py_strip blades) = false.
Proof.
  intros H. apply (split_char_head 26522) in H.
  destruct (contains (u "枚") (py_strip blades)) eqn:E; [|reflexivity].
  apply (contains_char 26522) in E. apply py_strip_in in E. contradiction.
Qed.

Lemma format_cvt_ok value unit : exists v, format_cvt value unit = Ok v.
Proof.
  rewrite format_cvt_eq. destruct (contains (u "×") value); [eauto|].
  destruct (numeric_substrings value); eauto.
Qed.

Lemma format_f_number_ok value : exists v, format_f_number value = Ok v.
Proof. destruct (format_f_number_cases value) as [(g & _ & _ & _ & H)|[_ H]]; eauto. Qed.

Lemma format_lens_const_ok value : exists v, format_lens_const value = Ok v.
Proof.
  destruct (format_lens_const_cases value) as [(n & m & rest & _ & _ & _ & _ & _ & H)|[_ H]]; eauto.
Qed.

Lemma format_focal_raises value e : format_focal value = Raise e -> e = ValueError.
Proof.
  rewrite format_focal_outcome. destruct (py_float (focal_sort_text value)); congruence.
Qed.

Lemma set_field_ok specs k r specs' :
  set_field specs k r = Ok specs' -> exists v, r = Ok v /\ specs' = <[k := v]> specs.
Proof. destruct r as [v|e]; simpl; intros H; [|discriminate]. apply Ok_inj in H. eauto. Qed.

Lemma set_field_raise specs k r e : set_field specs k r = Raise e -> r = Raise e.
Proof. destruct r as [v|e0]; simpl; intros H; [discriminate | congruence]. Qed.

(** What one row does to the record. *)
Lemma add_spec_ok lens_url specs item specs' :
  add_spec (Ok specs) item = Ok specs' ->
  specs' = specs
  \/ exists k v, k <> "reference"%string /\ k <> "name"%string
                 /\ normal_field lens_url k v /\ specs' = <[k := v]> specs.
Proof.
  unfold add_spec. destruct (unit_dt item) as [dt|]; [|discriminate].
  destruct (unit_dd item) as [dd|]; [|discriminate]. cbv zeta.
  unfold normal_field.
  repeat match goal with
         | |- (if decide ?P then _ else _) = _ -> _ => destruct (decide P) as [_|_]
         end.
  - intros H. apply set_field_ok in H as (v & Hv & ->). right. exists "focal_length"%string, v.
    repeat split; try discriminate. right. right. left. eauto.
  - intros H. apply set_field_ok in H as (v & Hv & ->). right. exists "f_number"%string, v.
    repeat split; try discriminate. do 3 right. left.
    split; [reflexivity | eapply format_f_number_idempotent; exact Hv].
  - intros H. apply set_field_ok in H as (v & Hv & ->). right. exists "min_focus"%string, v.
    repeat split; try discriminate. do 4 right. left.
    split; [reflexivity | eapply format_cvt_idempotent; [reflexivity | exact Hv]].
  - intros H. apply set_field_ok in H as (v & Hv & ->). right. exists "lens_const"%string, v.
    repeat split; try discriminate. do 5 right. left.
    split; [reflexivity | eapply format_lens_const_idempotent; exact Hv].
  - destruct (index (split (u "枚") (py_strip dd)) 0) as [blades|] eqn:E; [|discriminate].
    intros H. apply Ok_inj in H. subst. right.
    exists "aperture_blades"%string, (py_strip blades).
    repeat split; try discriminate. do 6 right. left.
    split; [reflexivity | eapply blades_no_mark; exact E].
  - intros H. apply set_field_ok in H as (v & Hv & ->). right. exists "dimensions"%string, v.
    repeat split; try discriminate. do 7 right. left.
    split; [reflexivity | eapply format_cvt_idempotent; [reflexivity | exact Hv]].
  - intros H. apply set_field_ok in H as (v & Hv & ->). right. exists "weight"%string, v.
    repeat split; try discriminate. do 8 right. left.
    split; [reflexivity | eapply format_cvt_idempotent; [reflexivity | exact Hv]].
  - destruct (bool_decide (py_strip dt ∈ filter_labels)).
    + intros H. apply Ok_inj in H. subst. right. eexists "filter_size"%string, _.
      repeat split; try discriminate. do 9 right. split; [reflexivity|].
      destruct (contains (u "不可") (py_strip dd)) eqn:E; [left; reflexivity | right; exact E].
    + intros H. apply Ok_inj in H. left. symmetry. exact H.
Qed.

Lemma add_spec_raise specs item e :
  add_spec (Ok specs) item = Raise e -> e = AttributeError \/ e = ValueError.
Proof.
  unfold add_spec. destruct (unit_dt item) as [dt|]; [|intros H; left; congruence].
  destruct (unit_dd item) as [dd|]; [|intros H; left; congruence]. cbv zeta.
  repeat match goal with
         | |- (if decide ?P then _ else _) = _ -> _ => destruct (decide P) as [_|_]
         end; intros H.
  - apply set_field_raise, format_focal_raises in H. right. exact H.
  - apply set_field_raise in H. destruct (format_f_number_ok (py_strip dd)) as [v Hv]. congruence.
  - apply set_field_raise in H. destruct (format_cvt_ok (py_strip dd) (u "m")) as [v Hv]. congruence.
  - apply set_field_raise in H. destruct (format_lens_const_ok (py_strip dd)) as [v Hv]. congruence.
  - destruct (split_nonempty (u "枚") (py_strip dd)) as (a & r & E). rewrite E in H. discriminate H.
  - apply set_field_raise in H. destruct (format_cvt_ok (py_strip dd) (u "mm")) as [v Hv]. congruence.
  - apply set_field_raise in H. destruct (format_cvt_ok (py_strip dd) (u "g")) as [v Hv]. congruence.
  - destruct (bool_decide (py_strip dt ∈ filter_labels)); discriminate H.
Qed.

Lemma fold_add_spec_raise units e : fold_left add_spec units (Raise e) = Raise e.
Proof. induction units as [|i units IH]; [reflexivity | exact IH]. Qed.

Lemma fold_add_spec_raises units : forall specs e,
  fold_left add_spec units (Ok specs) = Raise e -> e = AttributeError \/ e = ValueError.
Proof.
  induction units as [|i units IH]; intros specs e H; cbn [fold_left] in H; [discriminate|].
  destruct (add_spec (Ok specs) i) as [specs'|e'] eqn:E.
  - exact (IH _ _ H).
  - rewrite fold_add_spec_raise in H. apply add_spec_raise in E. congruence.
Qed.

Lemma fold_add_spec_fields lens_url units : forall specs specs',
  fold_left add_spec units (Ok specs) = Ok specs' ->
  specs !! "reference"%string = Some lens_url ->
  specs !! "name"%string = None ->
  (forall k v, specs !! k = Some v -> normal_field lens_url k v) ->
  specs' !! "reference"%string = Some lens_url
  /\ specs' !! "name"%string = None
  /\ (forall k v, specs' !! k = Some v -> normal_field lens_url k v).
Proof.
  induction units as [|i units IH]; intros specs specs' H Href Hname Hall; cbn [fold_left] in H.
  - apply Ok_inj in H. subst. auto.
  - destruct (add_spec (Ok specs) i) as [specs1|e] eqn:E.
    + apply (IH _ _ H).
      * apply (add_spec_ok lens_url) in E as [->|(k & v & Hk & _ & _ & ->)]; [exact Href|].
        rewrite lookup_insert_ne by exact Hk. exact Href.
      * apply (add_spec_ok lens_url) in E as [->|(k & v & _ & Hk & _ & ->)]; [exact Hname|].
        rewrite lookup_insert_ne by exact Hk. exact Hname.
      * apply (add_spec_ok lens_url) in E as [->|(k & v & _ & _ & Hv & ->)]; [exact Hall|].
        intros k0 v0. destruct (decide (k = k0)) as [->|Hne].
        -- rewrite lookup_insert_eq. intros H0. injection H0 as <-. exact Hv.
        -- rewrite lookup_insert_ne by exact Hne. apply Hall.
    + rewrite fold_add_spec_raise in H. discriminate H.
Qed.

Lemma fetch_ok_cached md5 http url w content w' :
  fetch_with_cache md5 http url w = (Ok content, w') ->
  is_Some (files w' !! cache_path md5 url).
Proof.
  unfold fetch_with_cache. destruct (files w !! cache_path md5 url) as [body|] eqn:E.
  - intros H. injection H as _ <-. rewrite E. eauto.
  - destruct (http url) as [|status_code text]; [discriminate|].
    destruct (status_is_error status_code); [discriminate|].
    intros H. injection H as _ <-. cbn [files]. rewrite lookup_insert_eq. eauto.
Qed.

Lemma fetch_raise md5 http url w e w' :
  fetch_with_cache md5 http url w = (Raise e, w') ->
  files w' = files w /\ requests w' = requests w ++ [url].
Proof.
  unfold fetch_with_cache. destruct (files w !! cache_path md5 url) as [body|] eqn:E; [discriminate|].
  destruct (http url) as [|status_code text].
  - intros H. injection H as _ <-. auto.
  - destruct (status_is_error status_code); [|discriminate].
    intros H. injection H as _ <-. auto.
Qed.

Lemma lens_page_built S lens_url w specs w' :
  parse_lens_page S lens_url w = (Ok specs, w') ->
  exists content specs0 name,
    fold_left add_spec (site_spec_units S content) (Ok {[ "reference"%string := lens_url ]})
    = Ok specs0
    /\ specs = <["name"%string := name]> specs0.
Proof.
  unfold parse_lens_page, bind, fetch.
  destruct (fetch_with_cache (site_md5 S) (site_http S) lens_url w) as [[content|e] w1]; [|discriminate].
  destruct (fold_left add_spec (site_spec_units S content) (Ok {[ "reference"%string := lens_url ]}))
    as [specs0|e] eqn:E; [|discriminate].
  destruct (site_category S content) as [category|]; [|discriminate].
  destruct (site_model S content) as [model|]; [|discriminate].
  unfold ret. intros H. injection H as <- _. eauto.
Qed.

Lemma lens_record_fields lens_url units specs :
  fold_left add_spec units (Ok {[ "reference"%string := lens_url ]}) = Ok specs ->
  specs !! "reference"%string = Some lens_url
  /\ specs !! "name"%string = None
  /\ (forall k v, specs !! k = Some v -> normal_field lens_url k v).
Proof.
  intros E. apply (fold_add_spec_fields lens_url) in E; [exact E | | |].
  - apply lookup_singleton_eq.
  - apply lookup_singleton_ne. discriminate.
  - intros k v Hk. apply lookup_singleton_Some in Hk as [<- <-]. left. auto.
Qed.


(** Rows with other labels can be left out. *)
Lemma add_spec_ignored specs item : ignored_unit item = true -> add_spec (Ok specs) item = Ok specs.
Proof.
  unfold ignored_unit, add_spec. destruct (unit_dt item) as [dt|]; [|discriminate].
  destruct (unit_dd item) as [dd|]; [|discriminate]. cbv zeta.
  intros H. apply negb_true_iff, bool_decide_eq_false in H.
  unfold known_labels in H. apply not_elem_of_app in H as [H Hfilter].
  repeat (apply not_elem_of_cons in H as [? H]).
  repeat match goal with
         | |- (if decide ?P then _ else _) = _ => destruct (decide P) as [E|_]; [contradiction|]
         end.
  rewrite bool_decide_eq_false_2 by exact Hfilter. reflexivity.
Qed.

(** * The order of the rows when the keys differ *)

Lemma float_ltf_asym a b : float_ltf a b = true -> float_ltf b a = false.
Proof.
  destruct a as [x|[]|], b as [y|[]|]; simpl; try congruence.
  rewrite <- (Qcompare_antisym x y). destruct (x ?= y)%Q; simpl; congruence.
Qed.

Lemma float_same_refl k : k <> NaN -> float_same k k = true.
Proof.
  unfold float_same. destruct k as [x|[]|]; simpl; try congruence.
  intros _. assert (E : (x ?= x)%Q = Eq) by (apply Qeq_alt; reflexivity).
  rewrite E. reflexivity.
Qed.

Lemma float_lef_strict a b :
  float_lef a b = true -> float_same a b = false -> float_ltf a b = true.
Proof.
  unfold float_same. destruct a as [x|[]|], b as [y|[]|]; simpl; try congruence.
  rewrite <- (Qcompare_antisym x y). destruct (x ?= y)%Q; simpl; congruence.
Qed.

Lemma filter_length_perm {A} (f : A -> bool) (l l' : list A) :
  Permutation l l' -> length (List.filter f l) = length (List.filter f l').
Proof.
  induction 1 as [|x l l' _ IH|x y l|l1 l2 l3 _ IH1 _ IH2]; simpl.
  - reflexivity.
  - destruct (f x); simpl; congruence.
  - destruct (f x), (f y); reflexivity.
  - congruence.
Qed.

Lemma decorate_perm {A} (key : A -> result pyfloat) (l l' : list A) :
  Permutation l l' ->
  forall d, decorate key l = Ok d -> exists d', decorate key l' = Ok d' /\ Permutation d d'.
Proof.
  induction 1 as [|x l l' _ IH|x y l|l1 l2 l3 _ IH1 _ IH2]; intros d Hd.
  - exists d. split; [exact Hd | reflexivity].
  - simpl in *. destruct (key x) as [k|]; [|discriminate].
    destruct (decorate key l) as [r|]; [|discriminate].
    apply Ok_inj in Hd. subst d. destruct (IH r eq_refl) as (r' & -> & Hp).
    exists ((k, x) :: r'). split; [reflexivity | constructor; exact Hp].
  - simpl in *. destruct (key y) as [ky|]; [|discriminate].
    destruct (key x) as [kx|]; [|discriminate].
    destruct (decorate key l) as [r|]; [|discriminate].
    apply Ok_inj in Hd. subst d. exists ((kx, x) :: (ky, y) :: r).
    split; [reflexivity | apply perm_swap].
  - destruct (IH1 d Hd) as (d2 & H2 & P2). destruct (IH2 d2 H2) as (d3 & H3 & P3).
    exists d3. split; [exact H3 | etrans; eassumption].
Qed.

Lemma decorate_inv {A} (key : A -> result pyfloat) (l : list A) : forall d,
  decorate key l = Ok d ->
  map snd d = l /\ Forall (fun x => key (snd x) = Ok (fst x)) d.
Proof.
  induction l as [|x l IH]; intros d Hd; simpl in Hd.
  - apply Ok_inj in Hd. subst d. split; [reflexivity | constructor].
  - destruct (key x) as [kx|] eqn:Hx; [|discriminate].
    destruct (decorate key l) as [r|]; [|discriminate].
    apply Ok_inj in Hd. subst d. destruct (IH r eq_refl) as [Hm Hf].
    split; [simpl; rewrite Hm; reflexivity | constructor; assumption].
Qed.

Section SortUnique.
Context {A : Type}.
Implicit Types (x : pyfloat * A) (l : list (pyfloat * A)).

Lemma strict_sorted_unique l1 : forall l2,
  StronglySorted (fun x y => float_ltf (fst x) (fst y) = true) l1 ->
  StronglySorted (fun x y => float_ltf (fst x) (fst y) = true) l2 ->
  Permutation l1 l2 -> l1 = l2.
Proof.
  induction l1 as [|a t1 IH]; intros l2 S1 S2 P.
  - apply Permutation_nil in P. congruence.
  - destruct l2 as [|b t2]; [apply Permutation_sym, Permutation_nil in P; discriminate|].
    apply StronglySorted_inv in S1 as [S1 Ha]. apply StronglySorted_inv in S2 as [S2 Hb].
    assert (E : a = b).
    { assert (Hin : In a (b :: t2)) by (eapply Permutation_in; [exact P | left; reflexivity]).
      assert (Hin' : In b (a :: t1)).
      { eapply Permutation_in; [symmetry; exact P | left; reflexivity]. }
      destruct Hin as [E|Hin]; [congruence|]. destruct Hin' as [E|Hin']; [congruence|].
      rewrite Forall_forall in Ha, Hb.
      specialize (Ha _ (proj2 (list_elem_of_In _ _) Hin')).
      specialize (Hb _ (proj2 (list_elem_of_In _ _) Hin)).
      apply float_ltf_asym in Ha. congruence. }
    subst b. f_equal. apply IH; [exact S1 | exact S2 |].
    eapply Permutation_cons_inv. exact P.
Qed.

Lemma sorted_strict l :
  StronglySorted by_key l -> Forall keyed l ->
  (forall k, k <> NaN -> (length (List.filter (fun y => float_same k (fst y)) l) <= 1)%nat) ->
  StronglySorted (fun x y => float_ltf (fst x) (fst y) = true) l.
Proof.
  induction 1 as [|y l Hs IH Hy]; intros Hk Hone; [constructor|].
  apply Forall_cons in Hk as [Hky Hk]. constructor.
  - apply IH; [exact Hk|]. intros k Hne. specialize (Hone k Hne). cbn [List.filter] in Hone.
    destruct (float_same k (fst y)); simpl in Hone; lia.
  - rewrite Forall_forall in Hy. apply Forall_forall. intros z Hz.
    apply float_lef_strict; [apply Hy; exact Hz|].
    destruct (float_same (fst y) (fst z)) eqn:E; [|reflexivity]. exfalso.
    specialize (Hone (fst y) Hky). cbn [List.filter] in Hone.
    rewrite (float_same_refl _ Hky) in Hone. simpl in Hone.
    assert (Hin : In z (List.filter (fun y0 => float_same (fst y) (fst y0)) l)).
    { apply filter_In. split; [apply list_elem_of_In; exact Hz | exact E]. }
    destruct (List.filter (fun y0 => float_same (fst y) (fst y0)) l); [exact Hin | simpl in Hone; lia].
Qed.

Lemma stable_sort_strict l :
  Forall keyed l ->
  (forall k, k <> NaN -> (length (List.filter (fun y => float_same k (fst y)) l) <= 1)%nat) ->
  StronglySorted (fun x y => float_ltf (fst x) (fst y) = true) (stable_sort l).
Proof.
  intros Hk Hone. apply sorted_strict.
  - apply stable_sort_sorted. exact Hk.
  - rewrite stable_sort_perm. exact Hk.
  - intros k Hne. rewrite stable_sort_filter by exact Hne. apply Hone. exact Hne.
Qed.
End SortUnique.

Lemma distinct_keys_once (l : list lens) (k : pyfloat) :
  distinct_keys l = true -> k <> NaN -> (length (List.filter (has_key k) l) <= 1)%nat.
Proof.
  intros H Hk. induction l as [|x r IH]; [simpl; lia|].
  cbn [distinct_keys] in H. apply andb_true_iff in H as [Hx Hr].
  cbn [List.filter]. destruct (has_key k x) eqn:E; [|apply IH; exact Hr].
  assert (Hnil : List.filter (has_key k) r = []).
  { destruct (List.filter (has_key k) r) as [|y t] eqn:F; [reflexivity|]. exfalso.
    assert (Hy : In y (List.filter (has_key k) r)) by (rewrite F; left; reflexivity).
    apply filter_In in Hy as [Hin Hy]. rewrite forallb_forall in Hx. specialize (Hx y Hin).
    unfold has_key in E, Hy.
    destruct (focal_key x) as [kx|]; [|discriminate].
    destruct (focal_key y) as [ky|]; [|discriminate].
    apply negb_true_iff in Hx. unfold float_same in Hx.
    rewrite (float_same_ltf k kx ky Hk E Hy), (float_same_ltf k ky kx Hk Hy E) in Hx.
    discriminate Hx. }
  rewrite Hnil. simpl. lia.
Qed.

(** * A second run *)

Lemma clean_log_grows S w w' : grows w w' -> clean_log S w' = true -> clean_log S w = true.
Proof.
  intros [_ [k Hk]]. unfold clean_log. rewrite Hk, forallb_app.
  intros H. apply andb_true_iff in H as [H _]. exact H.
Qed.

Lemma replays_ret S {A} (a : A) : replays S (ret a).
Proof. intros w a' w1 H _ w2 _. unfold ret in *. congruence. Qed.

Lemma replays_throw S {A} e : replays S (@throw A e).
Proof. intros w a w1 H. discriminate H. Qed.

Lemma replays_bind S {A B} (m : io A) (f : A -> io B) :
  replays S m -> (forall a, monotone (f a)) -> (forall a, replays S (f a)) ->
  replays S (bind m f).
Proof.
  intros Hm Hmono Hf w b w1 H Hclean w2 Hsub. unfold bind in *.
  destruct (m w) as [[a|e] w'] eqn:M; [|discriminate].
  pose proof (Hmono a w') as Hg. rewrite H in Hg. simpl in Hg.
  rewrite (Hm w a w' M (clean_log_grows _ _ _ Hg Hclean) w2).
  - apply (Hf a w' b w1 H Hclean w2 Hsub).
  - etrans; [exact (proj1 Hg) | exact Hsub].
Qed.

Lemma replays_match_result S {A B} (r : result A) (f : A -> io B) :
  (forall a, replays S (f a)) ->
  replays S (match r with Ok a => f a | Raise e => throw e end).
Proof. intros Hf. destruct r; [apply Hf | apply replays_throw]. Qed.

Lemma replays_fetch S url : replays S (fetch_with_cache (site_md5 S) (site_http S) url).
Proof.
  intros w c w1 H Hclean w2 Hsub. unfold fetch_with_cache in *.
  destruct (files w !! cache_path (site_md5 S) url) as [body|] eqn:E.
  - injection H as <- <-. rewrite (lookup_weaken _ _ _ _ E Hsub). reflexivity.
  - destruct (site_http S url) as [|status_code text] eqn:Hh; [discriminate|].
    destruct (status_is_error status_code); [discriminate|].
    injection H as <- <-. cbn [files requests] in *.
    assert (Hfile : files w2 !! cache_path (site_md5 S) url = Some text).
    { eapply lookup_weaken; [|exact Hsub]. apply lookup_insert_eq. }
    rewrite Hfile. unfold clean_log in Hclean. cbn [requests] in Hclean.
    rewrite forallb_app in Hclean. apply andb_true_iff in Hclean as [_ Hurl].
    cbn [forallb] in Hurl. rewrite Hh, andb_true_r in Hurl. cbn [reads_back] in Hurl.
    apply bool_decide_eq_true in Hurl. rewrite Hurl. reflexivity.
Qed.

Lemma replays_get_mount_pages S :
  replays S (get_mount_pages (site_md5 S) (site_http S) (site_mount_items S)).
Proof.
  apply replays_bind; [apply replays_fetch | |].
  - intros content. apply monotone_match_result. intros a. apply monotone_ret.
  - intros content. apply replays_match_result. intros a. apply replays_ret.
Qed.

Lemma replays_get_lens_links S mount_url :
  replays S (get_lens_links (site_md5 S) (site_http S) (site_anchor_hrefs S) mount_url).
Proof.
  apply replays_bind; [apply replays_fetch | |]; intros content;
    [apply monotone_ret | apply replays_ret].
Qed.

Lemma replays_parse_lens_page S lens_url : replays S (parse_lens_page S lens_url).
Proof.
  apply replays_bind; [apply replays_fetch | |]; intros content.
  - apply monotone_match_result. intros specs.
    destruct (site_category S content); [|apply monotone_throw].
    destruct (site_model S content); [apply monotone_ret | apply monotone_throw].
  - apply replays_match_result. intros specs.
    destruct (site_category S content); [|apply replays_throw].
    destruct (site_model S content); [apply replays_ret | apply replays_throw].
Qed.

Lemma replays_parse_all S lens_links : replays S (parse_all S lens_links).
Proof.
  induction lens_links as [|l rest IH]; [apply replays_ret|].
  apply replays_bind; [apply replays_parse_lens_page | |]; intros x.
  - apply monotone_bind; [apply monotone_parse_all|]. intros xs. apply monotone_ret.
  - apply replays_bind; [exact IH | |]; intros xs; [apply monotone_ret | apply replays_ret].
Qed.

Lemma replays_crawl_mount S order mount_url mount_name :
  replays S (crawl_mount S order mount_url mount_name).
Proof.
  apply replays_bind; [apply replays_get_lens_links | |]; intros links.
  - apply monotone_bind; [apply monotone_parse_all|]. intros lenses.
    apply monotone_match_result. intros sorted. apply monotone_ret.
  - apply replays_bind; [apply replays_parse_all | |]; intros lenses.
    + apply monotone_match_result. intros sorted. apply monotone_ret.
    + apply replays_match_result. intros sorted. apply replays_ret.
Qed.

Lemma crawl_all_replays S order mounts : forall printed w out w1 w2,
  crawl_all S order mounts printed w = (out, Ok tt, w1) ->
  clean_log S w1 = true -> files w1 ⊆ files w2 ->
  crawl_all S order mounts printed w2 = (out, Ok tt, w2).
Proof.
  induction mounts as [|[name url] rest IH]; intros printed w out w1 w2 H Hclean Hsub;
    cbn [crawl_all] in *.
  - injection H as <- <-. reflexivity.
  - destruct (crawl_mount S order url name w) as [[table|e] w'] eqn:E; [|discriminate].
    pose proof (crawl_all_grows S order rest (printed ++ [table]) w') as Hg.
    rewrite H in Hg. simpl in Hg.
    rewrite (replays_crawl_mount S order url name w table w' E
               (clean_log_grows _ _ _ Hg Hclean) w2).
    + apply (IH _ _ _ _ _ H Hclean Hsub).
    + etrans; [exact (proj1 Hg) | exact Hsub].
Qed.

(** * The rows of a table *)




(** * Requests *)

Lemma sent_nothing S w ok : sent S w [] ok w.
Proof.
  split; [rewrite app_nil_r; reflexivity|]. split; [constructor|].
  split; intros; exfalso; eapply not_elem_of_nil; eassumption.
Qed.

Lemma is_Some_weaken (m1 m2 : gmap pystr pystr) k : m1 ⊆ m2 -> is_Some (m1 !! k) -> is_Some (m2 !! k).
Proof. intros Hsub [v Hv]. exists v. eapply lookup_weaken; eassumption. Qed.

Lemma lookup_None_weaken (m1 m2 : gmap pystr pystr) k : m1 ⊆ m2 -> m2 !! k = None -> m1 !! k = None.
Proof.
  intros Hsub Hn. destruct (m1 !! k) as [v|] eqn:E; [|reflexivity].
  rewrite (lookup_weaken _ _ _ _ E Hsub) in Hn. discriminate.
Qed.

Lemma sent_then S w new1 w1 new2 ok w2 :
  grows w w1 -> grows w1 w2 ->
  sent S w new1 true w1 -> sent S w1 new2 ok w2 -> sent S w (new1 ++ new2) ok w2.
Proof.
  intros [F1 _] [F2 _] (R1 & N1 & C1 & K1) (R2 & N2 & C2 & K2).
  split; [rewrite R2, R1, app_assoc; reflexivity|]. split; [|split].
  - apply NoDup_app. split; [exact N1|]. split; [|exact N2].
    intros url H1 H2. destruct (K1 eq_refl url H1) as [v Hv].
    rewrite (C2 url H2) in Hv. discriminate.
  - intros url Hin. apply elem_of_app in Hin as [Hin|Hin]; [apply C1; exact Hin|].
    eapply lookup_None_weaken; [exact F1 | apply C2; exact Hin].
  - intros Hok url Hin. apply elem_of_app in Hin as [Hin|Hin]; [|apply K2; assumption].
    eapply is_Some_weaken; [exact F2 | apply K1; [reflexivity | exact Hin]].
Qed.

Lemma frugal_ret S {A} (a : A) : frugal S (ret a).
Proof. intros w. exists []. apply sent_nothing. Qed.

Lemma frugal_throw S {A} e : frugal S (@throw A e).
Proof. intros w. exists []. apply sent_nothing. Qed.

Lemma frugal_bind S {A B} (m : io A) (f : A -> io B) :
  frugal S m -> monotone m -> (forall a, frugal S (f a)) -> (forall a, monotone (f a)) ->
  frugal S (bind m f).
Proof.
  intros Hm Mm Hf Mf w. unfold bind.
  destruct (Hm w) as [new1 H1]. pose proof (Mm w) as G1.
  destruct (m w) as [[a|e] w1]; cbn [fst snd is_ok] in *; [|exists new1; exact H1].
  destruct (Hf a w1) as [new2 H2]. pose proof (Mf a w1) as G2.
  exists (new1 ++ new2). eapply sent_then; eassumption.
Qed.

Lemma frugal_match_result S {A B} (r : result A) (f : A -> io B) :
  (forall a, frugal S (f a)) ->
  frugal S (match r with Ok a => f a | Raise e => throw e end).
Proof. intros Hf. destruct r; [apply Hf | apply frugal_throw]. Qed.

Lemma frugal_fetch S url : frugal S (fetch_with_cache (site_md5 S) (site_http S) url).
Proof.
  intros w. unfold fetch_with_cache.
  destruct (files w !! cache_path (site_md5 S) url) as [body|] eqn:E.
  - exists []. apply sent_nothing.
  - exists [url].
    assert (Hone : forall u0, u0 ∈ [url] -> files w !! cache_path (site_md5 S) u0 = None).
    { intros u0 Hu. apply list_elem_of_singleton in Hu. subst. exact E. }
    cbv zeta. destruct (site_http S url) as [|status_code text]; cbn [fst snd is_ok requests files].
    + split; [reflexivity|]. split; [apply NoDup_singleton|]. split; [exact Hone | discriminate].
    + destruct (status_is_error status_code); cbn [fst snd is_ok requests files].
      * split; [reflexivity|]. split; [apply NoDup_singleton|]. split; [exact Hone | discriminate].
      * split; [reflexivity|]. split; [apply NoDup_singleton|]. split; [exact Hone|].
        intros _ u0 Hu. apply list_elem_of_singleton in Hu. subst.
        cbn [files]. rewrite lookup_insert_eq. eauto.
Qed.

Lemma frugal_get_mount_pages S :
  frugal S (get_mount_pages (site_md5 S) (site_http S) (site_mount_items S)).
Proof.
  apply frugal_bind; [apply frugal_fetch | apply monotone_fetch | |]; intros content.
  - apply frugal_match_result. intros a. apply frugal_ret.
  - apply monotone_match_result. intros a. apply monotone_ret.
Qed.

Lemma frugal_get_lens_links S mount_url :
  frugal S (get_lens_links (site_md5 S) (site_http S) (site_anchor_hrefs S) mount_url).
Proof.
  apply frugal_bind; [apply frugal_fetch | apply monotone_fetch | |]; intros content;
    [apply frugal_ret | apply monotone_ret].
Qed.

Lemma frugal_parse_lens_page S lens_url : frugal S (parse_lens_page S lens_url).
Proof.
  apply frugal_bind; [apply frugal_fetch | apply monotone_fetch | |]; intros content.
  - apply frugal_match_result. intros specs.
    destruct (site_category S content); [|apply frugal_throw].
    destruct (site_model S content); [apply frugal_ret | apply frugal_throw].
  - apply monotone_match_result. intros specs.
    destruct (site_category S content); [|apply monotone_throw].
    destruct (site_model S content); [apply monotone_ret | apply monotone_throw].
Qed.

Lemma frugal_parse_all S lens_links : frugal S (parse_all S lens_links).
Proof.
  induction lens_links as [|l rest IH]; [apply frugal_ret|].
  apply frugal_bind; [apply frugal_parse_lens_page | apply monotone_parse_lens_page | |]; intros x.
  - apply frugal_bind; [exact IH | apply monotone_parse_all | |]; intros xs;
      [apply frugal_ret | apply monotone_ret].
  - apply monotone_bind; [apply monotone_parse_all|]. intros xs. apply monotone_ret.
Qed.

Lemma frugal_crawl_mount S order mount_url mount_name :
  frugal S (crawl_mount S order mount_url mount_name).
Proof.
  apply frugal_bind; [apply frugal_get_lens_links | apply monotone_get_lens_links | |];
    intros links.
  - apply frugal_bind; [apply frugal_parse_all | apply monotone_parse_all | |]; intros lenses.
    + apply frugal_match_result. intros sorted. apply frugal_ret.
    + apply monotone_match_result. intros sorted. apply monotone_ret.
  - apply monotone_bind; [apply monotone_parse_all|]. intros lenses.
    apply monotone_match_result. intros sorted. apply monotone_ret.
Qed.

Lemma crawl_all_sent S order mounts : forall printed w,
  exists new,
    sent S w new (is_ok (snd (fst (crawl_all S order mounts printed w))))
         (snd (crawl_all S order mounts printed w)).
Proof.
  induction mounts as [|[name url] rest IH]; intros printed w; cbn [crawl_all].
  - exists []. apply sent_nothing.
  - destruct (frugal_crawl_mount S order url name w) as [new1 H1].
    pose proof (monotone_crawl_mount S order url name w) as G1.
    destruct (crawl_mount S order url name w) as [[table|e] w1]; cbn [fst snd is_ok] in *;
      [|exists new1; exact H1].
    destruct (IH (printed ++ [table]) w1) as [new2 H2].
    exists (new1 ++ new2). eapply sent_then; [exact G1 | apply crawl_all_grows | exact H1 | exact H2].
Qed.

Lemma main_sent S order w :
  exists new, sent S w new (is_ok (snd (fst (main S order w)))) (snd (main S order w)).
Proof.
  unfold main.
  destruct (frugal_get_mount_pages S w) as [new1 H1].
  pose proof (monotone_get_mount_pages (site_md5 S) (site_http S) (site_mount_items S) w) as G1.
  destruct (get_mount_pages _ _ _ w) as [[mounts|e] w1]; cbn [fst snd is_ok] in *;
    [|exists new1; exact H1].
  destruct (crawl_all_sent S order mounts [] w1) as [new2 H2].
  exists (new1 ++ new2). eapply sent_then; [exact G1 | apply crawl_all_grows | exact H1 | exact H2].
Qed.

(** * Further properties of the program *)

(** X1.  [fetch_with_cache] only adds: every cache file is kept with its
    text, no file other than the one of the URL is touched, and the request
    log is left alone or gets the URL appended. *)
Theorem fetch_with_cache_keeps (md5_hexdigest : pystr -> pystr)
    (http_get : pystr -> http_outcome) (url : pystr) (w : world) :
  let w' := snd (fetch_with_cache md5_hexdigest http_get url w) in
  files w ⊆ files w'
  /\ (forall file, file <> cache_path md5_hexdigest url -> files w' !! file = files w !! file)
  /\ (requests w' = requests w \/ requests w' = requests w ++ [url]).
Proof.
  intros w'. subst w'. split; [apply monotone_fetch|].
  destruct (fetch_with_cache_steps md5_hexdigest http_get url w) as [[-> _]|(_ & -> & Hf)].
  - split; [reflexivity | left; reflexivity].
  - split; [|right; reflexivity].
    intros file Hne. destruct Hf as [->|[content ->]]; [reflexivity|].
    apply lookup_insert_ne. congruence.
Qed.

(** X2.  The mount dictionary is built exactly when every item has a link
    and a name; the first item lacking one decides the exception:
    [KeyError] without a link, [AttributeError] with a link and no name. *)
Theorem mounts_of_items_outcome (items : list mount_item) :
  ((exists mounts, mounts_of_items items = Ok mounts) <-> forallb complete_item items = true)
  /\ (forall entries item rest,
        items = map item_of entries ++ item :: rest -> complete_item item = false ->
        mounts_of_items items
        = Raise (match href item with None => KeyError | Some _ => AttributeError end)).
Proof.
  split; [apply mounts_of_items_ok|].
  intros entries item rest -> H. apply mounts_of_items_incomplete. exact H.
Qed.

(** X3.  For items that all have a link and a name, the keys of the mount
    dictionary are the listed names other than ACCESSORIES, in the order of
    their first appearance; a name is absent exactly when it is not among
    them; and every URL stored is one the listing gave for that name. *)
Theorem mounts_in_listing_order (entries : list (pystr * pystr)) :
  exists mounts,
    mounts_of_items (map item_of entries) = Ok mounts
    /\ map fst mounts = first_seen (listed_names entries)
    /\ (forall name, dict_lookup mounts name = None <-> name ∉ listed_names entries)
    /\ (forall name url, dict_lookup mounts name = Some url -> (url, name) ∈ entries).
Proof.
  exists (fold_left record_mount entries []). split; [apply fold_add_mount|].
  split; [|split].
  - rewrite record_mounts_keys. simpl. apply filter_all_kept.
  - intros name. rewrite record_mounts_lookup_none. simpl. tauto.
  - intros name url H. apply record_mounts_lookup_some in H as [H|H]; [discriminate H | exact H].
Qed.

(** X4.  A link is kept for a mount exactly when it is the mount URL
    followed by something that is not made of slashes only. *)
Theorem is_lens_link_iff (mount_url link : pystr) :
  is_lens_link mount_url link = true
  <-> exists rest, link = mount_url ++ rest /\ only_char 47 rest = false.
Proof.
  rewrite is_lens_link_spec. split.
  - intros [Hs Hne]. apply startswith_inv in Hs as [rest ->]. exists rest.
    split; [reflexivity|]. destruct (only_char 47 rest) eqn:E; [|reflexivity].
    exfalso. apply Hne. apply rstrip_app_only. exact E.
  - intros (rest & -> & Hrest). split; [apply startswith_app|].
    apply rstrip_not_only in Hrest. rewrite rstrip_app_keep by exact Hrest.
    intros E. apply (f_equal (@length _)) in E. rewrite length_app in E.
    pose proof (rstrip_length 47 mount_url).
    destruct (rstrip 47 rest); [congruence | simpl in E; lia].
Qed.

(** X5.  [format_lens_const] never raises, and applied to its own result it
    changes nothing. *)
Theorem format_lens_const_twice (japanese_const : pystr) :
  exists t, format_lens_const japanese_const = Ok t /\ format_lens_const t = Ok t.
Proof.
  destruct (format_lens_const_ok japanese_const) as [t H]. exists t.
  split; [exact H | eapply format_lens_const_idempotent; exact H].
Qed.

(** X6.  For a unit without digits, full stops and multiplication signs
    (as [m], [mm] and [g] are), [format_cvt] never raises, and applied to
    its own result it changes nothing. *)
Theorem format_cvt_twice (value unit : pystr) :
  plain_unit unit = true ->
  exists t, format_cvt value unit = Ok t /\ format_cvt t unit = Ok t.
Proof.
  intros Hu. destruct (format_cvt_ok value unit) as [t H]. exists t.
  split; [exact H | eapply format_cvt_idempotent; eassumption].
Qed.

Lemma format_cvt_twice_witness :
  exists t, format_cvt (u "φ63.5×42mm") (u "mm") = Ok t /\ format_cvt t (u "mm") = Ok t.
Proof. apply (format_cvt_twice (u "φ63.5×42mm") (u "mm")). reflexivity. Defined.

(** X7.  For such a unit the numbers can be read back from the result of
    [format_cvt]: all the numeric substrings of the value when it contains
    a multiplication sign, the first one otherwise. *)
Theorem format_cvt_numbers (value unit : pystr) :
  plain_unit unit = true ->
  exists t, format_cvt value unit = Ok t
            /\ numeric_substrings t
               = if contains (u "×") value then numeric_substrings value
                 else take 1 (numeric_substrings value).
Proof.
  intros Hu. rewrite format_cvt_eq.
  pose proof (numeric_substrings_tokens value) as Htok.
  destruct (contains (u "×") value).
  - eexists. split; [reflexivity|]. apply (cvt_template_runs _ _ Hu Htok).
  - destruct (numeric_substrings value) as [|first rest] eqn:E.
    + exists value. split; [reflexivity | exact E].
    + eexists. split; [reflexivity|].
      apply (cvt_template_runs [first] unit Hu).
      inversion Htok; subst. constructor; [assumption | constructor].
Qed.

Lemma format_cvt_numbers_witness :
  exists t, format_cvt (u "φ63.5×42mm") (u "mm") = Ok t
            /\ numeric_substrings t = [u "63.5"; u "42"].
Proof. apply (format_cvt_numbers (u "φ63.5×42mm") (u "mm")). reflexivity. Defined.

(** X8.  [format_f_number] never raises, and applied to its own result it
    changes nothing. *)
Theorem format_f_number_twice (value : pystr) :
  exists t, format_f_number value = Ok t /\ format_f_number t = Ok t.
Proof.
  destruct (format_f_number_ok value) as [t H]. exists t.
  split; [exact H | eapply format_f_number_idempotent; exact H].
Qed.

(** X9.  When no [1] comes before the pattern, the aperture shown is the
    whole run of digits and full stops after the colon. *)
Theorem format_f_number_first_match (pre sp1 sp2 g rest : pystr) :
  none_of (fun c => c =? 49) pre = true ->
  opt_space sp1 -> opt_space sp2 ->
  g <> [] -> forallb (accepts numeric) g = true -> stops (accepts numeric) rest ->
  format_f_number (pre ++ u "1" ++ sp1 ++ u ":" ++ sp2 ++ g ++ rest)
  = Ok (u "{{f/|" ++ g ++ u "}}").
Proof.
  intros Hpre H1 H2 Hne Hg Hstop. unfold format_f_number.
  rewrite f_number_search_skip by exact Hpre.
  rewrite (re_search_here _ _ _ _ (f_number_match_exact sp1 sp2 g rest H1 H2 Hne Hg Hstop)).
  reflexivity.
Qed.

Lemma format_f_number_first_match_witness :
  format_f_number (u "F1: 2.5 (max)") = Ok (u "{{f/|2.5}}").
Proof.
  apply (format_f_number_first_match (u "F") [] (u " ") (u "2.5") (u " (max)")).
  - reflexivity.
  - left. reflexivity.
  - right. reflexivity.
  - discriminate.
  - reflexivity.
  - reflexivity.
Defined.

(** X10.  When the text [format_focal] hands to [float] is a non-empty run
    of digits and full stops, the key by which [crawl_mount] sorts a record
    holding the result is the number [format_focal] chose the colour by. *)
Theorem focal_key_is_band_value (value out : pystr) (specs : lens) :
  focal_sort_text value <> [] ->
  forallb (accepts numeric) (focal_sort_text value) = true ->
  format_focal value = Ok out ->
  exists f, py_float (focal_sort_text value) = Some f
            /\ out = cell_header (band_color f)
                       (if contains dx (strip_unit value)
                        then sort_attribute (focal_sort_text value) else [])
                     ++ u "|" ++ focal_display_text value
            /\ focal_key (<["focal_length"%string := out]> specs) = Ok f.
Proof.
  intros Hne Hnum H.
  destruct (format_focal_first_number value out Hne Hnum H) as [rest Hruns].
  rewrite format_focal_outcome in H.
  destruct (py_float (focal_sort_text value)) as [f|] eqn:Hf; [|discriminate].
  apply Ok_inj in H. exists f. split; [reflexivity|]. split; [symmetry; exact H|].
  unfold focal_key, dict_get_default. rewrite lookup_insert_eq.
  rewrite findall_numeric, Hruns. simpl. rewrite Hf. reflexivity.
Qed.

Lemma focal_key_is_band_value_witness :
  exists f, py_float (focal_sort_text (u "50mm")) = Some f
            /\ cell_header (u "ffd") [] ++ u "|50"
               = cell_header (band_color f)
                   (if contains dx (strip_unit (u "50mm"))
                    then sort_attribute (focal_sort_text (u "50mm")) else [])
                 ++ u "|" ++ focal_display_text (u "50mm")
            /\ focal_key (<["focal_length"%string := cell_header (u "ffd") [] ++ u "|50"]> ∅)
               = Ok f.
Proof.
  apply (focal_key_is_band_value (u "50mm") (cell_header (u "ffd") [] ++ u "|50") ∅).
  - vm_compute. discriminate.
  - vm_compute. reflexivity.
  - vm_compute. reflexivity.
Defined.

(** X11.  A record returned by [parse_lens_page] holds the page URL as its
    reference and a name, and every field in it is as its normalizer
    leaves it: the converted fields are unchanged by their normalizer, the
    blade count has no counter word, the filter size is [N/A] or has no
    "not possible" in it. *)
Theorem parse_lens_page_fields (S : site) (lens_url : pystr) (w : world)
    (specs : lens) (w' : world) :
  parse_lens_page S lens_url w = (Ok specs, w') ->
  specs !! "reference"%string = Some lens_url
  /\ is_Some (specs !! "name"%string)
  /\ (forall k v, specs !! k = Some v -> normal_field lens_url k v).
Proof.
  intros H. apply lens_page_built in H as (content & specs0 & name & E & ->).
  apply lens_record_fields in E as (Href & Hname & Hall).
  split; [rewrite lookup_insert_ne by discriminate; exact Href|].
  split; [rewrite lookup_insert_eq; eauto|].
  intros k v. destruct (decide (k = "name"%string)) as [->|Hne].
  - intros _. right. left. reflexivity.
  - rewrite lookup_insert_ne by congruence. apply Hall.
Qed.

Lemma parse_lens_page_fields_witness :
  exists specs w',
    parse_lens_page sample_shop (u "https://www.cosina.co.jp/voigtlander/vm/nokton-50/")
      empty_world = (Ok specs, w')
    /\ specs !! "reference"%string = Some (u "https://www.cosina.co.jp/voigtlander/vm/nokton-50/")
    /\ is_Some (specs !! "name"%string)
    /\ (forall k v, specs !! k = Some v ->
          normal_field (u "https://www.cosina.co.jp/voigtlander/vm/nokton-50/") k v).
Proof.
  assert (Hok : is_ok (fst (parse_lens_page sample_shop
                              (u "https://www.cosina.co.jp/voigtlander/vm/nokton-50/")
                              empty_world)) = true) by (vm_compute; reflexivity).
  destruct (parse_lens_page sample_shop (u "https://www.cosina.co.jp/voigtlander/vm/nokton-50/")
              empty_world) as [[specs|e] w'] eqn:E.
  - exists specs, w'. split; [reflexivity|].
    exact (parse_lens_page_fields sample_shop _ empty_world specs w' E).
  - discriminate Hok.
Defined.

(** X12.  When [parse_lens_page] raises, either the exception is the one
    the fetch of the page raised (one request was made and no file
    written), or the page was fetched and is in the cache, and the
    exception is [AttributeError] or [ValueError]. *)
Theorem parse_lens_page_raises (S : site) (lens_url : pystr) (w : world)
    (e : exn) (w' : world) :
  parse_lens_page S lens_url w = (Raise e, w') ->
  (fetch S lens_url w = (Raise e, w')
   /\ files w' = files w /\ requests w' = requests w ++ [lens_url])
  \/ ((exists content, fetch S lens_url w = (Ok content, w'))
      /\ (e = AttributeError \/ e = ValueError)
      /\ is_Some (files w' !! cache_path (site_md5 S) lens_url)).
Proof.
  unfold parse_lens_page, bind, fetch.
  destruct (fetch_with_cache (site_md5 S) (site_http S) lens_url w) as [[content|e0] w1] eqn:F.
  - pose proof (fetch_ok_cached _ _ _ _ _ _ F) as Hfile. intros H. right.
    destruct (fold_left add_spec (site_spec_units S content) (Ok {[ "reference"%string := lens_url ]}))
      as [specs0|e1] eqn:E.
    + destruct (site_category S content) as [category|];
        [|injection H as <- <-; split; [eauto | split; [left; reflexivity | exact Hfile]]].
      destruct (site_model S content) as [model|];
        [discriminate H | injection H as <- <-; split; [eauto | split; [left; reflexivity | exact Hfile]]].
    + injection H as <- <-. split; [eauto|]. split; [|exact Hfile].
      eapply fold_add_spec_raises. exact E.
  - intros H. injection H as <- <-. left. split; [reflexivity|].
    eapply fetch_raise. exact F.
Qed.

Lemma parse_lens_page_raises_witness :
  exists e w',
    parse_lens_page sample_shop (u "https://www.cosina.co.jp/voigtlander/vm/zoom/")
      empty_world = (Raise e, w')
    /\ ((fetch sample_shop (u "https://www.cosina.co.jp/voigtlander/vm/zoom/") empty_world
         = (Raise e, w')
         /\ files w' = files empty_world
         /\ requests w' = requests empty_world ++ [u "https://www.cosina.co.jp/voigtlander/vm/zoom/"])
        \/ ((exists content,
               fetch sample_shop (u "https://www.cosina.co.jp/voigtlander/vm/zoom/") empty_world
               = (Ok content, w'))
            /\ (e = AttributeError \/ e = ValueError)
            /\ is_Some (files w' !! cache_path (site_md5 sample_shop)
                                      (u "https://www.cosina.co.jp/voigtlander/vm/zoom/")))).
Proof.
  assert (Hok : is_ok (fst (parse_lens_page sample_shop
                              (u "https://www.cosina.co.jp/voigtlander/vm/zoom/")
                              empty_world)) = false) by (vm_compute; reflexivity).
  destruct (parse_lens_page sample_shop (u "https://www.cosina.co.jp/voigtlander/vm/zoom/")
              empty_world) as [[specs|e] w'] eqn:E.
  - discriminate Hok.
  - exists e, w'. split; [reflexivity|].
    exact (parse_lens_page_raises sample_shop _ empty_world e w' E).
Defined.

(** X13.  Specification rows that have both texts and a label the program
    does not act on can be left out of a page: the loop of
    [parse_lens_page] ends the same way without them. *)
Theorem spec_rows_ignored (units : list spec_unit) (specs : result lens) :
  fold_left add_spec (List.filter (fun item => negb (ignored_unit item)) units) specs
  = fold_left add_spec units specs.
Proof.
  revert specs. induction units as [|i units IH]; intros r; [reflexivity|].
  cbn [List.filter fold_left]. destruct (ignored_unit i) eqn:E; cbn [negb].
  - destruct r as [specs|e]; [rewrite (add_spec_ignored _ _ E); apply IH|].
    change (add_spec (Raise e) i) with (@Raise lens e). apply IH.
  - cbn [fold_left]. apply IH.
Qed.

(** X14.  When no two records have equal sort keys, the sorted list does
    not depend on the order in which the records were collected. *)
Theorem sort_lenses_any_order (lenses lenses' sorted : list lens) :
  Permutation lenses lenses' -> distinct_keys lenses = true ->
  sort_lenses lenses = Ok sorted -> sort_lenses lenses' = Ok sorted.
Proof.
  unfold sort_lenses, sort_by_key. intros P Hd H.
  destruct (decorate focal_key lenses) as [d|] eqn:E; [|discriminate].
  apply Ok_inj in H. subst sorted.
  destruct (decorate_perm focal_key lenses lenses' P d E) as (d' & E' & Pd). rewrite E'.
  destruct (decorate_inv focal_key lenses d E) as [Hm Hf].
  assert (Hk : Forall keyed d).
  { eapply Forall_impl; [exact Hf|]. intros [k x] Hx. unfold keyed. simpl in *.
    eapply focal_key_not_nan. exact Hx. }
  assert (Hone : forall k, k <> NaN ->
            (length (List.filter (fun y : pyfloat * lens => float_same k (fst y)) d) <= 1)%nat).
  { intros k Hne. pose proof (distinct_keys_once lenses k Hd Hne) as H1.
    rewrite <- Hm, (filter_decorated k d Hf), length_map in H1. exact H1. }
  f_equal. f_equal. symmetry. apply strict_sorted_unique.
  - apply stable_sort_strict; [exact Hk | exact Hone].
  - apply stable_sort_strict.
    + rewrite <- Pd. exact Hk.
    + intros k Hne. rewrite <- (filter_length_perm _ d d' Pd). apply Hone. exact Hne.
  - rewrite !stable_sort_perm. exact Pd.
Qed.

Lemma sort_lenses_any_order_witness :
  sort_lenses [sample_lens_50; sample_lens_21] = Ok [sample_lens_21; sample_lens_50].
Proof.
  assert (K21 : focal_key sample_lens_21 = Ok (Finite 21)) by (vm_compute; reflexivity).
  assert (K50 : focal_key sample_lens_50 = Ok (Finite 50)) by (vm_compute; reflexivity).
  apply (sort_lenses_any_order [sample_lens_21; sample_lens_50] [sample_lens_50; sample_lens_21]).
  - apply perm_swap.
  - cbn [distinct_keys forallb]. rewrite K21, K50. reflexivity.
  - unfold sort_lenses, sort_by_key. cbn [decorate]. rewrite K21, K50. reflexivity.
Defined.



(** X16.  [main] prints one table per mount, in the order of the mount
    dictionary, until a mount fails: it ends without an exception exactly
    when every mount has its table, and each table starts with the caption
    and the column headings for its mount.  When the homepage fails,
    nothing is printed. *)
Theorem main_tables_in_order (S : site) (order : gset pystr -> list pystr) (w : world) :
  let out := fst (fst (main S order w)) in
  let r := snd (fst (main S order w)) in
  match fst (get_mount_pages (site_md5 S) (site_http S) (site_mount_items S) w) with
  | Raise e => out = [] /\ r = Raise e
  | Ok mounts =>
      (length out <= length mounts)%nat
      /\ (r = Ok tt <-> length out = length mounts)
      /\ (forall i t, out !! i = Some t ->
            exists name url, mounts !! i = Some (name, url)
                             /\ table_head url name `prefix_of` t)
  end.
Proof.
  intros out r. subst out r. unfold main.
  destruct (get_mount_pages _ _ _ w) as [[mounts|e] w1]; cbn [fst snd]; [|auto].
  destruct (crawl_all S order mounts [] w1) as [[out r] w'] eqn:E. cbn [fst snd].
  apply crawl_all_printed in E as (tables & -> & Hlen & Hok & Hhead).
  simpl. auto.
Qed.

(** X17.  A run never removes or changes a cache file and never shortens
    the request log. *)
Theorem main_keeps_the_cache (S : site) (order : gset pystr -> list pystr) (w : world) :
  files w ⊆ files (snd (main S order w))
  /\ requests w `prefix_of` requests (snd (main S order w)).
Proof.
  change (grows w (snd (main S order w))). unfold main.
  pose proof (monotone_get_mount_pages (site_md5 S) (site_http S) (site_mount_items S) w) as H.
  destruct (get_mount_pages _ _ _ w) as [[mounts|e] w1]; simpl in *; [|exact H].
  eapply grows_trans; [exact H | apply crawl_all_grows].
Qed.

(** X18.  In a run every request is for a URL that had no cache file when
    the run began, no URL is requested twice, and after a run that ended
    without an exception every requested URL has a cache file. *)
Theorem main_requests_once (S : site) (order : gset pystr -> list pystr) (w : world) :
  exists new,
    requests (snd (main S order w)) = requests w ++ new
    /\ NoDup new
    /\ (forall url, url ∈ new -> files w !! cache_path (site_md5 S) url = None)
    /\ (snd (fst (main S order w)) = Ok tt ->
        forall url, url ∈ new ->
          is_Some (files (snd (main S order w)) !! cache_path (site_md5 S) url)).
Proof.
  destruct (main_sent S order w) as (new & R & N & C & K). exists new.
  split; [exact R|]. split; [exact N|]. split; [exact C|].
  intros Hok. apply K. rewrite Hok. reflexivity.
Qed.

(** X19.  After a run that ended without an exception, in which no page
    requested had a carriage return in its body, a second run over the same
    cache files, iterating the link sets in the same order, sends no
    request, writes no file and prints the same tables. *)
Theorem main_second_run (S : site) (order : gset pystr -> list pystr)
    (w : world) (out : list pystr) (w1 w2 : world) :
  main S order w = (out, Ok tt, w1) ->
  clean_log S w1 = true -> files w1 ⊆ files w2 ->
  main S order w2 = (out, Ok tt, w2).
Proof.
  unfold main. intros H Hclean Hsub.
  destruct (get_mount_pages _ _ _ w) as [[mounts|e] w'] eqn:E; [|discriminate].
  pose proof (crawl_all_grows S order mounts [] w') as Hg. rewrite H in Hg. simpl in Hg.
  rewrite (replays_get_mount_pages S w mounts w' E (clean_log_grows _ _ _ Hg Hclean) w2).
  - apply (crawl_all_replays _ _ _ _ _ _ _ _ H Hclean Hsub).
  - etrans; [exact (proj1 Hg) | exact Hsub].
Qed.

Lemma main_second_run_witness :
  main sample_shop elements (snd (main sample_shop elements empty_world))
  = (fst (fst (main sample_shop elements empty_world)), Ok tt,
     snd (main sample_shop elements empty_world)).
Proof.
  assert (Hok : snd (fst (main sample_shop elements empty_world)) = Ok tt)
    by (vm_compute; reflexivity).
  apply (main_second_run sample_shop elements empty_world
           (fst (fst (main sample_shop elements empty_world)))
           (snd (main sample_shop elements empty_world))
           (snd (main sample_shop elements empty_world))).
  - rewrite <- Hok. destruct (main sample_shop elements empty_world) as [[out r] w1].
    reflexivity.
  - vm_compute. reflexivity.
  - reflexivity.
Defined.

(** X20.  When the focal length has no full-frame marker and the text
    [format_focal] hands to [float] is read by it although it has no digit
    and no full stop (as [inf] and [nan] are), [format_focal] returns, and
    the sort of a list with the record raises [IndexError]. *)
Theorem focal_key_without_number (value out : pystr) (specs : lens) (before after : list lens) :
  contains dx (strip_unit value) = false ->
  none_of (accepts numeric) (focal_sort_text value) = true ->
  format_focal value = Ok out ->
  Forall (fun x => is_ok (focal_key x) = true) before ->
  sort_lenses (before ++ <["focal_length"%string := out]> specs :: after) = Raise IndexError.
Proof.
  intros Hdx Hnone Hout Hbefore. unfold sort_lenses, sort_by_key.
  pose proof (focal_key_no_number value out specs Hdx Hnone Hout) as Hkey.
  induction Hbefore as [|x before Hx _ IH]; simpl.
  - rewrite Hkey. reflexivity.
  - destruct (focal_key x) as [k|]; [|discriminate Hx].
    destruct (decorate focal_key (before ++ <["focal_length"%string := out]> specs :: after));
      [discriminate IH | congruence].
Qed.

Lemma focal_key_without_number_witness :
  format_focal (u "inf") = Ok (cell_header (u "dfd") [] ++ u "|inf")
  /\ sort_lenses [sample_lens_50;
                  <["focal_length"%string := cell_header (u "dfd") [] ++ u "|inf"]> ∅;
                  sample_lens_21]
     = Raise IndexError.
Proof.
  assert (H : format_focal (u "inf") = Ok (cell_header (u "dfd") [] ++ u "|inf"))
    by (vm_compute; reflexivity).
  split; [exact H|].
  apply (focal_key_without_number (u "inf") _ ∅ [sample_lens_50] [sample_lens_21]).
  - vm_compute. reflexivity.
  - vm_compute. reflexivity.
  - exact H.
  - repeat constructor.
Defined.
